(** * double-stack: long stack traces across scheduling boundaries

    A shallow embedding of the JavaScript sources [src/options.js],
    [src/double-stack.js] and [src/index.js], and the properties of the
    specification checked against it.

    - [Js]          the fragment of JavaScript values and coercions the
                    sources rely on ([typeof], [!v], [~~v], [String(v)]);
    - [Options]     the validated settings object of [options.js];
    - [DoubleStack] the capture / linkage / flattening / rendering engine
                    and the event-emitter patches of [double-stack.js];
    - [ActiveHandles] the report [getActiveHandles] of [double-stack.js]
                    makes of the process's handles;
    - [Index]       the renderer hook of [index.js], which hands the
                    flattened chain to [options.formatStack]. *)

From Stdlib Require Import ZArith String Ascii Bool Lia.
From stdpp Require Import base option list strings gmap.

Set Default Proof Using "Type".

(* ================================================================== *)
(** ** JavaScript values *)
(* ================================================================== *)

Module Js.

Local Open Scope Z_scope.

(** A JavaScript number.  Every finite double is a dyadic rational
    [m * 2^e]; the sources only truncate numbers and compare them with
    zero, and both operations are exact, so no rounding is modelled.  The
    two zeros are [Finite 0 e]: [~~(-0)] is [0] and [-0 < 0] is false. *)
Inductive JsNumber :=
| NaN
| Infinity (negative : bool)
| Finite (m e : Z).

(** Object identity: the address of the object. *)
Abbreviation Ref := nat (only parsing).

Inductive JsValue :=
| VUndefined
| VNull
| VBool (b : bool)
| VNumber (n : JsNumber)
| VString (s : string)
| VObject (r : Ref).

(** What a [throw] carries. *)
Inductive Thrown :=
| TypeError (message : string)
| ThrownError (error : Ref)
| ThrownValue (v : JsValue).

(** A call either returns or throws. *)
Inductive Outcome (A : Type) :=
| Returned (a : A)
| Threw (t : Thrown).
Arguments Returned {A} a.
Arguments Threw {A} t.

(** [typeof value === 'number'] *)
Definition typeof_is_number (value : JsValue) : bool :=
  match value with VNumber _ => true | _ => false end.

(** [isNaN(value)] on a value that is already a number. *)
Definition isNaN (n : JsNumber) : bool :=
  match n with NaN => true | _ => false end.

(** The integer part of a finite number, rounding toward zero. *)
Definition truncate (m e : Z) : Z :=
  if 0 <=? e then m * 2 ^ e else Z.quot m (2 ^ (- e)).

(** [Math.floor] of a finite number. *)
Definition floor (m e : Z) : Z :=
  if 0 <=? e then m * 2 ^ e else m / 2 ^ (- e).

(** ECMAScript [ToInt32]: NaN and the infinities give 0, a finite number
    is truncated, reduced modulo 2^32 and read as a signed 32-bit
    integer. *)
Definition wrap32 (z : Z) : Z :=
  let r := z mod 2 ^ 32 in
  if 2 ^ 31 <=? r then r - 2 ^ 32 else r.

Definition ToInt32 (n : JsNumber) : Z :=
  match n with
  | NaN | Infinity _ => 0
  | Finite m e => wrap32 (truncate m e)
  end.

Definition of_int (z : Z) : JsNumber := Finite z 0.

(** The unary operator [~] on a number: bitwise complement of its
    [ToInt32]. *)
Definition bitnot (n : JsNumber) : Z := Z.lnot (ToInt32 n).

(** [~~value] *)
Definition double_tilde (n : JsNumber) : Z := bitnot (of_int (bitnot n)).

(** [value < 0] on numbers. *)
Definition is_negative (n : JsNumber) : bool :=
  match n with
  | NaN => false
  | Infinity negative => negative
  | Finite m _ => m <? 0
  end.

(** [ToBoolean]: the falsy values are [undefined], [null], [false],
    [NaN], the zeros and the empty string. *)
Definition ToBoolean (value : JsValue) : bool :=
  match value with
  | VUndefined | VNull => false
  | VBool b => b
  | VNumber NaN => false
  | VNumber (Infinity _) => true
  | VNumber (Finite m _) => negb (m =? 0)
  | VString s => negb (String.eqb s "")
  | VObject _ => true
  end.

Section Coercions.
(** [Number.prototype.toString] on finite numbers and the [toString] /
    [valueOf] protocol of objects belong to the platform and to user code;
    an object's conversion may throw. *)
Variable numberToString : Z -> Z -> string.
Variable objectToString : Ref -> Outcome string.

(** [String(value)] *)
Definition ToString (value : JsValue) : Outcome string :=
  match value with
  | VUndefined => Returned "undefined"%string
  | VNull => Returned "null"%string
  | VBool true => Returned "true"%string
  | VBool false => Returned "false"%string
  | VNumber NaN => Returned "NaN"%string
  | VNumber (Infinity false) => Returned "Infinity"%string
  | VNumber (Infinity true) => Returned "-Infinity"%string
  | VNumber (Finite m e) => Returned (numberToString m e)
  | VString s => Returned s
  | VObject r => objectToString r
  end.

End Coercions.

(** A V8 call-site record, as [Error.prepareStackTrace] receives them.
    The getters the sources read are kept as fields; the remaining ones
    ([getScriptNameOrSourceURL], [getEvalOrigin], [getTypeName],
    [isToplevel], [isEval], [isNative], [isConstructor]) are only copied
    onto timer handles and are carried inside [describe]. *)
Record CallSite := {
  getFileName : option string;
  getMethodName : option string;
  getFunctionName : option string;
  getLineNumber : nat;
  getColumnNumber : nat;
  describe : string
}.

(** [s.split('\n')] and [lines.join('\n')]. *)
Definition newline : ascii := Ascii.ascii_of_nat 10.
Arguments newline : simpl never.

Fixpoint split_lines (s : string) : list string :=
  match s with
  | EmptyString => [EmptyString]
  | String c rest =>
      if Ascii.eqb c newline then EmptyString :: split_lines rest
      else match split_lines rest with
           | line :: lines => String c line :: lines
           | [] => [String c EmptyString]
           end
  end.

Fixpoint join_lines (lines : list string) : string :=
  match lines with
  | [] => EmptyString
  | [line] => line
  | line :: rest => (line ++ String newline (join_lines rest))%string
  end.

(** Lines and the strings they join into. *)
Fixpoint has_newline (s : string) : bool :=
  match s with
  | EmptyString => false
  | String c rest => Ascii.eqb c newline || has_newline rest
  end.

Lemma split_lines_nonempty s : split_lines s <> [].
Proof.
  destruct s as [| c rest]; cbn; [done |].
  destruct (Ascii.eqb c newline); [done |]. by destruct (split_lines rest).
Qed.

Lemma split_lines_no_newline s :
  Forall (fun line => has_newline line = false) (split_lines s).
Proof.
  induction s as [| c rest IH]; cbn.
  - by repeat constructor.
  - destruct (Ascii.eqb c newline) eqn:Hc.
    + by constructor.
    + destruct (split_lines rest) as [| line lines].
      * repeat constructor. cbn. by rewrite Hc.
      * apply Forall_cons in IH as [Hline Hlines].
        constructor; [| done]. cbn. by rewrite Hc.
Qed.

Lemma split_lines_single line :
  has_newline line = false -> split_lines line = [line].
Proof.
  induction line as [| c rest IH]; cbn; [done |].
  intros [Hc Hrest]%orb_false_iff. by rewrite Hc, IH.
Qed.

Lemma split_lines_app line s :
  has_newline line = false ->
  split_lines (line ++ String newline s)%string = line :: split_lines s.
Proof.
  induction line as [| c rest IH]; cbn.
  - intros _. change (EmptyString ++ String newline s)%string
      with (String newline s).
    cbn. by rewrite Ascii.eqb_refl.
  - intros [Hc Hrest]%orb_false_iff.
    change (String c rest ++ String newline s)%string
      with (String c (rest ++ String newline s)%string).
    cbn. by rewrite Hc, IH.
Qed.

Lemma split_join lines :
  lines <> [] -> Forall (fun line => has_newline line = false) lines ->
  split_lines (join_lines lines) = lines.
Proof.
  induction lines as [| line rest IH]; [done |]. intros _ Hall.
  apply Forall_cons in Hall as [Hline Hrest].
  destruct rest as [| line' rest].
  - by apply split_lines_single.
  - cbn [join_lines]. rewrite split_lines_app by done. f_equal. by apply IH.
Qed.


Lemma wrap32_range z : - 2 ^ 31 <= wrap32 z < 2 ^ 31.
Proof.
  unfold wrap32.
  pose proof (Z.mod_pos_bound z (2 ^ 32) ltac:(lia)) as Hb.
  destruct (2 ^ 31 <=? z mod 2 ^ 32) eqn:E; lia.
Qed.

Lemma wrap32_small z : - 2 ^ 31 <= z < 2 ^ 31 -> wrap32 z = z.
Proof.
  intros Hz. unfold wrap32.
  destruct (Z.neg_nonneg_cases z) as [Hneg | Hpos].
  - assert (z mod 2 ^ 32 = z + 2 ^ 32) as ->.
    { symmetry. apply Z.mod_unique with (q := -1); lia. }
    destruct (2 ^ 31 <=? z + 2 ^ 32) eqn:E; lia.
  - rewrite Z.mod_small by lia.
    destruct (2 ^ 31 <=? z) eqn:E; lia.
Qed.

(** [~~] is [ToInt32]: complementing twice undoes itself. *)
Lemma double_tilde_ToInt32 n : double_tilde n = ToInt32 n.
Proof.
  unfold double_tilde, bitnot, of_int. cbn [ToInt32].
  assert (truncate (Z.lnot (ToInt32 n)) 0 = Z.lnot (ToInt32 n)) as ->.
  { unfold truncate. cbn. lia. }
  assert (- 2 ^ 31 <= ToInt32 n < 2 ^ 31) as Hr.
  { destruct n; cbn [ToInt32]; [lia | lia | apply wrap32_range]. }
  rewrite wrap32_small by (unfold Z.lnot; lia).
  unfold Z.lnot; lia.
Qed.

Lemma truncate_nonneg m e : 0 <= m -> truncate m e = floor m e.
Proof.
  intros Hm. unfold truncate, floor.
  destruct (0 <=? e) eqn:E; [done |].
  apply Z.quot_div_nonneg; [done |]. apply Z.pow_pos_nonneg; lia.
Qed.

(** Joining the lines a string splits into gives the string back. *)
Lemma join_split s : join_lines (split_lines s) = s.
Proof.
  induction s as [| c rest IH]; [done |]. cbn [split_lines].
  destruct (Ascii.eqb c newline) eqn:Hc.
  - apply Ascii.eqb_eq in Hc as ->.
    pose proof (split_lines_nonempty rest) as Hne.
    destruct (split_lines rest) as [| line lines]; [done |].
    change (join_lines (EmptyString :: line :: lines))
      with (String newline (join_lines (line :: lines))).
    by rewrite IH.
  - destruct (split_lines rest) as [| line lines] eqn:Hrest.
    + by destruct (split_lines_nonempty rest).
    + destruct lines as [| line' lines].
      * cbn [join_lines] in *. by rewrite IH.
      * change (join_lines (String c line :: line' :: lines))
          with (String c (join_lines (line :: line' :: lines))).
        by rewrite IH.
Qed.

End Js.

(* ================================================================== *)
(** ** options.js: the settings object *)
(* ================================================================== *)

Module Options.
Import Js.

Local Open Scope Z_scope.

(** What [options.formatStack] is called with: the error, the flattened
    chain ([None] is the separator marker [null]) and the separator token
    the default renderer reads from [this.emptyFrame].  Its result is
    whatever the user's function returns. *)
Definition FormatStack : Type :=
  string -> Ref -> list (option CallSite) -> JsValue.

(** The fields behind the accessors of [class Options].  [_formatStack]
    is the third tunable of the class as [index.js] reads it; the setters
    below are those of [options.js]. *)
Record Options := {
  _asyncTraceLimit : Z;
  _emptyFrame : string;
  _formatStack : FormatStack
}.

Definition dashes : string :=
  "-------------------------------------------------".

Section Constructor.
(** [err.toString()] and [sourceMap.wrapCallSite(frame)] rendered as text
    are the platform's and the source-map library's. *)
Variable errorToString : Ref -> string.
Variable wrapCallSite : CallSite -> CallSite.

(** The renderer the constructor installs:
<<
    const lines = [ err.toString() ];
    for (let frame of frames) {
        lines.push(frame ? '    at ' + sourceMap.wrapCallSite(frame) : this.emptyFrame);
    }
    return lines.join('\n');
>> *)
Definition defaultFormatStack : FormatStack :=
  fun emptyFrame err frames =>
    VString (join_lines
      (errorToString err ::
       map (fun frame => match frame with
                         | Some site => ("    at " ++ describe (wrapCallSite site))%string
                         | None => emptyFrame
                         end) frames)).

(** [constructor()] *)
Definition new_Options : Options :=
  {| _asyncTraceLimit := 10;
     _emptyFrame := dashes;
     _formatStack := defaultFormatStack |}.

End Constructor.

(** [get asyncTraceLimit()] *)
Definition asyncTraceLimit (this : Options) : Z := _asyncTraceLimit this.

(** [get emptyFrame()] *)
Definition emptyFrame (this : Options) : string := _emptyFrame this.

(** [get formatStack()] *)
Definition formatStack (this : Options) : FormatStack := _formatStack this.

Definition with_asyncTraceLimit (z : Z) (this : Options) : Options :=
  {| _asyncTraceLimit := z;
     _emptyFrame := _emptyFrame this;
     _formatStack := _formatStack this |}.

Definition with_emptyFrame (s : string) (this : Options) : Options :=
  {| _asyncTraceLimit := _asyncTraceLimit this;
     _emptyFrame := s;
     _formatStack := _formatStack this |}.

Definition asyncTraceLimit_message : string :=
  "asyncTraceLimit must be a positive integer or zero".

Definition emptyFrame_message : string :=
  "emptyFrame must be a non-empty string".

(** [set asyncTraceLimit(value)].
<<
    if (typeof value !== 'number' || isNaN(value) || ~~value < 0) {
        throw new TypeError('asyncTraceLimit must be a positive integer or zero');
    }
    this._asyncTraceLimit = Math.max(~~value, 0);
>>
    The disjunction short-circuits, so [isNaN] and [~~] only ever see a
    number.  The result is the outcome of the assignment together with
    the object as the assignment leaves it. *)
Definition set_asyncTraceLimit (value : JsValue) (this : Options)
  : Outcome unit * Options :=
  match value with
  | VNumber n =>
      if isNaN n || (double_tilde n <? 0)
      then (Threw (TypeError asyncTraceLimit_message), this)
      else (Returned tt, with_asyncTraceLimit (Z.max (double_tilde n) 0) this)
  | _ => (Threw (TypeError asyncTraceLimit_message), this)
  end.

Section EmptyFrame.
Variable numberToString : Z -> Z -> string.
Variable objectToString : Ref -> Outcome string.

(** [set emptyFrame(value)].
<<
    if (!value) {
        throw new TypeError('emptyFrame must be a non-empty string');
    }
    this._emptyFrame = String(value);
>>
    [String(value)] may itself throw on an object; the assignment is then
    never reached. *)
Definition set_emptyFrame (value : JsValue) (this : Options)
  : Outcome unit * Options :=
  if negb (ToBoolean value)
  then (Threw (TypeError emptyFrame_message), this)
  else match ToString numberToString objectToString value with
       | Returned s => (Returned tt, with_emptyFrame s this)
       | Threw t => (Threw t, this)
       end.

End EmptyFrame.

(** *** The limit setter *)

Lemma set_asyncTraceLimit_rejects value this :
  typeof_is_number value = false
  \/ value = VNumber NaN
  \/ (exists n, value = VNumber n /\ ToInt32 n < 0) ->
  set_asyncTraceLimit value this
  = (Threw (TypeError asyncTraceLimit_message), this).
Proof.
  intros [Hty | [-> | (n & -> & Hneg)]].
  - destruct value; try done.
  - done.
  - cbn. rewrite double_tilde_ToInt32.
    destruct (isNaN n); [done |].
    cbn. destruct (ToInt32 n <? 0) eqn:E; [done | lia].
Qed.

Lemma set_asyncTraceLimit_accepts n this :
  isNaN n = false -> 0 <= ToInt32 n ->
  set_asyncTraceLimit (VNumber n) this
  = (Returned tt, with_asyncTraceLimit (ToInt32 n) this).
Proof.
  intros Hnan Hpos. cbn. rewrite double_tilde_ToInt32, Hnan. cbn.
  destruct (ToInt32 n <? 0) eqn:E; [lia |].
  by rewrite Z.max_l.
Qed.

Lemma ToInt32_floor m e :
  0 <= m -> floor m e < 2 ^ 31 -> ToInt32 (Finite m e) = floor m e.
Proof.
  intros Hm Hlt. cbn. rewrite truncate_nonneg by done.
  apply wrap32_small. split; [| done].
  unfold floor. destruct (0 <=? e) eqn:E.
  - assert (0 <= m * 2 ^ e) by (apply Z.mul_nonneg_nonneg; lia). lia.
  - assert (0 < 2 ^ (- e)) by (apply Z.pow_pos_nonneg; lia).
    assert (0 <= m / 2 ^ (- e)) by (apply Z.div_pos; lia). lia.
Qed.

(** A settings object to evaluate the setters on: the constructor's,
    with the platform's renderings left blank. *)
Definition sample_options : Options :=
  new_Options (fun _ => EmptyString) (fun site => site).

(** C6 (amended).  The limit setter raises the type error and leaves the
    object as it was when the value is not a number, is NaN, or has a
    negative 32-bit truncation [~~value]; every other number is accepted
    and the stored limit becomes [~~value], which lies in [0, 2^31) and is
    the floor of the value whenever [0 <= value < 2^31]. *)
Theorem asyncTraceLimit_setter_validates (value : JsValue) (this : Options) :
  (typeof_is_number value = false
   \/ value = VNumber NaN
   \/ (exists n, value = VNumber n /\ ToInt32 n < 0) ->
   set_asyncTraceLimit value this
   = (Threw (TypeError asyncTraceLimit_message), this))
  /\ (forall n, value = VNumber n -> isNaN n = false -> 0 <= ToInt32 n ->
      set_asyncTraceLimit value this
      = (Returned tt, with_asyncTraceLimit (ToInt32 n) this)
      /\ 0 <= ToInt32 n < 2 ^ 31)
  /\ (forall m e, value = VNumber (Finite m e) ->
      0 <= m -> floor m e < 2 ^ 31 ->
      set_asyncTraceLimit value this
      = (Returned tt, with_asyncTraceLimit (floor m e) this)).
Proof.
  split; [apply set_asyncTraceLimit_rejects |].
  split.
  - intros n -> Hnan Hpos. split.
    + by apply set_asyncTraceLimit_accepts.
    + split; [done |]. destruct n; cbn [ToInt32]; try lia.
      apply wrap32_range.
  - intros m e -> Hm Hlt.
    rewrite <- (ToInt32_floor m e) by done.
    apply set_asyncTraceLimit_accepts; [done |].
    rewrite ToInt32_floor by done.
    unfold floor. destruct (0 <=? e) eqn:E.
    + apply Z.mul_nonneg_nonneg; lia.
    + apply Z.div_pos; [done |]. apply Z.pow_pos_nonneg; lia.
Qed.

(** The setter at the values of the test suite and at 5.5. *)
Lemma asyncTraceLimit_setter_validates_witness :
  set_asyncTraceLimit (VString "foo") sample_options
  = (Threw (TypeError asyncTraceLimit_message), sample_options)
  /\ set_asyncTraceLimit (VNumber (of_int (-1))) sample_options
     = (Threw (TypeError asyncTraceLimit_message), sample_options)
  /\ set_asyncTraceLimit (VNumber (Finite 11 (-1))) sample_options
     = (Returned tt, with_asyncTraceLimit 5 sample_options).
Proof.
  split; [| split].
  - apply (proj1 (asyncTraceLimit_setter_validates (VString "foo") _)).
    left. reflexivity.
  - apply (proj1 (asyncTraceLimit_setter_validates (VNumber (of_int (-1))) _)).
    right. right. exists (of_int (-1)). split; reflexivity.
  - apply (proj2 (proj2 (asyncTraceLimit_setter_validates
                           (VNumber (Finite 11 (-1))) sample_options))
             11 (-1)); [reflexivity | lia | reflexivity].
Defined.

(** C6, as stated, fails at [-0.5]: the value is negative, yet the setter
    raises nothing and stores 0. *)
Lemma asyncTraceLimit_setter_accepts_negative_half :
  let value := Finite (-1) (-1) in
  ~ (is_negative value = true ->
     exists message,
       set_asyncTraceLimit (VNumber value) sample_options
       = (Threw (TypeError message), sample_options)).
Proof.
  cbv zeta. intros Hclaim.
  destruct (Hclaim eq_refl) as [message Hthrown].
  vm_compute in Hthrown. discriminate Hthrown.
Qed.

(** What the setter does at [-0.5], and at 2^31, a non-negative number it
    rejects. *)
Example asyncTraceLimit_setter_edge_values :
  set_asyncTraceLimit (VNumber (Finite (-1) (-1))) sample_options
  = (Returned tt, with_asyncTraceLimit 0 sample_options)
  /\ set_asyncTraceLimit (VNumber (Finite 1 31)) sample_options
     = (Threw (TypeError asyncTraceLimit_message), sample_options).
Proof. split; reflexivity. Qed.

(** *** The separator setter *)

Lemma ToBoolean_false_iff value :
  ToBoolean value = false <->
  value = VUndefined \/ value = VNull \/ value = VBool false
  \/ value = VNumber NaN \/ (exists e, value = VNumber (Finite 0 e))
  \/ value = VString "".
Proof.
  split.
  - destruct value as [| | [] | [| |m e] | s |]; cbn; try done; eauto 10.
    + intros Hm. apply negb_false_iff, Z.eqb_eq in Hm. subst. eauto 10.
    + intros Hs. apply negb_false_iff, String.eqb_eq in Hs. subst. eauto 10.
  - intros [-> | [-> | [-> | [-> | [[e ->] | ->]]]]]; reflexivity.
Qed.

(** C7 (amended).  The separator setter raises the type error and leaves
    the object as it was for every falsy value: [undefined], [null],
    the empty string, and also [false], NaN and zero; for every truthy
    value whose string coercion completes, the stored token becomes that
    string. *)
Theorem emptyFrame_setter_validates
  (numberToString : Z -> Z -> string) (objectToString : Ref -> Outcome string)
  (value : JsValue) (this : Options) :
  (ToBoolean value = false ->
   set_emptyFrame numberToString objectToString value this
   = (Threw (TypeError emptyFrame_message), this))
  /\ (forall s, ToBoolean value = true ->
      ToString numberToString objectToString value = Returned s ->
      set_emptyFrame numberToString objectToString value this
      = (Returned tt, with_emptyFrame s this))
  /\ (ToBoolean value = false <->
      value = VUndefined \/ value = VNull \/ value = VBool false
      \/ value = VNumber NaN \/ (exists e, value = VNumber (Finite 0 e))
      \/ value = VString "").
Proof.
  split; [| split].
  - intros Hfalsy. unfold set_emptyFrame. by rewrite Hfalsy.
  - intros s Htruthy Hs. unfold set_emptyFrame. by rewrite Htruthy, Hs.
  - apply ToBoolean_false_iff.
Qed.

(** The setter at the values of the test suite. *)
Lemma emptyFrame_setter_validates_witness :
  let numberToString := fun _ _ : Z => EmptyString in
  let objectToString := fun _ : Ref => Returned EmptyString in
  set_emptyFrame numberToString objectToString VNull sample_options
  = (Threw (TypeError emptyFrame_message), sample_options)
  /\ set_emptyFrame numberToString objectToString (VString "***") sample_options
     = (Returned tt, with_emptyFrame "***" sample_options).
Proof.
  cbv zeta. split.
  - apply (proj1 (emptyFrame_setter_validates _ _ VNull _)). reflexivity.
  - apply (proj1 (proj2 (emptyFrame_setter_validates _ _ (VString "***") _)));
      reflexivity.
Defined.

(** C7, as stated, fails at [false]: it is none of [null], [undefined]
    and the empty string, yet the setter raises the type error and the
    token does not become the string coercion of [false]. *)
Lemma emptyFrame_setter_rejects_false :
  let numberToString := fun _ _ : Z => EmptyString in
  let objectToString := fun _ : Ref => Returned EmptyString in
  let value := VBool false in
  ~ (value <> VNull -> value <> VUndefined -> value <> VString "" ->
     forall s, ToString numberToString objectToString value = Returned s ->
     _emptyFrame
       (snd (set_emptyFrame numberToString objectToString value sample_options))
     = s).
Proof.
  cbv zeta. intros Hclaim.
  specialize (Hclaim ltac:(discriminate) ltac:(discriminate)
                     ltac:(discriminate) "false"%string eq_refl).
  vm_compute in Hclaim. discriminate Hclaim.
Qed.

(** *** The renderer setter, and programs that assign *)

Definition formatStack_message : string :=
  "formatStack must be a function".

Definition with_formatStack (f : FormatStack) (this : Options) : Options :=
  {| _asyncTraceLimit := _asyncTraceLimit this;
     _emptyFrame := _emptyFrame this;
     _formatStack := f |}.

(** [set formatStack(value)].
<<
    if (typeof value !== 'function') {
        throw new TypeError('formatStack must be a function');
    }
    this._formatStack = value;
>>
    The value is a function, given by what it computes, or a value of one
    of the other types. *)
Definition set_formatStack (value : FormatStack + JsValue) (this : Options)
  : Outcome unit * Options :=
  match value with
  | inl f => (Returned tt, with_formatStack f this)
  | inr _ => (Threw (TypeError formatStack_message), this)
  end.

(** One assignment to a property of the settings object. *)
Inductive Assignment :=
| AssignAsyncTraceLimit (value : JsValue)
| AssignEmptyFrame (value : JsValue)
| AssignFormatStack (value : FormatStack + JsValue).

Section Assignments.
Variable numberToString : Z -> Z -> string.
Variable objectToString : Ref -> Outcome string.

Definition assign (a : Assignment) (this : Options) : Outcome unit * Options :=
  match a with
  | AssignAsyncTraceLimit value => set_asyncTraceLimit value this
  | AssignEmptyFrame value =>
      set_emptyFrame numberToString objectToString value this
  | AssignFormatStack value => set_formatStack value this
  end.

(** A program that makes the assignments one after the other, each inside
    a [try] whose handler does nothing. *)
Definition assignAll (assignments : list Assignment) (this : Options) : Options :=
  foldl (fun this a => snd (assign a this)) this assignments.

(** The stored limit is a non-negative 32-bit integer. *)
Definition limit_is_int32 (this : Options) : Prop :=
  0 <= asyncTraceLimit this < 2 ^ 31.

Lemma ToInt32_range n : - 2 ^ 31 <= ToInt32 n < 2 ^ 31.
Proof. destruct n; cbn [ToInt32]; [lia | lia | apply wrap32_range]. Qed.

Lemma set_asyncTraceLimit_returned value this this' :
  set_asyncTraceLimit value this = (Returned tt, this') ->
  exists n, value = VNumber n /\ isNaN n = false /\ 0 <= ToInt32 n
            /\ this' = with_asyncTraceLimit (ToInt32 n) this.
Proof.
  destruct value as [| | | n | |]; cbn; try discriminate.
  rewrite double_tilde_ToInt32.
  destruct (isNaN n) eqn:Hnan; cbn; [discriminate |].
  destruct (ToInt32 n <? 0) eqn:E; [discriminate |].
  intros [= <-]. exists n. rewrite Z.max_l by lia.
  repeat split; [done | lia].
Qed.

Lemma assign_threw a this t this' :
  assign a this = (Threw t, this') -> this' = this.
Proof.
  destruct a as [value | value | [f | value]]; cbn.
  - destruct value as [| | | n | |]; cbn; try (by intros [= _ <-]).
    destruct (isNaN n || (double_tilde n <? 0)); by intros [= <-].
  - unfold set_emptyFrame. destruct (negb (ToBoolean value)); [by intros [= _ <-] |].
    destruct (ToString numberToString objectToString value);
      [discriminate | by intros [= _ <-]].
  - discriminate.
  - by intros [= _ <-].
Qed.

Lemma assign_limit_is_int32 a this :
  limit_is_int32 this -> limit_is_int32 (snd (assign a this)).
Proof.
  intros Hthis. destruct (assign a this) as [[[] | t] this'] eqn:Ha; cbn.
  - destruct a as [value | value | [f | value]]; cbn in Ha.
    + apply set_asyncTraceLimit_returned in Ha as (n & _ & _ & Hpos & ->).
      unfold limit_is_int32. cbn. pose proof (ToInt32_range n). lia.
    + unfold set_emptyFrame in Ha.
      destruct (negb (ToBoolean value)); [discriminate |].
      destruct (ToString numberToString objectToString value);
        [| discriminate].
      by injection Ha as <-.
    + by injection Ha as <-.
    + discriminate.
  - by rewrite (assign_threw _ _ _ _ Ha).
Qed.

End Assignments.

(** X1.  Whatever a program assigns to the three properties of a settings
    object made by the constructor, in whatever order and with whatever
    values, reading [asyncTraceLimit] gives an integer in [0, 2^31); and
    an assignment that throws leaves the object exactly as it was. *)
Theorem asyncTraceLimit_stays_int32
  (numberToString : Z -> Z -> string) (objectToString : Ref -> Outcome string)
  (errorToString : Ref -> string) (wrapCallSite : CallSite -> CallSite)
  (assignments : list Assignment) :
  limit_is_int32
    (assignAll numberToString objectToString assignments
       (new_Options errorToString wrapCallSite))
  /\ (forall a this t this',
        assign numberToString objectToString a this = (Threw t, this') ->
        this' = this).
Proof.
  split; [| apply assign_threw].
  assert (limit_is_int32 (new_Options errorToString wrapCallSite)) as Hnew.
  { unfold limit_is_int32. cbn. lia. }
  revert Hnew. generalize (new_Options errorToString wrapCallSite).
  induction assignments as [| a assignments IH]; intros this Hthis; [done |].
  cbn [assignAll foldl]. apply IH. by apply assign_limit_is_int32.
Qed.

(** X2.  Reading the limit back and assigning it again is the identity:
    once an assignment to [asyncTraceLimit] has returned, the stored limit
    is an integer in [0, 2^31), assigning that very number again returns
    and changes nothing, and the assignment has touched neither the
    separator token nor the renderer. *)
Theorem asyncTraceLimit_setter_round_trip
  (value : JsValue) (this this' : Options) :
  set_asyncTraceLimit value this = (Returned tt, this') ->
  0 <= asyncTraceLimit this' < 2 ^ 31
  /\ set_asyncTraceLimit (VNumber (of_int (asyncTraceLimit this'))) this'
     = (Returned tt, this')
  /\ emptyFrame this' = emptyFrame this
  /\ formatStack this' = formatStack this.
Proof.
  intros (n & -> & Hnan & Hpos & ->)%set_asyncTraceLimit_returned.
  pose proof (ToInt32_range n) as Hrange.
  split; [cbn; lia |]. split; [| done].
  rewrite set_asyncTraceLimit_accepts.
  - f_equal. cbn [asyncTraceLimit with_asyncTraceLimit _asyncTraceLimit].
    unfold of_int. cbn [ToInt32]. unfold truncate. cbn [Z.leb Z.compare].
    rewrite Z.pow_0_r, Z.mul_1_r, wrap32_small by lia. done.
  - done.
  - cbn [asyncTraceLimit with_asyncTraceLimit _asyncTraceLimit].
    unfold of_int. cbn [ToInt32]. unfold truncate. cbn [Z.leb Z.compare].
    rewrite Z.pow_0_r, Z.mul_1_r, wrap32_small by lia. done.
Qed.

(** The round trip at 3.5, which is stored as 3. *)
Lemma asyncTraceLimit_setter_round_trip_witness :
  let stored := with_asyncTraceLimit 3 sample_options in
  0 <= asyncTraceLimit stored < 2 ^ 31
  /\ set_asyncTraceLimit (VNumber (of_int (asyncTraceLimit stored))) stored
     = (Returned tt, stored)
  /\ emptyFrame stored = emptyFrame sample_options
  /\ formatStack stored = formatStack sample_options.
Proof.
  cbv zeta.
  apply (asyncTraceLimit_setter_round_trip
           (VNumber (Finite 7 (-1))) sample_options).
  reflexivity.
Defined.

End Options.

(* ================================================================== *)
(** ** double-stack.js: capture, linkage, flattening, rendering *)
(* ================================================================== *)

Module DoubleStack.
Import Js.

(** *** The store *)

(** The [stack] property of an Error object: not read yet (V8 formats it
    on first access), the text [Error.prepareStackTrace] returned, or the
    raw call sites [wrap] obtains by swapping the hook for the identity. *)
Inductive StackProperty :=
| StackPending
| StackText (text : string)
| StackFrames.

(** An Error object with the properties the module attaches to it.
    [__parent__] is [None] for [null], for [undefined] and for a deleted
    property alike: the sources only test it for truthiness.  For a
    marker made by [wrap], [__stack__] is the property of that name; for
    any other error it holds the call sites V8 captured at construction
    and hands to the hook when [stack] is first read (such an error has no
    [__id__] and no [__trace_count__], which are then never read).
    [__cached_trace__] is the address of the cache array.  The objects
    are extensible, so that every property the module defines on them is
    defined.  Call sites are values: a method name the loop of
    [processStackTrace] defines on a call site is shown in the cache,
    where the module reads the site again, and [__stack__] keeps the
    sites as they were captured. *)
Record ErrorObject := {
  __id__ : nat;
  __parent__ : option Ref;
  __stack__ : list CallSite;
  __trace_count__ : nat;
  __cached_trace__ : option Ref;
  stack : StackProperty
}.

(** The module's variables ([ERROR_ID], [currentTraceError], [options])
    and the objects they reach: Error objects and cache arrays, each by
    address.  An array element is a call site or the separator marker
    [null], here [None]. *)
Record State := {
  errors : list ErrorObject;
  arrays : list (list (option CallSite));
  ERROR_ID : nat;
  currentTraceError : option Ref;
  options : Options.Options
}.

Definition with_errors (f : list ErrorObject -> list ErrorObject) (st : State)
  : State :=
  {| errors := f (errors st); arrays := arrays st; ERROR_ID := ERROR_ID st;
     currentTraceError := currentTraceError st; options := options st |}.

Definition with_arrays
  (f : list (list (option CallSite)) -> list (list (option CallSite)))
  (st : State) : State :=
  {| errors := errors st; arrays := f (arrays st); ERROR_ID := ERROR_ID st;
     currentTraceError := currentTraceError st; options := options st |}.

Definition with_ERROR_ID (n : nat) (st : State) : State :=
  {| errors := errors st; arrays := arrays st; ERROR_ID := n;
     currentTraceError := currentTraceError st; options := options st |}.

Definition with_currentTraceError (current : option Ref) (st : State) : State :=
  {| errors := errors st; arrays := arrays st; ERROR_ID := ERROR_ID st;
     currentTraceError := current; options := options st |}.

Definition with_options (o : Options.Options) (st : State) : State :=
  {| errors := errors st; arrays := arrays st; ERROR_ID := ERROR_ID st;
     currentTraceError := currentTraceError st; options := o |}.

Definition set_parent (parent : option Ref) (e : ErrorObject) : ErrorObject :=
  {| __id__ := __id__ e; __parent__ := parent; __stack__ := __stack__ e;
     __trace_count__ := __trace_count__ e;
     __cached_trace__ := __cached_trace__ e; stack := stack e |}.

Definition set_cached_trace (cache : Ref) (e : ErrorObject) : ErrorObject :=
  {| __id__ := __id__ e; __parent__ := __parent__ e; __stack__ := __stack__ e;
     __trace_count__ := __trace_count__ e;
     __cached_trace__ := Some cache; stack := stack e |}.

Definition set_stack (value : StackProperty) (e : ErrorObject) : ErrorObject :=
  {| __id__ := __id__ e; __parent__ := __parent__ e; __stack__ := __stack__ e;
     __trace_count__ := __trace_count__ e;
     __cached_trace__ := __cached_trace__ e; stack := value |}.

(** The state when the module has just been loaded. *)
Definition initial (o : Options.Options) : State :=
  {| errors := []; arrays := []; ERROR_ID := 1;
     currentTraceError := None; options := o |}.

(** *** Computations

    A computation runs on the store and returns or throws; [None] is a
    run that JavaScript does not have: an address with no object behind
    it, or the recursion bound of [processStackTrace_fuel] exhausted. *)
Definition M (A : Type) : Type := State -> option (Outcome A * State).

Definition ret {A} (a : A) : M A := fun st => Some (Returned a, st).

Definition throw {A} (t : Thrown) : M A := fun st => Some (Threw t, st).

Definition stuck {A} : M A := fun _ => None.

Definition bind {A B} (m : M A) (k : A -> M B) : M B := fun st =>
  match m st with
  | Some (Returned a, st') => k a st'
  | Some (Threw t, st') => Some (Threw t, st')
  | None => None
  end.

Notation "x <- m ;; k" := (bind m (fun x => k))
  (at level 100, m at next level, right associativity).
Notation "m ;; k" := (bind m (fun _ => k))
  (at level 100, right associativity).

Definition gets {A} (f : State -> A) : M A := fun st => Some (Returned (f st), st).

Definition modify (f : State -> State) : M unit := fun st => Some (Returned tt, f st).

(** Reading the properties of the object at an address. *)
Definition getError (error : Ref) : M ErrorObject := fun st =>
  match errors st !! error with
  | Some e => Some (Returned e, st)
  | None => None
  end.

(** [Object.defineProperty(error, ..)] and [delete error.prop]. *)
Definition updateError (error : Ref) (f : ErrorObject -> ErrorObject) : M unit :=
  _ <- getError error ;; modify (with_errors (alter f error)).

(** [new Error()]: a fresh object at the next address. *)
Definition allocError (e : ErrorObject) : M Ref := fun st =>
  Some (Returned (length (errors st)), with_errors (fun es => es ++ [e]) st).

(** [cache = []] *)
Definition allocArray : M Ref := fun st =>
  Some (Returned (length (arrays st)), with_arrays (fun arrs => arrs ++ [[]]) st).

Definition readArray (array : Ref) : M (list (option CallSite)) := fun st =>
  match arrays st !! array with
  | Some content => Some (Returned content, st)
  | None => None
  end.

Definition writeArray (array : Ref) (content : list (option CallSite)) : M unit :=
  _ <- readArray array ;; modify (with_arrays (<[array := content]>)).

(** [cache.push.apply(cache, items)] *)
Definition pushArray (array : Ref) (items : list (option CallSite)) : M unit :=
  content <- readArray array ;; writeArray array (content ++ items).

Definition try_catch {A} (body : M A) (handler : Thrown -> M A) : M A := fun st =>
  match body st with
  | Some (Threw t, st') => handler t st'
  | result => result
  end.

Definition finally {A} (body : M A) (cleanup : M unit) : M A := fun st =>
  match body st with
  | Some (outcome, st') =>
      match cleanup st' with
      | Some (Returned _, st'') => Some (outcome, st'')
      | Some (Threw t, st'') => Some (Threw t, st'')
      | None => None
      end
  | None => None
  end.

(** The identity of a function object: a function of the program, or
    the function [wrap] made for a marker at a callback position. *)
Inductive FunctionId :=
| UserFunction (n : nat)
| ShimFunction (traceError : Ref) (position : nat).

#[global] Instance FunctionId_eq_dec : EqDecision FunctionId.
Proof. solve_decision. Defined.

(** *** The engine *)

Section Engine.

(** The path of the module's own file, and the hook that was installed
    before the module replaced it (source-map-support's, unless the
    program had set one). *)
Variable __filename : string.
Variable origPrepareStackTrace : Ref -> list CallSite -> string.

(** [site.getFileName() === __filename] *)
Definition internal (site : CallSite) : bool :=
  match getFileName site with
  | Some file => String.eqb file __filename
  | None => false
  end.

(** [!site.getMethodName()] *)
Definition lacksMethodName (site : CallSite) : bool :=
  match getMethodName site with
  | Some name => String.eqb name EmptyString
  | None => true
  end.

(** [Object.defineProperty(site, 'getMethodName', ..)] *)
Definition defineMethodName (methodName : option string) (site : CallSite)
  : CallSite :=
  {| getFileName := getFileName site; getMethodName := methodName;
     getFunctionName := getFunctionName site;
     getLineNumber := getLineNumber site;
     getColumnNumber := getColumnNumber site; describe := describe site |}.

(** The loop of [processStackTrace]:
<<
    for (let i = 0, l = stack.length; i < l; i++) {
        if (stack[i].getFileName() !== __filename) {
            cache.push(stack[i]);
        } else if (i > 0 && !stack[i-1].getMethodName()) {
            const methodName = stack[i].getMethodName();
            Object.defineProperty(stack[i-1], 'getMethodName', ..);
        }
    }
>>
    The cache holds the call-site objects themselves, so the method name
    the step [i] defines on [stack[i-1]] shows in the cache when
    [stack[i-1]] was pushed: a kept frame followed by one of the module's
    own takes that frame's method name if it has none.  (The array
    [stack] holds the same objects; the names are shown in the cache
    only.) *)
Fixpoint ownFrames (stack : list CallSite) : list CallSite :=
  match stack with
  | [] => []
  | site :: rest =>
      if internal site then ownFrames rest
      else match rest with
           | next :: _ =>
               if internal next && lacksMethodName site
               then defineMethodName (getMethodName next) site
               else site
           | [] => site
           end :: ownFrames rest
  end.

(** [processStackTrace(error, stack, recursing)], by recursion on a bound
    for the number of nested calls. *)
Fixpoint processStackTrace_fuel (fuel : nat) (error : Ref)
  (stack : list CallSite) (recursing : bool) : M Ref :=
  match fuel with
  | 0 => stuck
  | S fuel' =>
      e <- getError error ;;
      match __cached_trace__ e with
      | Some cache => ret cache
      | None =>
          cache <- allocArray ;;
          updateError error (set_cached_trace cache) ;;
          pushArray cache (Some <$> ownFrames stack) ;;
          (if bool_decide (__parent__ e = None) && negb recursing
           then current <- gets currentTraceError ;;
                updateError error (set_parent current)
           else ret tt) ;;
          e' <- getError error ;;
          match __parent__ e' with
          | Some p =>
              pe <- getError p ;;
              parent <- processStackTrace_fuel fuel' p (__stack__ pe) true ;;
              content <- readArray parent ;;
              if bool_decide (content = []) then ret tt
              else pushArray cache (None :: content)
          | None => ret tt
          end ;;
          ret cache
      end
  end.

(** Every nested call finds a cache or leaves one on an object that had
    none, so one call per Error object, and one more, is enough. *)
Definition processStackTrace (error : Ref) (stack : list CallSite)
  (recursing : bool) : M Ref := fun st =>
  processStackTrace_fuel (S (length (errors st))) error stack recursing st.

(** The first loop of [prepareStackTrace], from [i] down to 0:
<<
    if (combined[i] === null) {
        separators.unshift(i);
        combined.splice(i, 1);
    }
>> *)
Fixpoint removeSeparators (i : nat) (combined : list (option CallSite))
  (separators : list nat) : list nat * list (option CallSite) :=
  match i with
  | 0 => (separators, combined)
  | S i' =>
      match combined !! i' with
      | Some None => removeSeparators i' (delete i' combined) (i' :: separators)
      | _ => removeSeparators i' combined separators
      end
  end.

(** [lines.splice(i, 0, line)] *)
Definition splice {A} (i : nat) (line : A) (lines : list A) : list A :=
  take i lines ++ line :: drop i lines.

(** [prepareStackTrace(error, stack)]: [combined] is the cache array
    itself, so the first loop edits the cache in place. *)
Definition prepareStackTrace (error : Ref) (stack : list CallSite) : M string :=
  combined <- processStackTrace error stack false ;;
  content <- readArray combined ;;
  let '(separators, frames) := removeSeparators (length content) content [] in
  writeArray combined frames ;;
  let rendered := origPrepareStackTrace error (omap id frames) in
  let lines := split_lines rendered in
  emptyFrame <- gets (fun st => Options.emptyFrame (options st)) ;;
  ret (join_lines
         (foldl (fun lines i => splice (i + 1) emptyFrame lines) lines separators)).

(** Reading [error.stack]: V8 calls the installed hook on the first read
    and keeps what it returned. *)
Definition readStack (error : Ref) : M StackProperty :=
  e <- getError error ;;
  match stack e with
  | StackPending =>
      text <- prepareStackTrace error (__stack__ e) ;;
      updateError error (set_stack (StackText text)) ;;
      ret (StackText text)
  | value => ret value
  end.

(** [e.stack] on whatever was thrown: reading a property of [null] or
    [undefined] throws, with V8's message for each; other primitives and
    plain objects have no such property, and the rendering of an error
    object the platform made itself is not followed. *)
Definition forceStack (e : Thrown) : M unit :=
  match e with
  | ThrownError error => readStack error ;; ret tt
  | ThrownValue VNull =>
      throw (TypeError "Cannot read property 'stack' of null")
  | ThrownValue VUndefined =>
      throw (TypeError "Cannot read property 'stack' of undefined")
  | ThrownValue _ | TypeError _ => ret tt
  end.

(** [new Error()] in the program: [frames] is what V8 captures there. *)
Definition newError (frames : list CallSite) : M Ref :=
  allocError {| __id__ := 0; __parent__ := None; __stack__ := frames;
                __trace_count__ := 0; __cached_trace__ := None;
                stack := StackPending |}.

(** The walk that limits the chain:
<<
    while (previous && count > 1) {
        previous = previous.__parent__;
        --count;
    }
>> *)
Fixpoint limitWalk (count : nat) (previous : option Ref) : M (option Ref) :=
  match previous, count with
  | Some p, S (S _ as count') =>
      e <- getError p ;; limitWalk count' (__parent__ e)
  | _, _ => ret previous
  end.

(** The head of the function [wrap] returns: the marker, its properties
    and the limit.  [stack] is what [traceError.stack] gives under the
    identity hook.
<<
    if (options.asyncTraceLimit > 0) {
        let count = options.asyncTraceLimit - 1;
        let previous = traceError;
        ..
        if (previous) {
            delete previous.__parent__;
        }
    }
>> *)
Definition capture (stack : list CallSite) : M Ref :=
  id <- gets ERROR_ID ;;
  modify (with_ERROR_ID (id + 1)) ;;
  current <- gets currentTraceError ;;
  count <- match current with
           | Some c => ce <- getError c ;; ret (__trace_count__ ce + 1)
           | None => ret 1
           end ;;
  traceError <- allocError {| __id__ := id; __parent__ := current;
                              __stack__ := stack; __trace_count__ := count;
                              __cached_trace__ := None;
                              stack := StackFrames |} ;;
  limit <- gets (fun st => Options.asyncTraceLimit (options st)) ;;
  (if (0 <? limit)%Z
   then previous <- limitWalk (Z.to_nat (limit - 1)) (Some traceError) ;;
        match previous with
        | Some p => updateError p (set_parent None)
        | None => ret tt
        end
   else ret tt) ;;
  ret traceError.

(** The function [wrap] puts in the place of a callback:
<<
    currentTraceError = traceError;
    try {
        return callback.apply(this, arguments);
    } catch (e) {
        e.stack; // force Error.prepareStackTrace() call
        throw e;
    } finally {
        currentTraceError = null;
    }
>> *)
Definition shim {A} (traceError : Ref) (callback : M A) : M A :=
  modify (with_currentTraceError (Some traceError)) ;;
  finally
    (try_catch callback (fun e => forceStack e ;; throw e))
    (modify (with_currentTraceError None)).

(** *** Function objects and [wrap] *)

Section Wrap.

(** The [this] binding, the arguments and the result of the callbacks
    handed to a wrapped entry point. *)
Context {This Arg Res : Type}.

(** A function object: its identity (what [===] compares), the
    properties the module reads and defines, and its code. *)
#[warnings="-register-all"]
Inductive Function := mkFunction {
  identity : FunctionId;
  name : string;
  __original_callback__ : option Function;
  call : This -> list Arg -> M Res
}.

(** [f === g] on function objects. *)
Definition identical (f g : Function) : bool :=
  bool_decide (identity f = identity g).

(** An argument of a wrapped entry point: [typeof argument === 'function']
    or not. *)
Inductive Argument :=
| ArgValue (v : JsValue)
| ArgFunction (f : Function).

(** The function put at [args[pos]], with the two properties defined on
    it: it is a new function object, the only one made for this marker
    and position. *)
Definition makeShim (traceError : Ref) (pos : nat) (callback : Function)
  : Function :=
  {| identity := ShimFunction traceError pos;
     name := name callback;
     __original_callback__ := Some callback;
     call := fun this arguments => shim traceError (call callback this arguments) |}.

(** The loop over the callback positions:
<<
    const args = Array.prototype.slice.call(arguments);
    for (let pos of callbackPositions) {
        const callback = arguments[pos];
        if (typeof callback === 'function') {
            args[pos] = function () { .. };
            ..
        }
    }
>> *)
Definition wrapCallback (traceError : Ref) (arguments args : list Argument)
  (pos : nat) : list Argument :=
  match arguments !! pos with
  | Some (ArgFunction callback) =>
      <[pos := ArgFunction (makeShim traceError pos callback)]> args
  | _ => args
  end.

Definition wrapCallbacks (traceError : Ref) (callbackPositions : list nat)
  (arguments : list Argument) : list Argument :=
  foldl (wrapCallback traceError arguments) arguments callbackPositions.

(** The frame records attached to a handle. *)
Record EmbeddedFrame := {
  fileName : option string;
  functionName : option string;
  methodName : option string;
  lineNumber : nat;
  columnNumber : nat;
  toString : string
}.

Section Entry.

(** The entry point being wrapped, called as a function or with [new];
    what it returns; [sourceMap.wrapCallSite]; and defining [__stack__]
    on a handle. *)
Context {Receiver Handle : Type}.
Variable originalApply : Receiver -> list Argument -> M Handle.
Variable originalConstruct : list Argument -> M Handle.
Variable wrapCallSite : CallSite -> CallSite.
Variable handleTruthy : Handle -> bool.
Variable defineStack : list EmbeddedFrame -> Handle -> Handle.

(** [callbackPositions] is a number or an array of numbers. *)
Definition positionList (callbackPositions : nat + list nat) : list nat :=
  match callbackPositions with
  | inl pos => [pos]
  | inr positions => positions
  end.

(** The loop that builds [embeddedStack]. *)
Definition embeddedStack (stack : list CallSite) : list EmbeddedFrame :=
  map (fun frame =>
         let frame := wrapCallSite frame in
         {| fileName := getFileName frame;
            functionName := getFunctionName frame;
            methodName := getMethodName frame;
            lineNumber := getLineNumber frame;
            columnNumber := getColumnNumber frame;
            toString := describe frame |})
      (filter (fun frame => internal frame = false) stack).

(** The function [wrap(originalFunction, callbackPositions, embedStack,
    isConstructor)] returns, called on [this] and [arguments] at a place
    where V8 captures [stack]. *)
Definition wrap (callbackPositions : nat + list nat)
  (embedStack isConstructor : bool)
  (stack : list CallSite) (this : Receiver) (arguments : list Argument)
  : M Handle :=
  traceError <- capture stack ;;
  let args :=
    wrapCallbacks traceError (positionList callbackPositions) arguments in
  handle <- (if isConstructor then originalConstruct args
             else originalApply this args) ;;
  ret (if embedStack && handleTruthy handle
       then defineStack (embeddedStack stack) handle
       else handle).

End Entry.

(** *** The event-emitter patches *)

(** Node's emitter, as far as the patches use it: the listener arrays by
    event name.  [_listeners], [_addListener], [_removeListener] and
    [emit] are the platform's methods, after Node's documentation:
    [removeListener] removes the most recently added instance of the
    listener, and all of them return the emitter. *)
Record EventEmitter := { _events : gmap string (list Function) }.

Definition _listeners (this : EventEmitter) (type : string) : list Function :=
  default [] (_events this !! type).

Definition _addListener (this : EventEmitter) (type : string)
  (listener : Function) : EventEmitter :=
  {| _events := <[type := _listeners this type ++ [listener]]> (_events this) |}.

Fixpoint removeFirst (listener : Function) (array : list Function)
  : list Function :=
  match array with
  | [] => []
  | f :: rest =>
      if identical f listener then rest else f :: removeFirst listener rest
  end.

Definition removeLast (listener : Function) (array : list Function)
  : list Function :=
  reverse (removeFirst listener (reverse array)).

Definition _removeListener (this : EventEmitter) (type : string)
  (listener : Function) : EventEmitter :=
  {| _events := <[type := removeLast listener (_listeners this type)]>
                  (_events this) |}.

(** [emitter.emit(type, ...args)]: the listeners run in the order of the
    array; a listener that throws ends the emission. *)
Fixpoint invokeAll (listeners : list Function) (this : This)
  (arguments : list Arg) : M unit :=
  match listeners with
  | [] => ret tt
  | listener :: rest =>
      call listener this arguments ;; invokeAll rest this arguments
  end.

Definition emit (emitter : EventEmitter) (type : string) (this : This)
  (arguments : list Arg) : M bool :=
  invokeAll (_listeners emitter type) this arguments ;;
  ret (bool_decide (_listeners emitter type ≠ [])).

(** [listener.__original_callback__ || listener] *)
Definition unwrapped (listener : Function) : Function :=
  default listener (__original_callback__ listener).

(** [EventEmitter.prototype.listeners]:
<<
    return _listeners.call(this, type)
        .map(listener => listener.__original_callback__ || listener);
>> *)
Definition listeners (this : EventEmitter) (type : string) : list Function :=
  map unwrapped (_listeners this type).

(** The loop of [EventEmitter.prototype.removeListener]:
<<
    for (let wrappedListener of listeners) {
        const callback = wrappedListener.__original_callback__ || wrappedListener;
        if (callback === listener || wrappedListener === listener) {
            return _removeListener.call(this, type, wrappedListener);
        }
    }
    return this;
>> *)
Fixpoint removeListenerLoop (this : EventEmitter) (type : string)
  (listener : Function) (listeners : list Function) : EventEmitter :=
  match listeners with
  | [] => this
  | wrappedListener :: rest =>
      let callback := unwrapped wrappedListener in
      if identical callback listener || identical wrappedListener listener
      then _removeListener this type wrappedListener
      else removeListenerLoop this type listener rest
  end.

Definition removeListener (this : EventEmitter) (type : string)
  (listener : Function) : EventEmitter :=
  removeListenerLoop this type listener (_listeners this type).

(** Node's [addListener(type, listener)]: the listener must be a
    function. *)
Definition originalAddListener (this : EventEmitter)
  (arguments : list Argument) : M EventEmitter :=
  match arguments with
  | ArgValue (VString type) :: ArgFunction listener :: _ =>
      ret (_addListener this type listener)
  | _ => throw (TypeError "The listener argument must be of type Function")
  end.

(** [EventEmitter.prototype.addListener =
      wrap(EventEmitter.prototype.addListener, 1)], also [on]. *)
Definition addListener (stack : list CallSite) (this : EventEmitter)
  (type : string) (listener : Function) : M EventEmitter :=
  wrap originalAddListener (fun _ => throw (TypeError "not a constructor"))
    (fun site => site) (fun _ => true) (fun _ emitter => emitter)
    (inl 1) false false stack this
    [ArgValue (VString type); ArgFunction listener].

End Wrap.

(** *** Chains of deferred callbacks

    A program as the test suite writes them: a callback either schedules
    the next callback through a wrapped scheduler and returns, or raises
    an error, and does nothing else: it reads no [stack] and calls no
    other wrapped function.  [frames] is the stack V8 captures at that
    point. *)
Inductive Callback :=
| Raise (frames : list CallSite)
| Schedule (frames : list CallSite) (next : Callback).

(** The scheduler's timer fires: the shim made for [callback] runs it.
    The scheduling call inside the callback is the head of the wrapped
    function; the platform's scheduler, which the head then calls, calls
    no wrapped function itself, and the callback handed to it fires once
    the shim around the present one has returned. *)
Fixpoint fire (callback : Callback) (traceError : Ref) : M unit :=
  match callback with
  | Raise frames =>
      shim traceError (e <- newError frames ;; throw (ThrownError e))
  | Schedule frames next =>
      timer <- shim traceError (capture frames) ;; fire next timer
  end.

(** The program's top level, outside any shim. *)
Definition run (program : Callback) : M unit :=
  match program with
  | Raise frames => e <- newError frames ;; throw (ThrownError e)
  | Schedule frames next => timer <- capture frames ;; fire next timer
  end.

(** [process.once('uncaughtException', error => error.stack)] *)
Definition uncaughtStack (program : Callback) : M StackProperty :=
  try_catch (run program ;; ret StackPending)
    (fun e => match e with
              | ThrownError error => readStack error
              | _ => ret StackPending
              end).

Definition renderedTrace (program : Callback) (st : State) : option string :=
  match uncaughtStack program st with
  | Some (Returned (StackText text), _) => Some text
  | _ => None
  end.

(** [stacks] are the stacks at the successive scheduling calls, outermost
    first. *)
Definition nested (stacks : list (list CallSite)) (errorFrames : list CallSite)
  : Callback :=
  foldr Schedule (Raise errorFrames) stacks.

(** The separator tokens of a rendered trace: its lines that are the
    token. *)
Definition separatorTokens (token text : string) : nat :=
  length (filter (fun line => line = token) (split_lines text)).

(** *** Running the primitives *)

Lemma bind_run {A B} (m : M A) (k : A -> M B) st a st' :
  m st = Some (Returned a, st') -> bind m k st = k a st'.
Proof. intros H. unfold bind. by rewrite H. Qed.

Lemma bind_threw {A B} (m : M A) (k : A -> M B) st t st' :
  m st = Some (Threw t, st') -> bind m k st = Some (Threw t, st').
Proof. intros H. unfold bind. by rewrite H. Qed.

Lemma getError_run st error e :
  errors st !! error = Some e -> getError error st = Some (Returned e, st).
Proof. intros H. unfold getError. by rewrite H. Qed.

Lemma updateError_run st error e f :
  errors st !! error = Some e ->
  updateError error f st = Some (Returned tt, with_errors (alter f error) st).
Proof.
  intros H. unfold updateError. by rewrite (bind_run _ _ _ _ _ (getError_run _ _ _ H)).
Qed.

Lemma readArray_run st array content :
  arrays st !! array = Some content ->
  readArray array st = Some (Returned content, st).
Proof. intros H. unfold readArray. by rewrite H. Qed.

Lemma writeArray_run st array content content' :
  arrays st !! array = Some content ->
  writeArray array content' st
  = Some (Returned tt, with_arrays (<[array := content']>) st).
Proof.
  intros H. unfold writeArray.
  by rewrite (bind_run _ _ _ _ _ (readArray_run _ _ _ H)).
Qed.

Lemma pushArray_run st array content items :
  arrays st !! array = Some content ->
  pushArray array items st
  = Some (Returned tt, with_arrays (<[array := content ++ items]>) st).
Proof.
  intros H. unfold pushArray.
  rewrite (bind_run _ _ _ _ _ (readArray_run _ _ _ H)).
  by apply writeArray_run with (content := content).
Qed.

(** *** Linked markers

    [linked es r chain]: following [__parent__] from [r] in the store
    [es] visits exactly the markers of [chain], each with the stack
    recorded beside it and none with a cache yet, and ends at a marker
    with no parent. *)
Fixpoint linked (es : list ErrorObject) (r : option Ref)
  (chain : list (Ref * list CallSite)) : Prop :=
  match chain with
  | [] => r = None
  | (x, frames) :: rest =>
      r = Some x /\
      exists e, es !! x = Some e /\ __cached_trace__ e = None
                /\ __stack__ e = frames /\ linked es (__parent__ e) rest
  end.

Lemma linked_valid es r chain :
  linked es r chain -> Forall (fun x => x < length es) chain.*1.
Proof.
  revert r. induction chain as [| [x frames] rest IH]; intros r; cbn.
  - constructor.
  - intros (-> & e & He & _ & _ & Hrest). constructor; [| by eapply IH].
    by eapply lookup_lt_Some.
Qed.

Lemma linked_alloc es r chain e :
  linked es r chain -> linked (es ++ [e]) r chain.
Proof.
  revert r. induction chain as [| [x frames] rest IH]; intros r; cbn; [done |].
  intros (-> & e0 & He0 & Hc & Hs & Hrest). split; [done |].
  exists e0. split; [by apply lookup_app_l_Some |]. eauto.
Qed.

Lemma linked_alter_other es r chain f p :
  p ∉ chain.*1 -> linked es r chain -> linked (alter f p es) r chain.
Proof.
  revert r. induction chain as [| [x frames] rest IH]; intros r; cbn; [done |].
  intros Hp (-> & e & He & Hc & Hs & Hrest). split; [done |].
  apply not_elem_of_cons in Hp as [Hne Hp].
  exists e. rewrite list_lookup_alter_ne by done. eauto.
Qed.

(** Deleting the parent of the marker at position [m] cuts the chain
    after it. *)
Lemma linked_cut es r chain m p frames :
  NoDup chain.*1 -> linked es r chain -> chain !! m = Some (p, frames) ->
  linked (alter (set_parent None) p es) r (take (S m) chain).
Proof.
  revert r m. induction chain as [| [x fs] rest IH]; intros r m Hnd; [done |].
  cbn in Hnd. apply NoDup_cons in Hnd as [Hx Hnd].
  intros (-> & e & He & Hc & Hs & Hrest) Hm. destruct m as [| m].
  - injection Hm as -> ->. cbn. split; [done |].
    exists (set_parent None e). rewrite list_lookup_alter_eq. rewrite He. done.
  - cbn in Hm. cbn [take linked]. split; [done |].
    assert (p ≠ x) as Hne.
    { intros ->. apply Hx. apply list_elem_of_fmap. exists (x, frames).
      split; [done |]. by eapply list_elem_of_lookup_2. }
    exists e. rewrite list_lookup_alter_ne by done.
    repeat split; try done. by eapply IH.
Qed.

Lemma limitWalk_step count p :
  limitWalk (S (S count)) (Some p)
  = (e <- getError p ;; limitWalk (S count) (__parent__ e)).
Proof. reflexivity. Qed.

Lemma limitWalk_linked st r chain count :
  linked (errors st) r chain ->
  limitWalk count r st = Some (Returned (fst <$> chain !! (count - 1)), st).
Proof.
  revert r chain. induction count as [| count IH]; intros r chain Hl.
  - destruct chain as [| [x fs] rest]; cbn in Hl.
    + by subst.
    + by destruct Hl as (-> & _).
  - destruct chain as [| [x fs] rest]; cbn in Hl.
    + subst. by destruct count.
    + destruct Hl as (-> & e & He & Hc & Hs & Hrest).
      destruct count as [| count]; [done |].
      rewrite limitWalk_step, (bind_run _ _ _ _ _ (getError_run _ _ _ He)).
      rewrite (IH _ _ Hrest). by replace (S count - 1) with count by lia.
Qed.

(** What the limit leaves of a chain whose newest marker comes first. *)
Definition limited (limit : Z) (chain : list (Ref * list CallSite))
  : list (Ref * list CallSite) :=
  if (0 <? limit)%Z then take (S (Z.to_nat (limit - 1) - 1)) chain else chain.

Lemma capture_linked st chain frames :
  linked (errors st) (currentTraceError st) chain -> NoDup chain.*1 ->
  exists st',
    capture frames st = Some (Returned (length (errors st)), st')
    /\ linked (errors st') (Some (length (errors st)))
         (limited (Options.asyncTraceLimit (options st))
                  ((length (errors st), frames) :: chain))
    /\ NoDup (limited (Options.asyncTraceLimit (options st))
                      ((length (errors st), frames) :: chain)).*1
    /\ currentTraceError st' = currentTraceError st
    /\ options st' = options st
    /\ arrays st' = arrays st.
Proof.
  intros Hl Hnd. set (T := length (errors st)).
  set (limit := Options.asyncTraceLimit (options st)).
  assert (exists count,
    match currentTraceError st with
    | Some c => ce <- getError c ;; ret (__trace_count__ ce + 1)
    | None => ret 1
    end (with_ERROR_ID (ERROR_ID st + 1) st)
    = Some (Returned count, with_ERROR_ID (ERROR_ID st + 1) st)) as [count Hcount].
  { destruct chain as [| [x fs] rest]; cbn in Hl.
    - rewrite Hl. by eexists.
    - destruct Hl as (-> & e & He & _). eexists.
      by rewrite (bind_run _ _ _ _ _
                    (getError_run (with_ERROR_ID _ st) _ _ He)). }
  set (new := {| __id__ := ERROR_ID st; __parent__ := currentTraceError st;
                 __stack__ := frames; __trace_count__ := count;
                 __cached_trace__ := None; stack := StackFrames |}).
  set (st1 := with_errors (fun es => es ++ [new])
                (with_ERROR_ID (ERROR_ID st + 1) st)).
  assert (linked (errors st1) (Some T) ((T, frames) :: chain)) as Hl1.
  { cbn. split; [done |]. exists new.
    split; [by apply list_lookup_middle |].
    repeat split. by apply linked_alloc. }
  assert (NoDup ((T, frames) :: chain).*1) as Hnd1.
  { cbn. apply NoDup_cons. split; [| done].
    intros Hin. apply linked_valid in Hl.
    rewrite Forall_forall in Hl. specialize (Hl _ Hin). unfold T in Hl. lia. }
  unfold capture.
  rewrite (bind_run _ _ st (ERROR_ID st) st) by done.
  rewrite (bind_run _ _ st tt (with_ERROR_ID (ERROR_ID st + 1) st)) by done.
  rewrite (bind_run _ _ _ (currentTraceError st)
             (with_ERROR_ID (ERROR_ID st + 1) st)) by done.
  rewrite (bind_run _ _ _ _ _ Hcount).
  rewrite (bind_run _ _ _ T st1) by done.
  rewrite (bind_run _ _ _ limit st1) by done.
  unfold limited. fold limit. destruct (0 <? limit)%Z.
  - set (m := Z.to_nat (limit - 1) - 1).
    pose proof (limitWalk_linked st1 _ _ (Z.to_nat (limit - 1)) Hl1) as Hwalk.
    fold m in Hwalk.
    destruct (((T, frames) :: chain) !! m) as [[p fs] |] eqn:Hm.
    + assert (is_Some (errors st1 !! p)) as [pe Hpe].
      { apply lookup_lt_is_Some. apply linked_valid in Hl1.
        rewrite Forall_forall in Hl1. apply Hl1.
        apply list_elem_of_fmap. exists (p, fs). split; [done |].
        by eapply list_elem_of_lookup_2. }
      eexists. split.
      { erewrite bind_run; [reflexivity |].
        erewrite bind_run; [| exact Hwalk]. cbn [fmap option_fmap option_map fst].
        by apply updateError_run with (e := pe). }
      split; [by eapply linked_cut |].
      split; [| done].
      rewrite fmap_take. eapply sublist_NoDup; [exact Hnd1 | apply sublist_take].
    + eexists. split.
      { erewrite bind_run; [reflexivity |].
        erewrite bind_run; [| exact Hwalk]. reflexivity. }
      apply lookup_ge_None_1 in Hm. rewrite take_ge by lia.
      done.
  - eexists. split; [by erewrite bind_run |]. done.
Qed.

(** *** Flattening a chain of markers *)

(** The flattened sequence of a chain, from the stacks of its markers:
    each one's kept frames, and a separator marker before what follows
    unless nothing follows. *)
Fixpoint flatChain (stacks : list (list CallSite)) : list (option CallSite) :=
  match stacks with
  | [] => []
  | frames :: rest =>
      (Some <$> ownFrames frames)
      ++ (if bool_decide (flatChain rest = []) then []
          else None :: flatChain rest)
  end.

Lemma processStackTrace_fuel_step fuel error stack recursing :
  processStackTrace_fuel (S fuel) error stack recursing
  = (e <- getError error ;;
     match __cached_trace__ e with
     | Some cache => ret cache
     | None =>
         cache <- allocArray ;;
         updateError error (set_cached_trace cache) ;;
         pushArray cache (Some <$> ownFrames stack) ;;
         (if bool_decide (__parent__ e = None) && negb recursing
          then current <- gets currentTraceError ;;
               updateError error (set_parent current)
          else ret tt) ;;
         e' <- getError error ;;
         match __parent__ e' with
         | Some p =>
             pe <- getError p ;;
             parent <- processStackTrace_fuel fuel p (__stack__ pe) true ;;
             content <- readArray parent ;;
             if bool_decide (content = []) then ret tt
             else pushArray cache (None :: content)
         | None => ret tt
         end ;;
         ret cache
     end).
Proof. reflexivity. Qed.

(** The part of [processStackTrace] after the cache array has been made
    and filled with the error's own frames: follow the parent, if any. *)
Definition followParent (fuel : nat) (error cache : Ref) : M Ref :=
  e' <- getError error ;;
  match __parent__ e' with
  | Some p =>
      pe <- getError p ;;
      parent <- processStackTrace_fuel fuel p (__stack__ pe) true ;;
      content <- readArray parent ;;
      if bool_decide (content = []) then ret tt
      else pushArray cache (None :: content)
  | None => ret tt
  end ;;
  ret cache.

Lemma followParent_linked_aux fuel st error cache e own chain
  (IH : forall st x frames rest,
      linked (errors st) (Some x) ((x, frames) :: rest) ->
      NoDup ((x, frames) :: rest).*1 ->
      length rest < fuel ->
      exists st',
        processStackTrace_fuel fuel x frames true st
        = Some (Returned (length (arrays st)), st')
        /\ arrays st' !! length (arrays st)
           = Some (flatChain ((x, frames) :: rest).*2)
        /\ (forall i, i < length (arrays st) -> arrays st' !! i = arrays st !! i)
        /\ length (arrays st) < length (arrays st')
        /\ length (errors st') = length (errors st)
        /\ currentTraceError st' = currentTraceError st
        /\ options st' = options st) :
  errors st !! error = Some e ->
  arrays st !! cache = Some own ->
  linked (errors st) (__parent__ e) chain ->
  NoDup chain.*1 ->
  length chain <= fuel ->
  exists st',
    followParent fuel error cache st = Some (Returned cache, st')
    /\ arrays st' !! cache
       = Some (own ++ (if bool_decide (flatChain chain.*2 = []) then []
                       else None :: flatChain chain.*2))
    /\ (forall i, i < length (arrays st) -> i ≠ cache ->
        arrays st' !! i = arrays st !! i)
    /\ length (arrays st) <= length (arrays st')
    /\ length (errors st') = length (errors st)
    /\ currentTraceError st' = currentTraceError st
    /\ options st' = options st.
Proof.
  intros He Hown Hl Hnd Hfuel. unfold followParent.
  rewrite (bind_run _ _ _ _ _ (getError_run _ _ _ He)).
  destruct chain as [| [p fs] rest].
  - cbn in Hl. rewrite Hl. exists st. cbn. rewrite app_nil_r. done.
  - pose proof Hl as (Hp & pe & Hpe & Hpc & Hps & Hrest).
    rewrite Hp in Hl |- *.
    assert (length rest < fuel) as Hlt by (cbn in Hfuel; lia).
    destruct (IH st p fs rest Hl Hnd Hlt)
      as (st1 & Hrun & Hcontent & Hkeep & Hgrow & Hlen & Hcur & Hopt).
    assert (cache < length (arrays st)) as Hcache by by eapply lookup_lt_Some.
    unfold bind at 1 2 3 4.
    rewrite (getError_run _ _ _ Hpe), Hps, Hrun, (readArray_run _ _ _ Hcontent).
    destruct (bool_decide (flatChain ((p, fs) :: rest).*2 = [])) eqn:Hempty.
    + exists st1. cbn. rewrite app_nil_r. split; [done |].
      split; [by rewrite Hkeep |].
      repeat split; try done; [by intros; apply Hkeep | lia].
    + erewrite pushArray_run by (by rewrite Hkeep).
      eexists. split; [reflexivity |]. cbn.
      split; [apply list_lookup_insert_eq; lia |].
      split; [intros i Hi Hne; rewrite list_lookup_insert_ne by done;
              by apply Hkeep |].
      rewrite length_insert. repeat split; try done. lia.
Qed.

Lemma processStackTrace_linked fuel : forall st x frames rest,
  linked (errors st) (Some x) ((x, frames) :: rest) ->
  NoDup ((x, frames) :: rest).*1 ->
  length rest < fuel ->
  exists st',
    processStackTrace_fuel fuel x frames true st
    = Some (Returned (length (arrays st)), st')
    /\ arrays st' !! length (arrays st)
       = Some (flatChain ((x, frames) :: rest).*2)
    /\ (forall i, i < length (arrays st) -> arrays st' !! i = arrays st !! i)
    /\ length (arrays st) < length (arrays st')
    /\ length (errors st') = length (errors st)
    /\ currentTraceError st' = currentTraceError st
    /\ options st' = options st.
Proof.
  induction fuel as [| fuel IH]; intros st x frames rest Hl Hnd Hfuel; [lia |].
  pose proof Hl as (_ & e & He & Hc & Hs & Hrest).
  cbn in Hnd. apply NoDup_cons in Hnd as [Hx Hnd].
  rewrite processStackTrace_fuel_step.
  rewrite (bind_run _ _ _ _ _ (getError_run _ _ _ He)), Hc.
  set (a := length (arrays st)).
  set (st1 := with_arrays (fun arrs => arrs ++ [[]]) st).
  rewrite (bind_run _ _ st a st1) by done.
  set (st2 := with_errors (alter (set_cached_trace a) x) st1).
  rewrite (bind_run _ _ st1 tt st2) by (by apply updateError_run with (e := e)).
  set (own := Some <$> ownFrames frames).
  set (st3 := with_arrays (<[a := [] ++ own]>) st2).
  rewrite (bind_run _ _ st2 tt st3)
    by (apply pushArray_run; by apply list_lookup_middle).
  rewrite andb_false_r.
  rewrite (bind_run _ _ st3 tt st3) by done.
  destruct (followParent_linked_aux fuel st3 x a (set_cached_trace a e)
              ([] ++ own) rest IH) as (st' & Hrun & Hcontent & Hkeep & Hgrow
                                       & Hlen & Hcur & Hopt).
  - cbn. by rewrite list_lookup_alter_eq, He.
  - cbn. apply list_lookup_insert_eq. rewrite length_app. cbn. lia.
  - cbn. by apply linked_alter_other.
  - done.
  - lia.
  - exists st'. split; [exact Hrun |].
    cbn in Hgrow, Hlen, Hkeep. rewrite length_insert, length_app in *.
    cbn in *. rewrite length_alter in Hlen.
    split; [exact Hcontent |].
    split.
    { intros i Hi. rewrite Hkeep by (unfold a; lia).
      rewrite list_lookup_insert_ne by (unfold a; lia).
      by apply lookup_app_l. }
    repeat split; try done. lia.
Qed.

(** *** Rendering *)

(** The separator markers of a flattened sequence. *)
Definition markers (content : list (option CallSite)) : nat :=
  length (filter (fun item => item = None) content).

Lemma markers_app content content' :
  markers (content ++ content') = markers content + markers content'.
Proof. unfold markers. by rewrite filter_app, length_app. Qed.

Lemma markers_cons_site site content :
  markers (Some site :: content) = markers content.
Proof. unfold markers. by rewrite filter_cons_False. Qed.

Lemma markers_cons_marker content :
  markers (None :: content) = S (markers content).
Proof. unfold markers. by rewrite filter_cons_True. Qed.

Lemma markers_frames (frames : list CallSite) : markers (Some <$> frames) = 0.
Proof.
  induction frames as [| site frames IH]; [done |].
  cbn [fmap list_fmap]. by rewrite markers_cons_site.
Qed.

Lemma take_delete_same {A} (l : list A) i : take i (delete i l) = take i l.
Proof.
  revert i. induction l as [| x l IH]; intros [| i]; cbn; try done.
  by rewrite IH.
Qed.

(** The first loop remembers one index per separator marker. *)
Lemma removeSeparators_length i combined separators :
  i <= length combined ->
  length (removeSeparators i combined separators).1
  = length separators + markers (take i combined).
Proof.
  revert combined separators.
  induction i as [| i IH]; intros combined separators Hi; cbn [removeSeparators].
  - rewrite take_0. cbn. lia.
  - destruct (lookup_lt_is_Some_2 combined i ltac:(lia)) as [item Hitem].
    rewrite Hitem, (take_S_r _ _ _ Hitem), markers_app.
    destruct item as [site |].
    + rewrite IH by lia. rewrite markers_cons_site. cbn. lia.
    + rewrite IH by (rewrite length_delete by eauto; lia).
      rewrite take_delete_same, markers_cons_marker. cbn. lia.
Qed.

Lemma splice_tokens (token : string) k lines :
  length (filter (fun line => line = token) (splice k token lines))
  = S (length (filter (fun line => line = token) lines)).
Proof.
  unfold splice. rewrite filter_app, filter_cons_True by done.
  rewrite <- (take_drop k lines) at 3.
  rewrite filter_app, !length_app. cbn. lia.
Qed.

Lemma spliced_tokens (token : string) separators : forall lines,
  length (filter (fun line => line = token)
            (foldl (fun lines i => splice (i + 1) token lines) lines separators))
  = length separators + length (filter (fun line => line = token) lines).
Proof.
  induction separators as [| i separators IH]; intros lines; [done |].
  cbn [foldl]. rewrite IH, splice_tokens. cbn. lia.
Qed.

Lemma spliced_no_newline (token : string) separators : forall lines,
  has_newline token = false ->
  Forall (fun line => has_newline line = false) lines ->
  Forall (fun line => has_newline line = false)
    (foldl (fun lines i => splice (i + 1) token lines) lines separators).
Proof.
  induction separators as [| i separators IH]; intros lines Htoken Hlines;
    [done |].
  cbn [foldl]. apply IH; [done |]. unfold splice.
  apply Forall_app. split; [by apply Forall_take |].
  constructor; [done |]. by apply Forall_drop.
Qed.

Lemma spliced_nonempty (token : string) separators : forall lines,
  lines <> [] ->
  foldl (fun lines i => splice (i + 1) token lines) lines separators <> [].
Proof.
  induction separators as [| i separators IH]; intros lines Hlines; [done |].
  cbn [foldl]. apply IH. unfold splice. by destruct (take (i + 1) lines).
Qed.

(** The second loop puts one token line into the text per remembered
    index, provided the token is one line and the text the previous hook
    renders has no such line. *)
Lemma separatorTokens_spliced token rendered separators :
  has_newline token = false ->
  token ∉ split_lines rendered ->
  separatorTokens token
    (join_lines (foldl (fun lines i => splice (i + 1) token lines)
                   (split_lines rendered) separators))
  = length separators.
Proof.
  intros Htoken Hfresh. unfold separatorTokens.
  rewrite split_join.
  - rewrite spliced_tokens.
    assert (filter (fun line => line = token) (split_lines rendered) = [])
      as ->; [| cbn; lia].
    induction (split_lines rendered) as [| line lines IH]; [done |].
    apply not_elem_of_cons in Hfresh as [Hne Hfresh].
    rewrite filter_cons_False by done. by apply IH.
  - apply spliced_nonempty, split_lines_nonempty.
  - apply spliced_no_newline; [done | apply split_lines_no_newline].
Qed.

Lemma ownFrames_nonempty frames :
  Exists (fun site => internal site = false) frames -> ownFrames frames <> [].
Proof.
  induction 1 as [site rest Hsite | site rest Hrest IH]; cbn.
  - by rewrite Hsite.
  - by destruct (internal site).
Qed.

Lemma flatChain_nonempty frames rest :
  ownFrames frames <> [] -> flatChain (frames :: rest) <> [].
Proof. cbn. by destruct (ownFrames frames). Qed.

Lemma flatChain_markers frames rest :
  Forall (fun frames => ownFrames frames <> []) rest ->
  markers (flatChain (frames :: rest)) = length rest.
Proof.
  revert frames. induction rest as [| frames' rest IH]; intros frames Hall.
  - cbn [flatChain]. rewrite bool_decide_eq_true_2 by done.
    by rewrite app_nil_r, markers_frames.
  - apply Forall_cons in Hall as [Hown Hall].
    cbn [flatChain] in *. rewrite markers_app, markers_frames.
    rewrite bool_decide_eq_false_2 by by apply (flatChain_nonempty frames' rest).
    rewrite markers_cons_marker. cbn [flatChain] in IH. rewrite IH by done.
    done.
Qed.

Lemma flatChain_error_markers frames stacks :
  Forall (fun frames => ownFrames frames <> []) stacks ->
  markers
    ((Some <$> ownFrames frames)
     ++ (if bool_decide (flatChain stacks = []) then []
         else None :: flatChain stacks))
  = length stacks.
Proof. apply (flatChain_markers frames stacks). Qed.

Lemma distinct_addresses (l : list nat) n :
  NoDup l -> Forall (fun x => x < n) l -> length l <= n.
Proof.
  intros Hnd Hall.
  assert (length l <= length (seq 0 n)) as Hle.
  { apply submseteq_length, NoDup_submseteq; [done |].
    intros x Hx. rewrite Forall_forall in Hall. apply elem_of_seq.
    specialize (Hall x Hx). lia. }
  by rewrite length_seq in Hle.
Qed.

(** Rendering an error that has no cache and no parent yet, while the
    markers of [chain] hang off the current context: the text has one
    separator token per marker. *)
Lemma prepareStackTrace_fresh st error e frames chain :
  errors st !! error = Some e ->
  __cached_trace__ e = None -> __parent__ e = None ->
  linked (errors st) (currentTraceError st) chain ->
  NoDup chain.*1 -> error ∉ chain.*1 ->
  Forall (fun frames => ownFrames frames <> []) chain.*2 ->
  has_newline (Options.emptyFrame (options st)) = false ->
  (forall sites, Options.emptyFrame (options st)
                 ∉ split_lines (origPrepareStackTrace error sites)) ->
  exists text st',
    prepareStackTrace error frames st = Some (Returned text, st')
    /\ separatorTokens (Options.emptyFrame (options st)) text = length chain
    /\ length (errors st') = length (errors st)
    /\ currentTraceError st' = currentTraceError st
    /\ options st' = options st.
Proof.
  intros He Hc Hp Hl Hnd Hnotin Hown Htoken Hfresh.
  set (a := length (arrays st)).
  set (st1 := with_arrays (fun arrs => arrs ++ [[]]) st).
  set (st2 := with_errors (alter (set_cached_trace a) error) st1).
  set (own := Some <$> ownFrames frames).
  set (st3 := with_arrays (<[a := [] ++ own]>) st2).
  set (st4 := with_errors (alter (set_parent (currentTraceError st)) error) st3).
  destruct (followParent_linked_aux (length (errors st)) st4 error a
              (set_parent (currentTraceError st) (set_cached_trace a e))
              ([] ++ own) chain (processStackTrace_linked _))
    as (st5 & Hrun & Hcontent & Hkeep & Hgrow & Hlen & Hcur & Hopt).
  { cbn. by rewrite !list_lookup_alter_eq, He. }
  { cbn. apply list_lookup_insert_eq. rewrite length_app. cbn. lia. }
  { cbn. apply linked_alter_other; [done |].
    by apply linked_alter_other. }
  { done. }
  { rewrite <- (length_fmap fst chain).
    apply distinct_addresses; [done | by eapply linked_valid]. }
  assert (processStackTrace error frames false st = Some (Returned a, st5))
    as Hflat.
  { unfold processStackTrace. rewrite processStackTrace_fuel_step.
    rewrite (bind_run _ _ _ _ _ (getError_run _ _ _ He)), Hc.
    rewrite (bind_run _ _ st a st1) by done.
    rewrite (bind_run _ _ st1 tt st2)
      by (by apply updateError_run with (e := e)).
    rewrite (bind_run _ _ st2 tt st3)
      by (apply pushArray_run; by apply list_lookup_middle).
    rewrite Hp, bool_decide_eq_true_2 by done. cbn [negb andb].
    rewrite (bind_run _ _ st3 tt st4).
    - exact Hrun.
    - rewrite (bind_run _ _ st3 (currentTraceError st) st3) by done.
      apply updateError_run with (e := set_cached_trace a e).
      cbn. by rewrite list_lookup_alter_eq, He. }
  set (content := ([] ++ own)
                  ++ (if bool_decide (flatChain chain.*2 = []) then []
                      else None :: flatChain chain.*2)) in Hcontent.
  destruct (removeSeparators (length content) content []) as [separators sites]
    eqn:Hremove.
  assert (length separators = length chain) as Hcount.
  { pose proof (removeSeparators_length (length content) content []
                  ltac:(lia)) as Hlength.
    rewrite Hremove, firstn_all in Hlength.
    transitivity (markers content); [exact Hlength |].
    unfold content, own. rewrite app_nil_l.
    rewrite flatChain_error_markers by done. by rewrite length_fmap. }
  eexists _, _. split.
  { unfold prepareStackTrace.
    rewrite (bind_run _ _ _ _ _ Hflat).
    rewrite (bind_run _ _ _ _ _ (readArray_run _ _ _ Hcontent)).
    rewrite Hremove.
    erewrite bind_run; [| by eapply writeArray_run].
    erewrite bind_run; [| reflexivity].
    reflexivity. }
  cbn. rewrite Hopt. cbn.
  split; [by rewrite separatorTokens_spliced |].
  rewrite Hlen, Hcur. cbn. rewrite !length_alter.
  done.
Qed.

(** *** The shim *)

Lemma shim_returned {A} traceError (callback : M A) st a st' :
  callback (with_currentTraceError (Some traceError) st)
  = Some (Returned a, st') ->
  shim traceError callback st
  = Some (Returned a, with_currentTraceError None st').
Proof.
  intros Hrun. unfold shim, bind, modify, finally, try_catch.
  by rewrite Hrun.
Qed.

Lemma shim_threw {A} traceError (callback : M A) st e st1 outcome st2 :
  callback (with_currentTraceError (Some traceError) st)
  = Some (Threw e, st1) ->
  forceStack e st1 = Some (outcome, st2) ->
  shim traceError callback st
  = Some (Threw match outcome with Returned _ => e | Threw e' => e' end,
          with_currentTraceError None st2).
Proof.
  intros Hrun Hforce. unfold shim, bind, modify, finally, try_catch, throw.
  rewrite Hrun, Hforce. by destruct outcome.
Qed.

Lemma readStack_fresh st error e chain :
  errors st !! error = Some e ->
  stack e = StackPending ->
  __cached_trace__ e = None -> __parent__ e = None ->
  linked (errors st) (currentTraceError st) chain ->
  NoDup chain.*1 -> error ∉ chain.*1 ->
  Forall (fun frames => ownFrames frames <> []) chain.*2 ->
  has_newline (Options.emptyFrame (options st)) = false ->
  (forall sites, Options.emptyFrame (options st)
                 ∉ split_lines (origPrepareStackTrace error sites)) ->
  exists text st',
    readStack error st = Some (Returned (StackText text), st')
    /\ separatorTokens (Options.emptyFrame (options st)) text = length chain
    /\ (exists e', errors st' !! error = Some e' /\ stack e' = StackText text)
    /\ currentTraceError st' = currentTraceError st
    /\ options st' = options st.
Proof.
  intros He Hpending Hc Hp Hl Hnd Hnotin Hown Htoken Hfresh.
  destruct (prepareStackTrace_fresh st error e (__stack__ e) chain)
    as (text & st1 & Hrun & Hcount & Hlen & Hcur & Hopt); try done.
  assert (is_Some (errors st1 !! error)) as [e1 He1].
  { apply lookup_lt_is_Some. rewrite Hlen. by eapply lookup_lt_Some. }
  exists text. eexists. split.
  { unfold readStack.
    rewrite (bind_run _ _ _ _ _ (getError_run _ _ _ He)), Hpending.
    rewrite (bind_run _ _ _ _ _ Hrun).
    erewrite bind_run; [| by eapply updateError_run]. reflexivity. }
  split; [done |]. cbn. split; [| done].
  exists (set_stack (StackText text) e1).
  by rewrite list_lookup_alter_eq, He1.
Qed.

Lemma readStack_text st error e text :
  errors st !! error = Some e -> stack e = StackText text ->
  readStack error st = Some (Returned (StackText text), st).
Proof.
  intros He Htext. unfold readStack.
  by rewrite (bind_run _ _ _ _ _ (getError_run _ _ _ He)), Htext.
Qed.

(** *** Well-formed stores: flattening always returns *)

(** Every address held in a property or in the context slot has an
    object behind it. *)
Definition wf (st : State) : Prop :=
  (forall i e, errors st !! i = Some e ->
     (forall p, __parent__ e = Some p -> p < length (errors st))
     /\ (forall c, __cached_trace__ e = Some c -> c < length (arrays st)))
  /\ (forall c, currentTraceError st = Some c -> c < length (errors st)).

(** The Error objects that have no cache yet. *)
Definition uncached (es : list ErrorObject) : nat :=
  length (filter (fun e => __cached_trace__ e = None) es).

Lemma uncached_alter_cache es i e c :
  es !! i = Some e -> __cached_trace__ e = None ->
  S (uncached (alter (set_cached_trace c) i es)) = uncached es.
Proof.
  unfold uncached. revert i.
  induction es as [| e0 es IH]; intros [| i] He Hc; cbn in He; try done.
  - injection He as ->. cbn [alter list_alter].
    rewrite filter_cons_False by done. by rewrite filter_cons_True.
  - cbn [alter list_alter]. destruct (decide (__cached_trace__ e0 = None)).
    + rewrite !filter_cons_True by done. cbn. f_equal. by eapply IH.
    + rewrite !filter_cons_False by done. by eapply IH.
Qed.

Lemma uncached_alter_parent es i p :
  uncached (alter (set_parent p) i es) = uncached es.
Proof.
  unfold uncached. revert i.
  induction es as [| e0 es IH]; intros [| i]; cbn [alter list_alter]; try done.
  - destruct (decide (__cached_trace__ e0 = None)).
    + by rewrite !filter_cons_True.
    + by rewrite !filter_cons_False.
  - destruct (decide (__cached_trace__ e0 = None)).
    + rewrite !filter_cons_True by done. cbn. by rewrite IH.
    + rewrite !filter_cons_False by done. by rewrite IH.
Qed.

(** What a call of [processStackTrace] leaves behind: the same objects,
    the error's cache at the address returned, every older array and
    every object that already had a cache as they were. *)
Definition flattened (st : State) (error cache : Ref) (st' : State) : Prop :=
  length (errors st') = length (errors st)
  /\ cache < length (arrays st')
  /\ (exists e', errors st' !! error = Some e'
                 /\ __cached_trace__ e' = Some cache)
  /\ (forall i, i < length (arrays st) -> arrays st' !! i = arrays st !! i)
  /\ length (arrays st) <= length (arrays st')
  /\ (forall i e, errors st !! i = Some e -> is_Some (__cached_trace__ e) ->
      errors st' !! i = Some e)
  /\ currentTraceError st' = currentTraceError st
  /\ options st' = options st
  /\ (forall e, errors st !! error = Some e -> __cached_trace__ e = None ->
      cache = length (arrays st))
  /\ wf st'.

Lemma wf_insert_array st array content :
  wf st -> wf (with_arrays (<[array := content]>) st).
Proof.
  intros [Hobjects Hcurrent]. split; [| done].
  intros i e He. cbn in *. rewrite length_insert. by apply (Hobjects i).
Qed.

Lemma processStackTrace_fuel_total fuel :
  forall st error frames recursing,
    wf st -> error < length (errors st) ->
    uncached (errors st) < fuel ->
    exists cache st',
      processStackTrace_fuel fuel error frames recursing st
      = Some (Returned cache, st')
      /\ flattened st error cache st'.
Proof.
  induction fuel as [| fuel IH];
    intros st error frames recursing Hwf Herror Hfuel; [lia |].
  destruct (lookup_lt_is_Some_2 _ _ Herror) as [e He].
  rewrite processStackTrace_fuel_step.
  rewrite (bind_run _ _ _ _ _ (getError_run _ _ _ He)).
  destruct (__cached_trace__ e) as [cache |] eqn:Hc.
  { exists cache, st. split; [done |].
    pose proof Hwf as [Hobjects _]. destruct (Hobjects _ _ He) as [_ Hcache].
    split; [done |]. split; [by apply Hcache |]. split; [by exists e |].
    split; [done |]. split; [done |]. split; [done |]. split; [done |].
    split; [done |]. split; [| done]. intros e0 He0 Hc0. congruence. }
  set (a := length (arrays st)).
  set (st1 := with_arrays (fun arrs => arrs ++ [[]]) st).
  rewrite (bind_run _ _ st a st1) by done.
  set (st2 := with_errors (alter (set_cached_trace a) error) st1).
  rewrite (bind_run _ _ st1 tt st2) by (by apply updateError_run with (e := e)).
  set (own := Some <$> ownFrames frames).
  set (st3 := with_arrays (<[a := [] ++ own]>) st2).
  rewrite (bind_run _ _ st2 tt st3)
    by (apply pushArray_run; by apply list_lookup_middle).
  set (parent := if bool_decide (__parent__ e = None) && negb recursing
                 then currentTraceError st else __parent__ e).
  set (st4 := with_errors (alter (set_parent parent) error) st3).
  set (e4 := set_parent parent (set_cached_trace a e)).
  assert (errors st4 !! error = Some e4) as He4.
  { cbn. by rewrite !list_lookup_alter_eq, He. }
  assert (forall i e', i ≠ error -> errors st !! i = Some e' ->
                       errors st4 !! i = Some e') as Hother.
  { intros i e' Hne Hi. cbn. by rewrite !list_lookup_alter_ne. }
  assert (length (errors st4) = length (errors st)) as Hlen4.
  { cbn. by rewrite !length_alter. }
  assert (length (arrays st4) = S (length (arrays st))) as Harr4.
  { cbn. rewrite length_insert, length_app. cbn. lia. }
  assert (forall i, i < length (arrays st) ->
                    arrays st4 !! i = arrays st !! i) as Hkeep4.
  { intros i Hi. cbn. rewrite list_lookup_insert_ne by (unfold a; lia).
    by apply lookup_app_l. }
  assert (forall p, parent = Some p -> p < length (errors st)) as Hparent.
  { destruct Hwf as [Hobjects Hcurrent]. unfold parent. intros p.
    destruct (bool_decide (__parent__ e = None) && negb recursing).
    - apply Hcurrent.
    - by apply (Hobjects _ _ He). }
  assert (wf st4) as Hwf4.
  { destruct Hwf as [Hobjects Hcurrent]. split; [| by rewrite Hlen4].
    intros i e'. rewrite Hlen4, Harr4.
    destruct (decide (i = error)) as [-> | Hne].
    - rewrite He4. intros [= <-]. split; [exact Hparent |].
      cbn. intros c [= <-]. unfold a. lia.
    - intros Hi. cbn in Hi. rewrite !list_lookup_alter_ne in Hi by done.
      destruct (Hobjects _ _ Hi) as [Hp Hcache].
      split; [done |]. intros c Hcc. specialize (Hcache c Hcc). lia. }
  assert ((if bool_decide (__parent__ e = None) && negb recursing
           then current <- gets currentTraceError ;;
                updateError error (set_parent current)
           else ret tt) st3 = Some (Returned tt, st4)) as Hdefine.
  { unfold parent in st4, e4, He4. unfold st4.
    destruct (bool_decide (__parent__ e = None) && negb recursing) eqn:Hcond.
    - rewrite (bind_run _ _ st3 (currentTraceError st) st3) by done.
      apply updateError_run with (e := set_cached_trace a e).
      cbn. by rewrite list_lookup_alter_eq, He.
    - assert (alter (set_parent (__parent__ e)) error (errors st3)
              = errors st3) as Hsame.
      { apply list_eq. intros i. destruct (decide (i = error)) as [-> | Hne].
        - cbn. rewrite !list_lookup_alter_eq, He. cbn. by destruct e.
        - by rewrite list_lookup_alter_ne. }
      unfold ret, with_errors at 1. by rewrite Hsame. }
  rewrite (bind_run _ _ _ _ _ Hdefine).
  change (exists cache st',
    followParent fuel error a st4 = Some (Returned cache, st')
    /\ flattened st error cache st').
  unfold followParent.
  rewrite (bind_run _ _ _ _ _ (getError_run _ _ _ He4)).
  assert (__parent__ e4 = parent) as -> by done.
  destruct parent as [p |] eqn:Hp; cycle 1.
  { exists a, st4. split; [done |].
    split; [done |]. split; [lia |]. split; [by exists e4 |].
    split; [done |]. split; [lia |].
    split; [| done]. intros i e' Hi Hcached. apply Hother; [| done].
    intros ->. rewrite He in Hi. injection Hi as <-.
    rewrite Hc in Hcached. by destruct Hcached. }
  assert (p < length (errors st4)) as Hpvalid
      by (rewrite Hlen4; by apply Hparent).
  destruct (lookup_lt_is_Some_2 _ _ Hpvalid) as [pe Hpe].
  destruct (IH st4 p (__stack__ pe) true Hwf4 Hpvalid) as
    (pcache & st5 & Hrun & Hlen5 & Hpcache & _ & Hkeep5 & Hgrow5
     & Hcached5 & Hcur5 & Hopt5 & _ & Hwf5).
  { change (uncached (alter (set_parent (Some p)) error
                        (alter (set_cached_trace a) error (errors st)))
            < fuel).
    rewrite uncached_alter_parent.
    pose proof (uncached_alter_cache (errors st) error e a He Hc). lia. }
  destruct (lookup_lt_is_Some_2 _ _ Hpcache) as [content Hcontent].
  unfold bind at 1 2 3 4.
  rewrite (getError_run _ _ _ Hpe), Hrun, (readArray_run _ _ _ Hcontent).
  assert (errors st5 !! error = Some e4) as He5.
  { apply Hcached5; [done |]. by eexists. }
  assert (forall i e', errors st !! i = Some e' ->
                       is_Some (__cached_trace__ e') ->
                       errors st5 !! i = Some e') as Hcached.
  { intros i e' Hi Hcached. apply Hcached5; [| done]. apply Hother; [| done].
    intros ->. rewrite He in Hi. injection Hi as <-.
    rewrite Hc in Hcached. by destruct Hcached. }
  assert (forall i, i < length (arrays st) ->
                    arrays st5 !! i = arrays st !! i) as Hkeep.
  { intros i Hi. rewrite Hkeep5 by lia. by apply Hkeep4. }
  destruct (bool_decide (content = [])).
  - exists a, st5. split; [done |].
    split; [lia |]. split; [lia |]. split; [by exists e4 |].
    split; [done |]. split; [lia |]. split; [done |].
    by rewrite Hcur5, Hopt5.
  - assert (a < length (arrays st5)) as Ha by lia.
    destruct (lookup_lt_is_Some_2 _ _ Ha) as [mine Hmine].
    rewrite (pushArray_run _ _ _ _ Hmine).
    eexists a, _. split; [reflexivity |]. unfold flattened.
    cbn [errors arrays with_arrays currentTraceError options].
    rewrite length_insert.
    split; [lia |]. split; [lia |]. split; [by exists e4 |].
    split.
    { intros i Hi. rewrite list_lookup_insert_ne by (unfold a; lia).
      by apply Hkeep. }
    split; [lia |]. split; [done |]. rewrite Hcur5, Hopt5.
    split; [done |]. split; [done |]. split; [done |].
    by apply wf_insert_array.
Qed.

Lemma uncached_le es : uncached es <= length es.
Proof. unfold uncached. apply length_filter. Qed.

(** [processStackTrace] returns on every well-formed store. *)
Lemma processStackTrace_total st error frames recursing :
  wf st -> error < length (errors st) ->
  exists cache st',
    processStackTrace error frames recursing st = Some (Returned cache, st')
    /\ flattened st error cache st'.
Proof.
  intros Hwf Herror. apply processStackTrace_fuel_total; [done | done |].
  pose proof (uncached_le (errors st)). lia.
Qed.

(** Flattening is memoized: the second call returns the very array of the
    first, and touches nothing. *)
Lemma processStackTrace_memoized st error frames recursing frames' recursing' :
  wf st -> error < length (errors st) ->
  exists cache st',
    processStackTrace error frames recursing st = Some (Returned cache, st')
    /\ processStackTrace error frames' recursing' st'
       = Some (Returned cache, st').
Proof.
  intros Hwf Herror.
  destruct (processStackTrace_total st error frames recursing Hwf Herror)
    as (cache & st' & Hrun & _ & _ & (e' & He' & Hcache) & _).
  exists cache, st'. split; [done |].
  unfold processStackTrace. rewrite processStackTrace_fuel_step.
  by rewrite (bind_run _ _ _ _ _ (getError_run _ _ _ He')), Hcache.
Qed.

(** [prepareStackTrace] returns on every well-formed store.  The only
    array it writes to is the error's cache: when the error had none,
    every array and every cache that existed stay as they were. *)
Lemma prepareStackTrace_total st error frames :
  wf st -> error < length (errors st) ->
  exists text st',
    prepareStackTrace error frames st = Some (Returned text, st')
    /\ length (errors st') = length (errors st)
    /\ currentTraceError st' = currentTraceError st
    /\ options st' = options st
    /\ (forall i e, errors st !! i = Some e ->
        is_Some (__cached_trace__ e) -> errors st' !! i = Some e)
    /\ (forall e, errors st !! error = Some e -> __cached_trace__ e = None ->
        forall i, i < length (arrays st) -> arrays st' !! i = arrays st !! i)
    /\ wf st'.
Proof.
  intros Hwf Herror.
  destruct (processStackTrace_total st error frames false Hwf Herror)
    as (cache & st1 & Hflat & Hlen & Hcache & _ & Hkeep & _ & Hcached
        & Hcur & Hopt & Hnew & Hwf1).
  destruct (lookup_lt_is_Some_2 _ _ Hcache) as [content Hcontent].
  destruct (removeSeparators (length content) content []) as [separators sites]
    eqn:Hremove.
  eexists _, _. split.
  { unfold prepareStackTrace.
    rewrite (bind_run _ _ _ _ _ Hflat).
    rewrite (bind_run _ _ _ _ _ (readArray_run _ _ _ Hcontent)).
    rewrite Hremove.
    erewrite bind_run; [| by eapply writeArray_run].
    erewrite bind_run; [| reflexivity].
    reflexivity. }
  split; [done |]. split; [done |]. split; [done |]. split; [done |].
  split; [| by apply wf_insert_array].
  intros e He Hc i Hi. cbn. rewrite list_lookup_insert_ne; [by apply Hkeep |].
  rewrite (Hnew e He Hc). lia.
Qed.

Lemma wf_set_stack st error value :
  wf st -> wf (with_errors (alter (set_stack value) error) st).
Proof.
  intros [Hobjects Hcurrent]. split.
  - intros i e Hi. cbn in *. rewrite length_alter.
    destruct (decide (error = i)) as [-> | Hne].
    + rewrite list_lookup_alter_eq in Hi.
      destruct (errors st !! i) as [e0 |] eqn:He0; [| done].
      injection Hi as <-. cbn. by apply (Hobjects i e0).
    + rewrite list_lookup_alter_ne in Hi by done. by apply (Hobjects i).
  - intros c Hc. cbn in *. rewrite length_alter. by apply Hcurrent.
Qed.

Lemma wf_clear_context st : wf st -> wf (with_currentTraceError None st).
Proof. intros [Hobjects _]. by split. Qed.

Lemma readStack_total st error :
  wf st -> error < length (errors st) ->
  exists value st',
    readStack error st = Some (Returned value, st')
    /\ length (errors st') = length (errors st)
    /\ currentTraceError st' = currentTraceError st
    /\ options st' = options st
    /\ wf st'.
Proof.
  intros Hwf Herror.
  destruct (lookup_lt_is_Some_2 _ _ Herror) as [e He].
  unfold readStack. rewrite (bind_run _ _ _ _ _ (getError_run _ _ _ He)).
  destruct (stack e) eqn:Hstack; try (by eexists _, _).
  destruct (prepareStackTrace_total st error (__stack__ e) Hwf Herror)
    as (text & st1 & Hrun & Hlen & Hcur & Hopt & _ & _ & Hwf1).
  assert (is_Some (errors st1 !! error)) as [e1 He1].
  { apply lookup_lt_is_Some. by rewrite Hlen. }
  rewrite (bind_run _ _ _ _ _ Hrun).
  erewrite bind_run; [| by eapply updateError_run].
  eexists _, _. split; [reflexivity |]. cbn. rewrite length_alter.
  split; [done |]. split; [done |]. split; [done |].
  by apply wf_set_stack.
Qed.

(** An error object that is thrown exists. *)
Definition thrownValid (st : State) (e : Thrown) : Prop :=
  match e with
  | ThrownError error => error < length (errors st)
  | _ => True
  end.

Lemma forceStack_total st e :
  wf st -> thrownValid st e ->
  exists outcome st',
    forceStack e st = Some (outcome, st')
    /\ length (errors st') = length (errors st)
    /\ currentTraceError st' = currentTraceError st
    /\ options st' = options st
    /\ wf st'.
Proof.
  intros Hwf Hvalid. destruct e as [message | error | v]; cbn [forceStack].
  - by eexists _, _.
  - destruct (readStack_total st error Hwf Hvalid)
      as (value & st' & Hrun & Hlen & Hcur & Hopt & Hwf').
    eexists _, st'. by rewrite (bind_run _ _ _ _ _ Hrun).
  - destruct v; by eexists _, _.
Qed.

(** C3 (amended).  A shim sets the context slot to its marker before the
    callback runs, so a callback that reads the slot finds the marker,
    and on every exit path, a return or a throw, it leaves the slot
    empty ([null]); it does not put back what the slot held when the shim
    was entered.  When the callback returns, nothing else is changed and
    its value is the shim's. *)
Theorem shim_clears_context {A} (traceError : Ref) (callback : M A)
  (st : State) (outcome : Outcome A) (st1 : State) :
  callback (with_currentTraceError (Some traceError) st)
  = Some (outcome, st1) ->
  wf st1 ->
  (forall e, outcome = Threw e -> thrownValid st1 e) ->
  (exists outcome' st',
     shim traceError callback st = Some (outcome', st')
     /\ currentTraceError st' = None
     /\ wf st'
     /\ (forall a, outcome = Returned a ->
         outcome' = Returned a /\ st' = with_currentTraceError None st1)
     /\ (forall e, outcome = Threw e -> exists e', outcome' = Threw e'))
  /\ shim traceError (gets currentTraceError) st
     = Some (Returned (Some traceError), with_currentTraceError None st).
Proof.
  intros Hrun Hwf Hthrown. split; [| done].
  destruct outcome as [a | e].
  - exists (Returned a), (with_currentTraceError None st1).
    split; [by apply shim_returned |]. split; [done |].
    split; [by apply wf_clear_context |].
    split; [by intros ? [= <-] | done].
  - destruct (forceStack_total st1 e Hwf (Hthrown e eq_refl))
      as (forced & st2 & Hforce & _ & _ & _ & Hwf2).
    eexists _, _. split; [by eapply shim_threw |]. split; [done |].
    split; [by apply wf_clear_context |].
    split; [done |]. intros ? _. by eexists.
Qed.

(** Well-formedness, decided. *)
Definition addressOk (bound : nat) (address : option Ref) : bool :=
  match address with
  | Some r => r <? bound
  | None => true
  end.

Definition wfb (st : State) : bool :=
  forallb (fun e => addressOk (length (errors st)) (__parent__ e)
                    && addressOk (length (arrays st)) (__cached_trace__ e))
    (errors st)
  && addressOk (length (errors st)) (currentTraceError st).

Lemma wfb_wf st : wfb st = true -> wf st.
Proof.
  unfold wfb, wf. intros [Hobjects Hcurrent]%andb_true_iff. split.
  - intros i e He. rewrite forallb_forall in Hobjects.
    specialize (Hobjects e). rewrite <- list_elem_of_In in Hobjects.
    apply andb_true_iff in Hobjects as [Hp Hc];
      [| by eapply list_elem_of_lookup_2].
    split.
    + intros p Hparent. rewrite Hparent in Hp. by apply Nat.ltb_lt.
    + intros c Hcache. rewrite Hcache in Hc. by apply Nat.ltb_lt.
  - intros c Hc. rewrite Hc in Hcurrent. by apply Nat.ltb_lt.
Qed.

(** *** Capturing on a well-formed store *)

Lemma wf_alloc st e :
  wf st ->
  (forall p, __parent__ e = Some p -> p < length (errors st)) ->
  __cached_trace__ e = None ->
  wf (with_errors (fun es => es ++ [e]) st).
Proof.
  intros [Hobjects Hcurrent] Hparent Hcache. split.
  - intros i e' Hi. cbn in *. rewrite length_app. cbn.
    apply lookup_app_Some in Hi as [Hi | [_ Hi]].
    + destruct (Hobjects _ _ Hi) as [Hp Hc]. split; [| done].
      intros p Hpp. specialize (Hp p Hpp). lia.
    + destruct (i - length (errors st)); [| done].
      injection Hi as <-. split; [| by rewrite Hcache].
      intros p Hpp. specialize (Hparent p Hpp). lia.
  - intros c Hc. cbn in *. rewrite length_app. cbn.
    specialize (Hcurrent c Hc). lia.
Qed.

Lemma wf_delete_parent st p :
  wf st -> wf (with_errors (alter (set_parent None) p) st).
Proof.
  intros [Hobjects Hcurrent]. split.
  - intros i e Hi. cbn in *. rewrite length_alter.
    destruct (decide (p = i)) as [-> | Hne].
    + rewrite list_lookup_alter_eq in Hi.
      destruct (errors st !! i) as [e0 |] eqn:He0; [| done].
      injection Hi as <-. split; [done |]. by apply (Hobjects _ _ He0).
    + rewrite list_lookup_alter_ne in Hi by done. by apply (Hobjects i).
  - intros c Hc. cbn in *. rewrite length_alter. by apply Hcurrent.
Qed.

Lemma limitWalk_total st count : forall previous,
  wf st ->
  (forall p, previous = Some p -> p < length (errors st)) ->
  exists r,
    limitWalk count previous st = Some (Returned r, st)
    /\ (forall p, r = Some p -> p < length (errors st)).
Proof.
  induction count as [| count IH]; intros previous Hwf Hvalid.
  - exists previous. by destruct previous.
  - destruct previous as [p |]; [| by exists None].
    destruct count as [| count]; [by exists (Some p) |].
    destruct (lookup_lt_is_Some_2 _ _ (Hvalid p eq_refl)) as [e He].
    destruct (IH (__parent__ e) Hwf) as (r & Hrun & Hr).
    { destruct Hwf as [Hobjects _]. by apply (Hobjects _ _ He). }
    exists r. split; [| done].
    by rewrite limitWalk_step, (bind_run _ _ _ _ _ (getError_run _ _ _ He)).
Qed.

(** The head of the wrapped function returns on every well-formed store,
    with the new marker at the next address, and leaves the store
    well-formed and the context as it was. *)
Lemma capture_total st frames :
  wf st ->
  exists st',
    capture frames st = Some (Returned (length (errors st)), st')
    /\ wf st'
    /\ currentTraceError st' = currentTraceError st
    /\ options st' = options st
    /\ length (errors st') = S (length (errors st)).
Proof.
  intros Hwf. unfold capture.
  rewrite (bind_run _ _ st (ERROR_ID st) st) by done.
  rewrite (bind_run _ _ st tt (with_ERROR_ID (ERROR_ID st + 1) st)) by done.
  rewrite (bind_run _ _ _ (currentTraceError st)
             (with_ERROR_ID (ERROR_ID st + 1) st)) by done.
  assert (exists count,
    match currentTraceError st with
    | Some c => ce <- getError c ;; ret (__trace_count__ ce + 1)
    | None => ret 1
    end (with_ERROR_ID (ERROR_ID st + 1) st)
    = Some (Returned count, with_ERROR_ID (ERROR_ID st + 1) st)) as [count Hcount].
  { destruct (currentTraceError st) as [c |] eqn:Hc; [| by eexists].
    destruct Hwf as [_ Hcurrent].
    destruct (lookup_lt_is_Some_2 (errors st) c (Hcurrent c Hc)) as [ce Hce].
    eexists. by rewrite (bind_run _ _ _ _ _
                           (getError_run (with_ERROR_ID _ st) _ _ Hce)). }
  rewrite (bind_run _ _ _ _ _ Hcount).
  set (new := {| __id__ := ERROR_ID st; __parent__ := currentTraceError st;
                 __stack__ := frames; __trace_count__ := count;
                 __cached_trace__ := None; stack := StackFrames |}).
  set (st1 := with_errors (fun es => es ++ [new])
                (with_ERROR_ID (ERROR_ID st + 1) st)).
  assert (wf st1) as Hwf1.
  { apply wf_alloc; [by destruct Hwf | | done].
    destruct Hwf as [_ Hcurrent]. exact Hcurrent. }
  assert (length (errors st1) = S (length (errors st))) as Hlen1.
  { cbn. rewrite length_app. cbn. lia. }
  rewrite (bind_run _ _ _ (length (errors st)) st1) by done.
  rewrite (bind_run _ _ _ (Options.asyncTraceLimit (options st)) st1) by done.
  destruct (0 <? Options.asyncTraceLimit (options st))%Z.
  - destruct (limitWalk_total st1
                (Z.to_nat (Options.asyncTraceLimit (options st) - 1))
                (Some (length (errors st))) Hwf1) as (r & Hwalk & Hr).
    { intros p [= <-]. lia. }
    destruct r as [p |].
    + destruct (lookup_lt_is_Some_2 _ _ (Hr p eq_refl)) as [pe Hpe].
      eexists. split.
      { erewrite bind_run; [reflexivity |].
        erewrite bind_run; [| exact Hwalk].
        by apply updateError_run with (e := pe). }
      split; [by apply wf_delete_parent |]. cbn. rewrite length_alter.
      by rewrite length_app, Nat.add_1_r.
    + eexists. split.
      { erewrite bind_run; [reflexivity |].
        erewrite bind_run; [| exact Hwalk]. reflexivity. }
      done.
  - eexists. split; [by erewrite bind_run |]. done.
Qed.

(** *** What [wrap] hands to the entry point *)

Section WrapFacts.
Context {This Arg Res : Type}.
Implicit Types (callback listener : @Function This Arg Res).
Implicit Types (arguments args : list (@Argument This Arg Res)).

Lemma wrapCallback_length traceError arguments args pos :
  length (wrapCallback traceError arguments args pos) = length args.
Proof.
  unfold wrapCallback. destruct (arguments !! pos) as [[v | f] |]; try done.
  apply length_insert.
Qed.

Lemma foldl_wrapCallback_length traceError arguments positions : forall args,
  length (foldl (wrapCallback traceError arguments) args positions)
  = length args.
Proof.
  induction positions as [| pos positions IH]; intros args; [done |].
  cbn [foldl]. by rewrite IH, wrapCallback_length.
Qed.

Lemma foldl_wrapCallback_lookup traceError arguments positions : forall args pos,
  length args = length arguments ->
  foldl (wrapCallback traceError arguments) args positions !! pos
  = match arguments !! pos with
    | Some (ArgFunction callback) =>
        if bool_decide (pos ∈ positions)
        then Some (ArgFunction (makeShim traceError pos callback))
        else args !! pos
    | _ => args !! pos
    end.
Proof.
  induction positions as [| p positions IH]; intros args pos Hlen.
  - cbn [foldl]. rewrite bool_decide_eq_false_2 by apply not_elem_of_nil.
    by destruct (arguments !! pos) as [[v | f] |].
  - cbn [foldl]. rewrite IH by by rewrite wrapCallback_length.
    destruct (arguments !! pos) as [[v | callback] |] eqn:Hpos.
    + unfold wrapCallback.
      destruct (arguments !! p) as [[v' | f'] |] eqn:Hp; try done.
      rewrite list_lookup_insert_ne; [done |]. intros ->. congruence.
    + destruct (decide (pos ∈ positions)) as [Hin | Hnotin].
      * rewrite !bool_decide_eq_true_2; [done | | done].
        by apply list_elem_of_further.
      * rewrite (bool_decide_eq_false_2 (pos ∈ positions)) by done.
        destruct (decide (p = pos)) as [-> | Hne].
        -- rewrite bool_decide_eq_true_2 by apply list_elem_of_here.
           unfold wrapCallback. rewrite Hpos.
           apply list_lookup_insert_eq. rewrite Hlen.
           by eapply lookup_lt_Some.
        -- rewrite bool_decide_eq_false_2.
           ++ unfold wrapCallback.
              destruct (arguments !! p) as [[v' | f'] |]; try done.
              by rewrite list_lookup_insert_ne.
           ++ intros [Heq | Hin]%elem_of_cons; [by apply Hne | done].
    + unfold wrapCallback.
      destruct (arguments !! p) as [[v' | f'] |] eqn:Hp; try done.
      rewrite list_lookup_insert_ne; [done |]. intros ->. congruence.
Qed.

Lemma wrapCallbacks_length traceError positions arguments :
  length (wrapCallbacks traceError positions arguments) = length arguments.
Proof. apply foldl_wrapCallback_length. Qed.

Lemma wrapCallbacks_lookup traceError positions arguments pos :
  wrapCallbacks traceError positions arguments !! pos
  = match arguments !! pos with
    | Some (ArgFunction callback) =>
        if bool_decide (pos ∈ positions)
        then Some (ArgFunction (makeShim traceError pos callback))
        else Some (ArgFunction callback)
    | other => other
    end.
Proof.
  unfold wrapCallbacks. rewrite foldl_wrapCallback_lookup by done.
  by destruct (arguments !! pos) as [[v | callback] |].
Qed.

(** A shim calls the callback on its own [this] and arguments, and
    returns what it returns. *)
Lemma makeShim_call traceError pos callback this (arguments : list Arg)
  st value st' :
  call callback this arguments (with_currentTraceError (Some traceError) st)
  = Some (Returned value, st') ->
  call (makeShim traceError pos callback) this arguments st
  = Some (Returned value, with_currentTraceError None st').
Proof. intros Hrun. cbn [makeShim call]. by apply shim_returned. Qed.

(** C9.  The function [wrap] returns calls the original entry point on
    the same [this] (or constructs it), with an argument list of the same
    length in which every function at a callback position is replaced by
    its shim and every other argument is the one given; and a shim,
    invoked on some [this] and arguments, invokes the original callback
    on that [this] and those arguments and, when it returns, returns its
    value. *)
Theorem wrap_passes_through
  {Receiver Handle : Type}
  (originalApply : Receiver -> list (@Argument This Arg Res) -> M Handle)
  (originalConstruct : list (@Argument This Arg Res) -> M Handle)
  (wrapCallSite : CallSite -> CallSite)
  (handleTruthy : Handle -> bool)
  (defineStack : list EmbeddedFrame -> Handle -> Handle)
  (callbackPositions : nat + list nat) (embedStack isConstructor : bool)
  (stack : list CallSite) (this : Receiver) arguments
  (st : State) (traceError : Ref) (st1 : State) :
  capture stack st = Some (Returned traceError, st1) ->
  let args :=
    wrapCallbacks traceError (positionList callbackPositions) arguments in
  wrap originalApply originalConstruct wrapCallSite handleTruthy defineStack
    callbackPositions embedStack isConstructor stack this arguments st
  = (handle <- (if isConstructor then originalConstruct args
                else originalApply this args) ;;
     ret (if embedStack && handleTruthy handle
          then defineStack (embeddedStack wrapCallSite stack) handle
          else handle)) st1
  /\ length args = length arguments
  /\ (forall pos callback,
        pos ∈ positionList callbackPositions ->
        arguments !! pos = Some (ArgFunction callback) ->
        args !! pos = Some (ArgFunction (makeShim traceError pos callback)))
  /\ (forall pos,
        pos ∉ positionList callbackPositions
        \/ (forall callback, arguments !! pos ≠ Some (ArgFunction callback)) ->
        args !! pos = arguments !! pos)
  /\ (forall pos callback (this' : This) (arguments' : list Arg) st2 value st3,
        call callback this' arguments'
          (with_currentTraceError (Some traceError) st2)
        = Some (Returned value, st3) ->
        call (makeShim traceError pos callback) this' arguments' st2
        = Some (Returned value, with_currentTraceError None st3)).
Proof.
  intros Hcapture args. split; [| split; [| split; [| split]]].
  - unfold wrap. by rewrite (bind_run _ _ _ _ _ Hcapture).
  - apply wrapCallbacks_length.
  - intros pos callback Hin Hpos. unfold args.
    by rewrite wrapCallbacks_lookup, Hpos, bool_decide_eq_true_2.
  - intros pos Hpos. unfold args. rewrite wrapCallbacks_lookup.
    destruct (arguments !! pos) as [[v | callback] |] eqn:Harg; try done.
    destruct Hpos as [Hnotin | Hnone].
    + by rewrite bool_decide_eq_false_2.
    + by destruct (Hnone callback).
  - intros pos callback this' arguments' st2 value st3.
    apply makeShim_call.
Qed.

(** *** Listeners *)

Implicit Types (emitter : @EventEmitter This Arg Res).

Lemma _listeners_addListener emitter type listener :
  _listeners (_addListener emitter type listener) type
  = _listeners emitter type ++ [listener].
Proof. unfold _listeners at 1. cbn. by rewrite lookup_insert_eq. Qed.

Lemma _listeners_addListener_other emitter type type' listener :
  type ≠ type' ->
  _listeners (_addListener emitter type listener) type'
  = _listeners emitter type'.
Proof. intros Hne. unfold _listeners. cbn. by rewrite lookup_insert_ne. Qed.

(** Registering through the patched [addListener] stores the shim made
    for the listener at position 1. *)
Lemma addListener_run stack emitter type listener st :
  wf st ->
  exists st',
    addListener stack emitter type listener st
    = Some (Returned
              (_addListener emitter type
                 (makeShim (length (errors st)) 1 listener)), st')
    /\ wf st'
    /\ length (errors st') = S (length (errors st)).
Proof.
  intros Hwf.
  destruct (capture_total st stack Hwf)
    as (st' & Hcapture & Hwf' & _ & _ & Hlen).
  exists st'. split; [| done]. unfold addListener, wrap.
  by rewrite (bind_run _ _ _ _ _ Hcapture).
Qed.

(** Registering several listeners in turn. *)
Fixpoint addListeners
  (registrations : list (list CallSite * @Function This Arg Res))
  emitter (type : string) : M EventEmitter :=
  match registrations with
  | [] => ret emitter
  | (stack, listener) :: rest =>
      emitter' <- addListener stack emitter type listener ;;
      addListeners rest emitter' type
  end.

(** A shim made for a marker that exists. *)
Definition shimOfMarker (st : State) (f : @Function This Arg Res) : Prop :=
  exists traceError pos,
    identity f = ShimFunction traceError pos
    /\ traceError < length (errors st).

(** The callbacks are enumerated in the order of registration, and the
    array holds a new function object for each registration. *)
Lemma addListeners_listeners registrations : forall emitter type st,
  wf st ->
  NoDup (identity <$> _listeners emitter type) ->
  Forall (shimOfMarker st) (_listeners emitter type) ->
  exists emitter' st',
    addListeners registrations emitter type st = Some (Returned emitter', st')
    /\ listeners emitter' type = listeners emitter type ++ registrations.*2
    /\ NoDup (identity <$> _listeners emitter' type)
    /\ Forall (shimOfMarker st') (_listeners emitter' type)
    /\ wf st'.
Proof.
  induction registrations as [| [stack listener] rest IH];
    intros emitter type st Hwf Hnd Hshims.
  - exists emitter, st. by rewrite app_nil_r.
  - destruct (addListener_run stack emitter type listener st Hwf)
      as (st1 & Hadd & Hwf1 & Hlen1).
    destruct (IH (_addListener emitter type
                    (makeShim (length (errors st)) 1 listener)) type st1 Hwf1)
      as (emitter' & st' & Hrun & Hlisteners & Hnd' & Hshims' & Hwf').
    { rewrite _listeners_addListener, fmap_app. apply NoDup_app.
      split; [done |]. split; [| apply NoDup_singleton].
      intros id Hin Hnew. apply list_elem_of_singleton in Hnew. subst id.
      apply list_elem_of_fmap in Hin as (f & Hid & Hin).
      rewrite Forall_forall in Hshims.
      destruct (Hshims f Hin) as (traceError & pos & Hf & Hlt).
      cbn in Hid. rewrite Hf in Hid. injection Hid as <- _. lia. }
    { rewrite _listeners_addListener. apply Forall_app. split.
      - eapply Forall_impl; [exact Hshims |].
        intros f (traceError & pos & Hf & Hlt).
        exists traceError, pos. split; [done |]. lia.
      - repeat constructor. exists (length (errors st)), 1.
        split; [done |]. lia. }
    exists emitter', st'. split.
    { cbn [addListeners]. by rewrite (bind_run _ _ _ _ _ Hadd). }
    split; [| done].
    rewrite Hlisteners. unfold listeners at 1.
    by rewrite _listeners_addListener, map_app, <- app_assoc.
Qed.

(** *** Removing a listener *)

Lemma identical_refl listener : identical listener listener = true.
Proof. unfold identical. by rewrite bool_decide_eq_true_2. Qed.

Lemma removeFirst_app listener (before after : list (@Function This Arg Res)) :
  Forall (fun f => identical f listener = false) before ->
  removeFirst listener (before ++ listener :: after) = before ++ after.
Proof.
  induction before as [| f before IH]; intros Hbefore; cbn.
  - by rewrite identical_refl.
  - apply Forall_cons in Hbefore as [Hf Hbefore]. by rewrite Hf, IH.
Qed.

(** When no function object occurs twice in the array, removing the most
    recently added instance of one removes that one. *)
Lemma removeLast_unique listener (before after : list (@Function This Arg Res)) :
  NoDup (identity <$> (before ++ listener :: after)) ->
  removeLast listener (before ++ listener :: after) = before ++ after.
Proof.
  intros Hnd. unfold removeLast.
  rewrite reverse_app, reverse_cons, <- app_assoc. cbn [app].
  rewrite removeFirst_app.
  - by rewrite reverse_app, !reverse_involutive.
  - apply Forall_forall. intros f Hin. rewrite elem_of_reverse in Hin.
    unfold identical. apply bool_decide_eq_false_2. intros Heq.
    rewrite fmap_app in Hnd. cbn in Hnd.
    apply NoDup_app in Hnd as (_ & _ & Hnd).
    apply NoDup_cons in Hnd as [Hnotin _]. apply Hnotin.
    rewrite <- Heq. apply list_elem_of_fmap. by exists f.
Qed.

Lemma removeListenerLoop_none emitter type listener array :
  Forall (fun f => identical (unwrapped f) listener = false
                   /\ identical f listener = false) array ->
  removeListenerLoop emitter type listener array = emitter.
Proof.
  induction array as [| f array IH]; intros Hnone; [done |].
  apply Forall_cons in Hnone as [[Horiginal Hshim] Hnone].
  cbn. by rewrite Horiginal, Hshim, IH.
Qed.

Lemma removeListenerLoop_first emitter type listener before w after :
  Forall (fun f => identical (unwrapped f) listener = false
                   /\ identical f listener = false) before ->
  identical (unwrapped w) listener || identical w listener = true ->
  removeListenerLoop emitter type listener (before ++ w :: after)
  = _removeListener emitter type w.
Proof.
  induction before as [| f before IH]; intros Hbefore Hw; cbn.
  - by rewrite Hw.
  - apply Forall_cons in Hbefore as [[Horiginal Hshim] Hbefore].
    by rewrite Horiginal, Hshim, IH.
Qed.

Lemma _listeners_removeListener emitter type listener :
  _listeners (_removeListener emitter type listener) type
  = removeLast listener (_listeners emitter type).
Proof. unfold _listeners at 1. cbn. by rewrite lookup_insert_eq. Qed.

(** C5.  Enumeration gives the original callbacks, in the order of
    registration: on an emitter with no listener for the event, after
    registering callbacks through the patched [addListener], [listeners]
    returns exactly those callbacks.  Removal matches by the original:
    when the array holds no function object twice and [w] is the first
    registered function whose stored original is the given callback,
    [removeListener] removes [w] and nothing else, so [w] is no longer in
    the array that [emit] runs, the enumeration loses that entry, and
    if no other registration has the callback as its original, the
    callback is gone from the enumeration. *)
Theorem listeners_by_original :
  (forall registrations emitter type st,
     wf st -> _listeners emitter type = [] ->
     exists emitter' st',
       addListeners registrations emitter type st
       = Some (Returned emitter', st')
       /\ listeners emitter' type = registrations.*2
       /\ NoDup (identity <$> _listeners emitter' type))
  /\ (forall emitter type listener before w after,
        _listeners emitter type = before ++ w :: after ->
        NoDup (identity <$> (before ++ w :: after)) ->
        Forall (fun f => identical (unwrapped f) listener = false
                         /\ identical f listener = false) before ->
        identical (unwrapped w) listener = true ->
        _listeners (removeListener emitter type listener) type
        = before ++ after
        /\ listeners (removeListener emitter type listener) type
           = map unwrapped before ++ map unwrapped after
        /\ Forall (fun f => identity f ≠ identity w)
             (_listeners (removeListener emitter type listener) type)
        /\ (forall this (values : list Arg),
              emit (removeListener emitter type listener) type this values
              = (invokeAll (before ++ after) this values ;;
                 ret (bool_decide (before ++ after ≠ []))))
        /\ (Forall (fun f => identical (unwrapped f) listener = false) after ->
            Forall (fun f => identical f listener = false)
              (listeners (removeListener emitter type listener) type))).
Proof.
  split.
  - intros registrations emitter type st Hwf Hempty.
    destruct (addListeners_listeners registrations emitter type st Hwf)
      as (emitter' & st' & Hrun & Hlisteners & Hnd & _).
    { rewrite Hempty. constructor. }
    { rewrite Hempty. constructor. }
    exists emitter', st'. split; [done |]. split; [| done].
    rewrite Hlisteners. unfold listeners. by rewrite Hempty.
  - intros emitter type listener before w after Harray Hnd Hbefore Hw.
    assert (_listeners (removeListener emitter type listener) type
            = before ++ after) as Hremoved.
    { unfold removeListener. rewrite Harray.
      rewrite removeListenerLoop_first by (by rewrite ?Hw).
      rewrite _listeners_removeListener, Harray.
      by apply removeLast_unique. }
    split; [done |]. split; [| split; [| split]].
    + unfold listeners. by rewrite Hremoved, map_app.
    + rewrite Hremoved. apply Forall_forall. intros f Hin Heq.
      rewrite fmap_app in Hnd. cbn in Hnd.
      apply elem_of_app in Hin as [Hin | Hin].
      * apply NoDup_app in Hnd as (_ & Hdisjoint & _).
        apply (Hdisjoint (identity f)).
        -- apply list_elem_of_fmap. by exists f.
        -- rewrite Heq. apply list_elem_of_here.
      * apply NoDup_app in Hnd as (_ & _ & Hnd).
        apply NoDup_cons in Hnd as [Hnotin _]. apply Hnotin.
        rewrite <- Heq. apply list_elem_of_fmap. by exists f.
    + intros this values. unfold emit. by rewrite Hremoved.
    + intros Hafter. unfold listeners. rewrite Hremoved, map_app.
      apply Forall_app. split; apply Forall_fmap.
      * eapply Forall_impl; [exact Hbefore |]. by intros f [Hf _].
      * exact Hafter.
Qed.

(** C10.  When no registered function has the given function as its
    stored original or is the given function itself, [removeListener]
    returns the emitter it was called on, with its listeners as they
    were. *)
Theorem removeListener_without_match emitter type listener :
  Forall (fun f => identical (unwrapped f) listener = false
                   /\ identical f listener = false)
    (_listeners emitter type) ->
  removeListener emitter type listener = emitter.
Proof. apply removeListenerLoop_none. Qed.

End WrapFacts.

(** *** Nested chains *)

(** The number of markers reachable from a new marker whose parent
    reaches [n]. *)
Definition grow (limit : Z) (n : nat) : nat :=
  if (0 <? limit)%Z then Nat.min (S (Z.to_nat (limit - 1) - 1)) (S n)
  else S n.

Lemma limited_length limit x chain :
  length (limited limit (x :: chain)) = grow limit (length chain).
Proof.
  unfold limited, grow. destruct (0 <? limit)%Z; [| done].
  by rewrite length_take.
Qed.

Lemma limited_own limit (chain : list (nat * list CallSite)) :
  Forall (fun frames => ownFrames frames <> []) chain.*2 ->
  Forall (fun frames => ownFrames frames <> []) (limited limit chain).*2.
Proof.
  unfold limited. destruct (0 <? limit)%Z; [| done].
  intros Hall. rewrite fmap_take. by apply Forall_take.
Qed.

Section Nested.
Variable errorFrames : list CallSite.

Lemma fire_raise st traceError chain :
  linked (errors st) (Some traceError) chain ->
  NoDup chain.*1 ->
  Forall (fun frames => ownFrames frames <> []) chain.*2 ->
  has_newline (Options.emptyFrame (options st)) = false ->
  (forall error sites, Options.emptyFrame (options st)
                       ∉ split_lines (origPrepareStackTrace error sites)) ->
  exists error text e' st',
    fire (Raise errorFrames) traceError st
    = Some (Threw (ThrownError error), st')
    /\ errors st' !! error = Some e' /\ stack e' = StackText text
    /\ separatorTokens (Options.emptyFrame (options st)) text = length chain.
Proof.
  intros Hl Hnd Hown Htoken Hfresh.
  set (error := length (errors st)).
  set (new := {| __id__ := 0; __parent__ := None; __stack__ := errorFrames;
                 __trace_count__ := 0; __cached_trace__ := None;
                 stack := StackPending |}).
  set (st1 := with_errors (fun es => es ++ [new])
                (with_currentTraceError (Some traceError) st)).
  destruct (readStack_fresh st1 error new chain)
    as (text & st2 & Hread & Hcount & (e' & He' & Htext) & Hcur & Hopt);
    try done.
  { by apply list_lookup_middle. }
  { cbn. by apply linked_alloc. }
  { intros Hin. apply linked_valid in Hl. rewrite Forall_forall in Hl.
    specialize (Hl _ Hin). unfold error in Hl. lia. }
  exists error, text, e'. eexists. split.
  { cbn [fire]. eapply (shim_threw _ _ _ (ThrownError error) st1 (Returned tt)).
    - reflexivity.
    - cbn [forceStack]. by rewrite (bind_run _ _ _ _ _ Hread). }
  done.
Qed.

Lemma fire_nested stacks : forall st traceError chain,
  linked (errors st) (Some traceError) chain ->
  NoDup chain.*1 ->
  Forall (fun frames => ownFrames frames <> []) chain.*2 ->
  Forall (fun frames => ownFrames frames <> []) stacks ->
  has_newline (Options.emptyFrame (options st)) = false ->
  (forall error sites, Options.emptyFrame (options st)
                       ∉ split_lines (origPrepareStackTrace error sites)) ->
  exists error text e' st',
    fire (nested stacks errorFrames) traceError st
    = Some (Threw (ThrownError error), st')
    /\ errors st' !! error = Some e' /\ stack e' = StackText text
    /\ separatorTokens (Options.emptyFrame (options st)) text
       = Nat.iter (length stacks)
           (grow (Options.asyncTraceLimit (options st))) (length chain).
Proof.
  induction stacks as [| frames stacks IH];
    intros st traceError chain Hl Hnd Hown Hstacks Htoken Hfresh.
  - by apply fire_raise.
  - apply Forall_cons in Hstacks as [Hframes Hstacks].
    destruct (capture_linked (with_currentTraceError (Some traceError) st)
                chain frames Hl Hnd)
      as (st1 & Hcapture & Hl1 & Hnd1 & Hcur & Hopt & _).
    cbn [errors with_currentTraceError options] in *.
    set (chain' := limited (Options.asyncTraceLimit (options st))
                     ((length (errors st), frames) :: chain)) in *.
    destruct (IH (with_currentTraceError None st1) (length (errors st)) chain')
      as (error & text & e' & st' & Hfire & He' & Htext & Hcount); try done.
    { apply limited_own. by constructor. }
    { cbn. by rewrite Hopt. }
    { cbn. by rewrite Hopt. }
    exists error, text, e', st'. split.
    { change (nested (frames :: stacks) errorFrames)
        with (Schedule frames (nested stacks errorFrames)).
      cbn [fire].
      by rewrite (bind_run _ _ _ _ _ (shim_returned _ _ _ _ _ Hcapture)). }
    cbn [options with_currentTraceError] in Hcount. rewrite Hopt in Hcount.
    split; [done |]. split; [done |].
    rewrite Hcount. unfold chain'. rewrite limited_length.
    cbn [length]. by rewrite Nat.iter_succ_r.
Qed.

(** The trace of the error a chain of nested boundaries ends in, from a
    state outside any shim. *)
Lemma renderedTrace_nested stacks st :
  currentTraceError st = None ->
  Forall (fun frames => ownFrames frames <> []) stacks ->
  has_newline (Options.emptyFrame (options st)) = false ->
  (forall error sites, Options.emptyFrame (options st)
                       ∉ split_lines (origPrepareStackTrace error sites)) ->
  exists text,
    renderedTrace (nested stacks errorFrames) st = Some text
    /\ separatorTokens (Options.emptyFrame (options st)) text
       = Nat.iter (length stacks)
           (grow (Options.asyncTraceLimit (options st))) 0.
Proof.
  intros Hcurrent Hstacks Htoken Hfresh.
  destruct stacks as [| frames stacks].
  - set (error := length (errors st)).
    set (new := {| __id__ := 0; __parent__ := None; __stack__ := errorFrames;
                   __trace_count__ := 0; __cached_trace__ := None;
                   stack := StackPending |}).
    set (st1 := with_errors (fun es => es ++ [new]) st).
    destruct (readStack_fresh st1 error new [])
      as (text & st2 & Hread & Hcount & _); try done.
    { by apply list_lookup_middle. }
    { constructor. }
    { by apply not_elem_of_nil. }
    exists text. split; [| done].
    unfold renderedTrace, uncaughtStack, try_catch. cbn [nested foldr run].
    unfold bind at 1 2. cbn [newError allocError throw].
    fold error new st1. by rewrite Hread.
  - apply Forall_cons in Hstacks as [Hframes Hstacks].
    destruct (capture_linked st [] frames) as
      (st1 & Hcapture & Hl1 & Hnd1 & Hcur & Hopt & _);
      [by rewrite Hcurrent | constructor |].
    set (chain' := limited (Options.asyncTraceLimit (options st))
                     [(length (errors st), frames)]) in *.
    destruct (fire_nested stacks st1 (length (errors st)) chain')
      as (error & text & e' & st' & Hfire & He' & Htext & Hcount); try done.
    { apply limited_own. by repeat constructor. }
    { by rewrite Hopt. }
    { by rewrite Hopt. }
    exists text. split.
    { unfold renderedTrace, uncaughtStack, try_catch.
      change (nested (frames :: stacks) errorFrames)
        with (Schedule frames (nested stacks errorFrames)).
      cbn [run].
      unfold bind at 1. rewrite (bind_run _ _ _ _ _ Hcapture), Hfire.
      by rewrite (readStack_text _ _ _ _ He' Htext). }
    rewrite Hopt in Hcount. rewrite Hcount. unfold chain'.
    rewrite limited_length. cbn [length]. by rewrite Nat.iter_succ_r.
Qed.

End Nested.


Lemma iter_grow_limited limit n :
  (0 < limit)%Z ->
  Nat.iter n (grow limit) 0 = Nat.min n (Nat.max (Z.to_nat limit - 1) 1).
Proof.
  intros Hlimit. induction n as [| n IH]; [done |].
  rewrite Nat.iter_succ, IH. unfold grow.
  destruct (0 <? limit)%Z eqn:E; lia.
Qed.


(** C1 (amended).  Take a chain of N nested scheduling boundaries made
    while the limit is L > 0, of the plain kind [nested] describes: the
    first scheduling call is made outside any callback, every callback
    does nothing but make the next scheduling call (the scheduler itself
    making no further wrapped call), and the innermost callback raises
    the error; so no callback reads a stack, and no other shim runs
    inside one.  Let each scheduling call have a frame
    outside the module in its stack, let [options.emptyFrame] be one
    line, and let no line of the text the previous hook renders be that
    line.  Then the trace of the error has exactly
    min(N, max(L - 1, 1)) separator tokens: N of them when N < L, and
    L - 1 when N >= L >= 2.  (Outside such chains the count can differ
    both ways: see [stack_reading_callbacks_keep_ancestors] and
    [finished_shim_cuts_the_chain].) *)
Theorem nested_chain_separators
  (stacks : list (list CallSite)) (errorFrames : list CallSite)
  (st : State) (limit : nat) :
  0 < limit ->
  Options.asyncTraceLimit (options st) = Z.of_nat limit ->
  currentTraceError st = None ->
  Forall (Exists (fun site => internal site = false)) stacks ->
  has_newline (Options.emptyFrame (options st)) = false ->
  (forall error sites, Options.emptyFrame (options st)
                       ∉ split_lines (origPrepareStackTrace error sites)) ->
  exists text,
    renderedTrace (nested stacks errorFrames) st = Some text
    /\ separatorTokens (Options.emptyFrame (options st)) text
       = Nat.min (length stacks) (Nat.max (limit - 1) 1)
    /\ (length stacks < limit ->
        separatorTokens (Options.emptyFrame (options st)) text
        = length stacks)
    /\ (2 <= limit -> limit <= length stacks ->
        separatorTokens (Options.emptyFrame (options st)) text = limit - 1).
Proof.
  intros Hpos Hlimit Hcurrent Hstacks Htoken Hfresh.
  destruct (renderedTrace_nested errorFrames stacks st)
    as (text & Htrace & Hcount); try done.
  { eapply Forall_impl; [exact Hstacks |]. apply ownFrames_nonempty. }
  exists text. split; [done |].
  rewrite Hcount, Hlimit, iter_grow_limited by lia.
  rewrite Nat2Z.id. lia.
Qed.


(** *** What the loop of [processStackTrace] keeps *)

(** Two call sites that differ at most in what [getMethodName] returns. *)
Definition sameFrame (a b : CallSite) : Prop :=
  getFileName a = getFileName b /\ getFunctionName a = getFunctionName b
  /\ getLineNumber a = getLineNumber b
  /\ getColumnNumber a = getColumnNumber b
  /\ describe a = describe b.

Lemma ownFrames_external stack :
  Forall (fun site => internal site = false) (ownFrames stack).
Proof.
  induction stack as [| site rest IH]; cbn [ownFrames]; [constructor |].
  destruct (internal site) eqn:Hsite; [done |].
  constructor; [| done].
  destruct rest as [| next rest]; [done |].
  by destruct (internal next && lacksMethodName site).
Qed.

Lemma ownFrames_sameFrame stack :
  Forall2 sameFrame (ownFrames stack)
    (filter (fun site => internal site = false) stack).
Proof.
  induction stack as [| site rest IH]; cbn [ownFrames]; [constructor |].
  destruct (internal site) eqn:Hsite.
  - rewrite filter_cons_False by (by rewrite Hsite). done.
  - rewrite filter_cons_True by done. constructor; [| done].
    destruct rest as [| next rest]; [done |].
    by destruct (internal next && lacksMethodName site).
Qed.

Lemma ownFrames_no_internal stack :
  Forall (fun site => internal site = false) stack -> ownFrames stack = stack.
Proof.
  induction 1 as [| site rest Hsite Hrest IH]; cbn [ownFrames]; [done |].
  rewrite Hsite, IH. destruct rest as [| next rest]; [done |].
  apply Forall_cons in Hrest as [-> _]. done.
Qed.

Lemma ownFrames_named stack site :
  site ∈ stack -> internal site = false -> lacksMethodName site = false ->
  site ∈ ownFrames stack.
Proof.
  intros Hin Hsite Hnamed.
  induction stack as [| site' rest IH]; [by apply not_elem_of_nil in Hin |].
  cbn [ownFrames]. apply elem_of_cons in Hin as [<- | Hin].
  - rewrite Hsite. destruct rest as [| next rest]; [apply list_elem_of_here |].
    rewrite Hnamed, andb_false_r. apply list_elem_of_here.
  - destruct (internal site'); [by apply IH |].
    apply list_elem_of_further. by apply IH.
Qed.

Lemma ownFrames_origin stack kept :
  kept ∈ ownFrames stack ->
  kept ∈ stack
  \/ exists i site next,
       stack !! i = Some site /\ stack !! S i = Some next
       /\ internal next = true /\ lacksMethodName site = true
       /\ kept = defineMethodName (getMethodName next) site.
Proof.
  induction stack as [| site rest IH]; cbn [ownFrames];
    [by intros ?%not_elem_of_nil |].
  assert (kept ∈ ownFrames rest ->
          kept ∈ site :: rest
          \/ exists i site0 next,
               (site :: rest) !! i = Some site0
               /\ (site :: rest) !! S i = Some next
               /\ internal next = true /\ lacksMethodName site0 = true
               /\ kept = defineMethodName (getMethodName next) site0) as Hrest.
  { intros [Hin | (i & site0 & next & H1 & H2 & H3)]%IH.
    - left. by apply list_elem_of_further.
    - right. by exists (S i), site0, next. }
  destruct (internal site); [exact Hrest |].
  intros [-> | Hin]%elem_of_cons; [| by apply Hrest].
  destruct rest as [| next rest]; [left; apply list_elem_of_here |].
  destruct (internal next) eqn:Hnext; cbn [andb];
    [| left; apply list_elem_of_here].
  destruct (lacksMethodName site) eqn:Hlacks; [| left; apply list_elem_of_here].
  right. by exists 0, site, next.
Qed.

(** X5.  Of the call sites of a stack the loop keeps exactly those that
    are not in the module's own file, in their order, and alters nothing
    about them but the method name: a stack that does not pass through
    the module is kept as it is, a kept site that has a method name is
    kept unchanged, and a kept site that was changed is one with no
    method name, directly followed by a site of the module, whose method
    name it now carries. *)
Theorem ownFrames_keeps_external_frames (stack : list CallSite) :
  Forall (fun site => internal site = false) (ownFrames stack)
  /\ Forall2 sameFrame (ownFrames stack)
       (filter (fun site => internal site = false) stack)
  /\ (Forall (fun site => internal site = false) stack ->
      ownFrames stack = stack)
  /\ (forall site, site ∈ stack -> internal site = false ->
      lacksMethodName site = false -> site ∈ ownFrames stack)
  /\ (forall kept, kept ∈ ownFrames stack ->
      kept ∈ stack
      \/ exists i site next,
           stack !! i = Some site /\ stack !! S i = Some next
           /\ internal next = true /\ lacksMethodName site = true
           /\ kept = defineMethodName (getMethodName next) site).
Proof.
  split; [apply ownFrames_external |].
  split; [apply ownFrames_sameFrame |].
  split; [apply ownFrames_no_internal |].
  split; [apply ownFrames_named | apply ownFrames_origin].
Qed.

(** *** What flattening touches *)

Lemma bind_inv {A B} (m : M A) (k : A -> M B) st outcome st' :
  bind m k st = Some (outcome, st') ->
  (exists t, m st = Some (Threw t, st') /\ outcome = Threw t)
  \/ exists a st1, m st = Some (Returned a, st1) /\ k a st1 = Some (outcome, st').
Proof.
  unfold bind. destruct (m st) as [[[a | t] st1] |]; [| | done].
  - intros Hk. right. by exists a, st1.
  - intros [= <- <-]. left. by exists t.
Qed.

Lemma getError_inv error st outcome st' :
  getError error st = Some (outcome, st') ->
  exists e, errors st !! error = Some e /\ outcome = Returned e /\ st' = st.
Proof.
  unfold getError. destruct (errors st !! error) as [e |]; [| done].
  intros [= <- <-]. by exists e.
Qed.

Lemma updateError_inv error f st outcome st' :
  updateError error f st = Some (outcome, st') ->
  outcome = Returned tt /\ st' = with_errors (alter f error) st.
Proof.
  unfold updateError. intros [(t & Hm & _) | (e & st1 & Hm & Hk)]%bind_inv.
  - by apply getError_inv in Hm as (? & _ & ? & _).
  - apply getError_inv in Hm as (? & _ & _ & ->). by injection Hk as <- <-.
Qed.

Lemma readArray_inv array st outcome st' :
  readArray array st = Some (outcome, st') ->
  exists content, arrays st !! array = Some content
                  /\ outcome = Returned content /\ st' = st.
Proof.
  unfold readArray. destruct (arrays st !! array) as [content |]; [| done].
  intros [= <- <-]. by exists content.
Qed.

Lemma pushArray_inv array items st outcome st' :
  pushArray array items st = Some (outcome, st') ->
  exists content, arrays st !! array = Some content
    /\ outcome = Returned tt
    /\ st' = with_arrays (<[array := content ++ items]>) st.
Proof.
  unfold pushArray, writeArray.
  intros [(t & Hm & _) | (content & st1 & Hm & Hk)]%bind_inv.
  - by apply readArray_inv in Hm as (? & _ & ? & _).
  - apply readArray_inv in Hm as (? & Hc & [= <-] & ->).
    apply bind_inv in Hk as [(t & Hm & _) | (? & st2 & Hm & Hk)].
    + by apply readArray_inv in Hm as (? & _ & ? & _).
    + apply readArray_inv in Hm as (? & _ & _ & ->).
      injection Hk as <- <-. by exists content.
Qed.

Lemma sameFrames_refl (frames : list CallSite) : Forall2 sameFrame frames frames.
Proof. induction frames; constructor; [by repeat split | done]. Qed.

Lemma sameFrames_trans (a b c : list CallSite) :
  Forall2 sameFrame a b -> Forall2 sameFrame b c -> Forall2 sameFrame a c.
Proof.
  intros Hab. revert c.
  induction Hab as [| x y a b (H1 & H2 & H3 & H4 & H5) Hab IH]; intros c Hbc.
  - by inversion Hbc.
  - inversion Hbc as [| y' z b' c' (G1 & G2 & G3 & G4 & G5) Hbc']; subst.
    constructor; [| by apply IH]. repeat split; congruence.
Qed.

(** What a call [processStackTrace(error, stack, recursing)] made while
    the context slot holds [current] may have done to the Error objects:
    each is still there with its [__id__], [__trace_count__] and
    [stack]; its [__stack__] holds the call sites it held, in their
    order, the same but for the method names the loop defines on call
    sites; its [__parent__] is what it was, unless the object is [error]
    itself in a call from outside that found neither a cache nor a
    parent on it, where it is [current]. *)
Definition retouched (error : Ref) (recursing : bool) (current : option Ref)
  (es es' : list ErrorObject) : Prop :=
  length es' = length es
  /\ forall i e, es !! i = Some e ->
       exists e', es' !! i = Some e'
         /\ __id__ e' = __id__ e
         /\ Forall2 sameFrame (__stack__ e') (__stack__ e)
         /\ __trace_count__ e' = __trace_count__ e /\ stack e' = stack e
         /\ __parent__ e'
            = if bool_decide (i = error) && negb recursing
                 && bool_decide (__parent__ e = None)
                 && bool_decide (__cached_trace__ e = None)
              then current else __parent__ e.

Lemma retouched_refl x c es : retouched x true c es es.
Proof.
  split; [done |]. intros i e He. exists e.
  split; [done |]. split; [done |]. split; [apply sameFrames_refl |].
  split; [done |]. split; [done |]. by rewrite andb_false_r.
Qed.

Lemma retouched_trans x recursing c y c' es es1 es2 :
  retouched x recursing c es es1 -> retouched y true c' es1 es2 ->
  retouched x recursing c es es2.
Proof.
  intros [Hlen1 H1] [Hlen2 H2]. split; [congruence |].
  intros i e He.
  destruct (H1 i e He) as (e1 & He1 & Hid1 & Hstack1 & Hcount1 & Htext1 & Hp1).
  destruct (H2 i e1 He1) as (e2 & He2 & Hid2 & Hstack2 & Hcount2 & Htext2 & Hp2).
  exists e2. rewrite andb_false_r in Hp2. cbn in Hp2.
  split; [done |]. split; [congruence |].
  split; [by eapply sameFrames_trans |].
  repeat split; congruence.
Qed.

Lemma processStackTrace_fuel_retouched fuel :
  forall st error frames recursing outcome st',
    processStackTrace_fuel fuel error frames recursing st
    = Some (outcome, st') ->
    (exists cache, outcome = Returned cache)
    /\ retouched error recursing (currentTraceError st) (errors st) (errors st')
    /\ ERROR_ID st' = ERROR_ID st
    /\ currentTraceError st' = currentTraceError st.
Proof.
  induction fuel as [| fuel IH]; intros st error frames recursing outcome st' Hrun;
    [done |].
  rewrite processStackTrace_fuel_step in Hrun.
  apply bind_inv in Hrun as [(t & Hm & _) | (e & st0 & He & Hrun)];
    [by apply getError_inv in Hm as (? & _ & ? & _) |].
  apply getError_inv in He as (? & He & [= <-] & ->).
  destruct (__cached_trace__ e) as [cache |] eqn:Hcache.
  { injection Hrun as <- <-. split; [by eexists |]. split; [| done].
    split; [done |].
    intros i e0 He0. exists e0.
    split; [done |]. split; [done |]. split; [apply sameFrames_refl |].
    split; [done |]. split; [done |].
    destruct (decide (i = error)) as [-> |].
    - rewrite He in He0. injection He0 as <-. rewrite Hcache.
      by rewrite (bool_decide_eq_false_2 (Some cache = None)), andb_false_r.
    - by rewrite (bool_decide_eq_false_2 (i = error)). }
  apply bind_inv in Hrun as [(t & Hm & _) | (cache & st1 & Halloc & Hrun)];
    [done |].
  injection Halloc as <- <-.
  apply bind_inv in Hrun as [(t & Hm & _) | ([] & st2 & Hupd & Hrun)];
    [by apply updateError_inv in Hm as [? _] |].
  apply updateError_inv in Hupd as [_ ->].
  apply bind_inv in Hrun as [(t & Hm & _) | ([] & st3 & Hpush & Hrun)];
    [by apply pushArray_inv in Hm as (? & _ & ? & _) |].
  apply pushArray_inv in Hpush as (own & _ & _ & ->).
  apply bind_inv in Hrun as [(t & Hm & _) | ([] & st4 & Hlink & Hrun)].
  { destruct (bool_decide (__parent__ e = None) && negb recursing); [| done].
    apply bind_inv in Hm as [(? & ? & _) | (? & ? & [= <- <-] & Hm)]; [done |].
    by apply updateError_inv in Hm as [? _]. }
  set (es1 := alter (set_cached_trace (length (arrays st))) error (errors st))
    in *.
  assert (currentTraceError st4 = currentTraceError st
    /\ ERROR_ID st4 = ERROR_ID st
    /\ errors st4 = if bool_decide (__parent__ e = None) && negb recursing
                    then alter (set_parent (currentTraceError st)) error es1
                    else es1) as (Hcur4 & Hid4 & Hes4).
  { destruct (bool_decide (__parent__ e = None) && negb recursing).
    - apply bind_inv in Hlink as [(? & ? & _) | (? & ? & [= <- <-] & Hm)];
        [done |].
      by apply updateError_inv in Hm as [_ ->].
    - by injection Hlink as <-. }
  assert (retouched error recursing (currentTraceError st) (errors st)
            (errors st4)) as Hfirst.
  { split.
    - rewrite Hes4. unfold es1.
      destruct (bool_decide (__parent__ e = None) && negb recursing);
        by rewrite ?length_alter.
    - intros i e0 He0. destruct (decide (i = error)) as [-> | Hne].
      + rewrite He in He0. injection He0 as <-.
        rewrite bool_decide_eq_true_2 by done. rewrite Hcache.
        rewrite (bool_decide_eq_true_2 (None = None)) by done.
        rewrite andb_true_r. cbn [andb].
        rewrite (andb_comm (negb recursing)). rewrite Hes4.
        destruct (bool_decide (__parent__ e = None) && negb recursing).
        * eexists. unfold es1. rewrite !list_lookup_alter_eq, He. cbn.
          split; [reflexivity |]. split; [done |].
          split; [apply sameFrames_refl | done].
        * eexists. unfold es1. rewrite !list_lookup_alter_eq, He. cbn.
          split; [reflexivity |]. split; [done |].
          split; [apply sameFrames_refl | done].
      + rewrite (bool_decide_eq_false_2 (i = error)) by done. cbn [andb].
        exists e0. rewrite Hes4. unfold es1.
        split.
        { destruct (bool_decide (__parent__ e = None) && negb recursing);
            by rewrite ?list_lookup_alter_ne by done. }
        split; [done |]. split; [apply sameFrames_refl | done]. }
  clearbody es1. clear Hes4.
  assert (forall parent o st5,
    match parent with
    | Some p =>
        pe <- getError p ;;
        parent <- processStackTrace_fuel fuel p (__stack__ pe) true ;;
        content <- readArray parent ;;
        if bool_decide (content = []) then ret tt
        else pushArray (length (arrays st)) (None :: content)
    | None => ret tt
    end st4 = Some (o, st5) ->
    o = Returned tt
    /\ retouched error true None (errors st4) (errors st5)
    /\ ERROR_ID st5 = ERROR_ID st4
    /\ currentTraceError st5 = currentTraceError st4) as Hinner.
  { intros [p |] o st5 Hm;
      [| injection Hm as <- <-; split; [done |];
         split; [apply retouched_refl | done]].
    apply bind_inv in Hm as [(? & Hm & _) | (pe & ? & Hpe & Hm)];
      [by apply getError_inv in Hm as (? & _ & ? & _) |].
    apply getError_inv in Hpe as (? & Hpe & [= <-] & ->).
    apply bind_inv in Hm as [(? & Hm & _) | (parent & st5' & Hrec & Hm)];
      [by apply IH in Hm as [[? ?] _] |].
    apply IH in Hrec as (_ & Hkept & Hid5 & Hcur5).
    apply bind_inv in Hm as [(? & Hm & _) | (content & ? & Hread & Hm)];
      [by apply readArray_inv in Hm as (? & _ & ? & _) |].
    apply readArray_inv in Hread as (? & _ & [= <-] & ->).
    destruct (bool_decide (content = [])).
    - injection Hm as <- <-. split; [done |]. split; [| done].
      eapply retouched_trans; [apply retouched_refl | exact Hkept].
    - apply pushArray_inv in Hm as (? & _ & -> & ->). split; [done |].
      split; [| done].
      eapply retouched_trans; [apply retouched_refl | exact Hkept]. }
  apply bind_inv in Hrun as [(t & Hm & _) | (e' & ? & He' & Hrun)];
    [by apply getError_inv in Hm as (? & _ & ? & _) |].
  apply getError_inv in He' as (? & He' & [= <-] & ->).
  apply bind_inv in Hrun as [(t & Hm & _) | ([] & st5 & Hparent & Hrun)];
    [by apply Hinner in Hm as [? _] |].
  apply Hinner in Hparent as (_ & Hsecond & Hid5 & Hcur5).
  injection Hrun as <- <-. split; [by eexists |].
  split; [by eapply retouched_trans |]. split; congruence.
Qed.

(** X6.  On a store whose addresses all have objects behind them,
    [processStackTrace] returns, and what it leaves behind differs from
    what it found only in links and in method names: no Error object is
    lost or gains an [__id__], a [__trace_count__] or a [stack]; the
    [__stack__] of each holds the call sites it held, in their order,
    the same but for the method names the loop defines on call sites;
    the only [__parent__] it may define is that of [error] itself, to
    the current context, in a call from outside that finds neither a
    cache nor a parent there; an object that had its cache keeps every
    property; no array that existed is edited; and the module's
    variables are as they were. *)
Theorem flattening_touches_only_links
  (st : State) (error : Ref) (frames : list CallSite) (recursing : bool) :
  wf st -> error < length (errors st) ->
  exists cache st',
    processStackTrace error frames recursing st = Some (Returned cache, st')
    /\ retouched error recursing (currentTraceError st) (errors st) (errors st')
    /\ (forall i e, errors st !! i = Some e ->
        is_Some (__cached_trace__ e) -> errors st' !! i = Some e)
    /\ (forall i, i < length (arrays st) -> arrays st' !! i = arrays st !! i)
    /\ ERROR_ID st' = ERROR_ID st
    /\ currentTraceError st' = currentTraceError st
    /\ options st' = options st.
Proof.
  intros Hwf Herror.
  destruct (processStackTrace_total st error frames recursing Hwf Herror)
    as (cache & st' & Hrun & _ & _ & _ & Harrays & _ & Hcached & Hcur & Hopt & _).
  exists cache, st'. split; [done |].
  apply processStackTrace_fuel_retouched in Hrun as (_ & Hkept & Hid & _).
  done.
Qed.

(** X7.  Flattening is memoized: once [processStackTrace] has returned
    for an error, the error carries the returned array as its
    [__cached_trace__], and every later call for it, with whatever stack
    and whatever [recursing], returns that same array and changes
    nothing. *)
Theorem flattening_is_memoized
  (st : State) (error : Ref) (frames : list CallSite) (recursing : bool) :
  wf st -> error < length (errors st) ->
  exists cache st',
    processStackTrace error frames recursing st = Some (Returned cache, st')
    /\ (exists e', errors st' !! error = Some e'
                   /\ __cached_trace__ e' = Some cache)
    /\ forall frames' recursing',
         processStackTrace error frames' recursing' st'
         = Some (Returned cache, st').
Proof.
  intros Hwf Herror.
  destruct (processStackTrace_total st error frames recursing Hwf Herror)
    as (cache & st' & Hrun & _ & _ & (e' & He' & Hcache) & _).
  exists cache, st'. split; [done |]. split; [by exists e' |].
  intros frames' recursing'.
  unfold processStackTrace. rewrite processStackTrace_fuel_step.
  by rewrite (bind_run _ _ _ _ _ (getError_run _ _ _ He')), Hcache.
Qed.

(** *** The flattened chain of a new error, and the text made of it *)

(** Flattening an error that has no cache and no parent yet, while the
    markers of [chain] hang off the current context. *)
Lemma processStackTrace_fresh st error e frames chain :
  errors st !! error = Some e ->
  __cached_trace__ e = None -> __parent__ e = None ->
  linked (errors st) (currentTraceError st) chain ->
  NoDup chain.*1 -> error ∉ chain.*1 ->
  exists st',
    processStackTrace error frames false st
    = Some (Returned (length (arrays st)), st')
    /\ arrays st' !! length (arrays st)
       = Some (flatChain (frames :: chain.*2))
    /\ (exists e', errors st' !! error = Some e'
                   /\ __parent__ e' = currentTraceError st
                   /\ stack e' = stack e)
    /\ length (errors st') = length (errors st)
    /\ currentTraceError st' = currentTraceError st
    /\ options st' = options st.
Proof.
  intros He Hc Hp Hl Hnd Hnotin.
  set (a := length (arrays st)).
  set (st1 := with_arrays (fun arrs => arrs ++ [[]]) st).
  set (st2 := with_errors (alter (set_cached_trace a) error) st1).
  set (own := Some <$> ownFrames frames).
  set (st3 := with_arrays (<[a := [] ++ own]>) st2).
  set (st4 := with_errors (alter (set_parent (currentTraceError st)) error) st3).
  destruct (followParent_linked_aux (length (errors st)) st4 error a
              (set_parent (currentTraceError st) (set_cached_trace a e))
              ([] ++ own) chain (processStackTrace_linked _))
    as (st5 & Hrun & Hcontent & Hkeep & Hgrow & Hlen & Hcur & Hopt).
  { cbn. by rewrite !list_lookup_alter_eq, He. }
  { cbn. apply list_lookup_insert_eq. rewrite length_app. cbn. lia. }
  { cbn. apply linked_alter_other; [done |].
    by apply linked_alter_other. }
  { done. }
  { rewrite <- (length_fmap fst chain).
    apply distinct_addresses; [done | by eapply linked_valid]. }
  assert (processStackTrace error frames false st = Some (Returned a, st5))
    as Hflat.
  { unfold processStackTrace. rewrite processStackTrace_fuel_step.
    rewrite (bind_run _ _ _ _ _ (getError_run _ _ _ He)), Hc.
    rewrite (bind_run _ _ st a st1) by done.
    rewrite (bind_run _ _ st1 tt st2)
      by (by apply updateError_run with (e := e)).
    rewrite (bind_run _ _ st2 tt st3)
      by (apply pushArray_run; by apply list_lookup_middle).
    rewrite Hp, bool_decide_eq_true_2 by done. cbn [negb andb].
    rewrite (bind_run _ _ st3 tt st4).
    - exact Hrun.
    - rewrite (bind_run _ _ st3 (currentTraceError st) st3) by done.
      apply updateError_run with (e := set_cached_trace a e).
      cbn. by rewrite list_lookup_alter_eq, He. }
  exists st5. split; [done |]. split; [exact Hcontent |].
  split.
  { pose proof (processStackTrace_fuel_retouched _ _ _ _ _ _ _ Hflat)
      as (_ & [_ Hkept] & _).
    destruct (Hkept error e He) as (e' & He' & _ & _ & _ & Hstack & Hparent).
    exists e'. split; [done |]. split; [| done].
    rewrite Hparent, Hp, Hc.
    by rewrite !bool_decide_eq_true_2 by done. }
  rewrite Hlen, Hcur. cbn. by rewrite !length_alter.
Qed.

(** The places of the separator markers in an array. *)
Fixpoint separatorIndices (content : list (option CallSite)) : list nat :=
  match content with
  | [] => []
  | None :: rest => 0 :: (S <$> separatorIndices rest)
  | Some _ :: rest => S <$> separatorIndices rest
  end.

Lemma separatorIndices_app content content' :
  separatorIndices (content ++ content')
  = separatorIndices content
    ++ ((fun i => length content + i) <$> separatorIndices content').
Proof.
  induction content as [| [site |] content IH]; cbn [app separatorIndices].
  - cbn. by rewrite list_fmap_id.
  - rewrite IH, fmap_app, <- list_fmap_compose. done.
  - rewrite IH, fmap_app, <- list_fmap_compose. done.
Qed.

(** The first loop of [prepareStackTrace], from any place in the array
    down: it remembers the places of the markers below it, in ascending
    order, and leaves the call sites. *)
Lemma removeSeparators_prefix prefix : forall suffix separators,
  removeSeparators (length prefix) (prefix ++ suffix) separators
  = (separatorIndices prefix ++ separators,
     (Some <$> omap id prefix) ++ suffix).
Proof.
  induction prefix as [| item prefix IH] using rev_ind;
    intros suffix separators; [done |].
  rewrite length_app, Nat.add_1_r. cbn [removeSeparators length].
  rewrite <- app_assoc. cbn [app].
  rewrite list_lookup_middle by done.
  rewrite separatorIndices_app, omap_app, fmap_app, <- !app_assoc.
  destruct item as [site |].
  - rewrite IH. cbn. done.
  - rewrite delete_middle, IH. cbn. by rewrite Nat.add_0_r.
Qed.

Lemma removeSeparators_all content :
  removeSeparators (length content) content []
  = (separatorIndices content, Some <$> omap id content).
Proof.
  pose proof (removeSeparators_prefix content [] []) as H.
  by rewrite !app_nil_r in H.
Qed.

Lemma omap_id_fmap_Some {A} (l : list A) : omap id (Some <$> l) = l.
Proof. induction l as [| x l IH]; cbn; [done |]. by rewrite IH. Qed.

Lemma separatorIndices_frames (frames : list CallSite) :
  separatorIndices (Some <$> frames) = [].
Proof. induction frames as [| site frames IH]; cbn; [done |]. by rewrite IH. Qed.

(** A line of the text for an element of the flattened chain. *)
Definition renderItem (line : CallSite -> string) (token : string)
  (item : option CallSite) : string :=
  match item with
  | Some site => line site
  | None => token
  end.

(** The second loop of [prepareStackTrace] on a text that has one line
    for the error and one per call site: the token comes to stand where
    each marker stood. *)
Lemma spliced_layout (line : CallSite -> string) (token header : string) todo :
  forall done,
    foldl (fun lines i => splice (i + 1) token lines)
      (header :: (renderItem line token <$> done) ++ (line <$> omap id todo))
      ((fun i => length done + i) <$> separatorIndices todo)
    = header :: (renderItem line token <$> (done ++ todo)).
Proof.
  induction todo as [| item todo IH]; intros done.
  - cbn. by rewrite !app_nil_r.
  - assert (((fun i => length done + i) ∘ S) <$> separatorIndices todo
            = (fun i => length (done ++ [item]) + i) <$> separatorIndices todo)
      as Hshift.
    { apply list_fmap_ext. intros i x _. cbn. rewrite length_app. cbn. lia. }
    specialize (IH (done ++ [item])).
    rewrite fmap_app, <- !app_assoc in IH. cbn [app fmap list_fmap] in IH.
    destruct item as [site |].
    + cbn [separatorIndices omap list_omap id].
      rewrite <- list_fmap_compose, Hshift. exact IH.
    + cbn [separatorIndices omap list_omap id fmap list_fmap foldl].
      rewrite <- list_fmap_compose, Hshift. rewrite <- IH. f_equal.
      unfold splice. replace (length done + 0 + 1) with (S (length done)) by lia.
      cbn [take drop renderItem].
      rewrite take_app_length' by (by rewrite length_fmap).
      rewrite drop_app_length' by (by rewrite length_fmap).
      done.
Qed.

(** The text [prepareStackTrace] builds from the flattened chain
    [content] and the text of the previous hook. *)
Definition spliced (token rendered : string) (content : list (option CallSite))
  : string :=
  join_lines (foldl (fun lines i => splice (i + 1) token lines)
                (split_lines rendered) (separatorIndices content)).

Lemma spliced_lines (line : CallSite -> string) (token header : string) content :
  has_newline header = false ->
  (forall site, has_newline (line site) = false) ->
  spliced token (join_lines (header :: (line <$> omap id content))) content
  = join_lines (header :: (renderItem line token <$> content)).
Proof.
  intros Hheader Hline. unfold spliced. rewrite split_join.
  - pose proof (spliced_layout line token header content []) as H.
    cbn in H. rewrite list_fmap_id in H. by rewrite H.
  - done.
  - constructor; [done |]. apply Forall_fmap, Forall_forall.
    intros site _. apply Hline.
Qed.

(** [prepareStackTrace] on an error that has no cache and no parent yet,
    while the markers of [chain] hang off the current context. *)
Lemma prepareStackTrace_fresh_text st error e frames chain :
  errors st !! error = Some e ->
  __cached_trace__ e = None -> __parent__ e = None ->
  linked (errors st) (currentTraceError st) chain ->
  NoDup chain.*1 -> error ∉ chain.*1 ->
  exists st',
    prepareStackTrace error frames st
    = Some (Returned
              (spliced (Options.emptyFrame (options st))
                 (origPrepareStackTrace error
                    (omap id (flatChain (frames :: chain.*2))))
                 (flatChain (frames :: chain.*2))), st')
    /\ (exists e', errors st' !! error = Some e'
                   /\ __parent__ e' = currentTraceError st
                   /\ stack e' = stack e)
    /\ arrays st' !! length (arrays st)
       = Some (Some <$> omap id (flatChain (frames :: chain.*2)))
    /\ length (errors st') = length (errors st)
    /\ currentTraceError st' = currentTraceError st
    /\ options st' = options st.
Proof.
  intros He Hc Hp Hl Hnd Hnotin.
  destruct (processStackTrace_fresh st error e frames chain)
    as (st1 & Hflat & Hcontent & Hparent & Hlen & Hcur & Hopt); try done.
  eexists. split.
  { unfold prepareStackTrace.
    rewrite (bind_run _ _ _ _ _ Hflat).
    rewrite (bind_run _ _ _ _ _ (readArray_run _ _ _ Hcontent)).
    rewrite removeSeparators_all.
    erewrite bind_run; [| by eapply writeArray_run].
    erewrite bind_run; [| reflexivity].
    cbn [options with_arrays]. rewrite Hopt, omap_id_fmap_Some. reflexivity. }
  cbn. split; [done |]. split; [| done].
  apply list_lookup_insert_eq. by eapply lookup_lt_Some.
Qed.

(** *** What a capture touches *)

Lemma limitWalk_inv count : forall previous st outcome st',
  limitWalk count previous st = Some (outcome, st') ->
  st' = st /\ exists r, outcome = Returned r.
Proof.
  induction count as [| count IH]; intros previous st outcome st' Hrun.
  - destruct previous; injection Hrun as <- <-; eauto.
  - destruct previous as [p |]; [| injection Hrun as <- <-; eauto].
    destruct count as [| count]; [injection Hrun as <- <-; eauto |].
    rewrite limitWalk_step in Hrun.
    apply bind_inv in Hrun as [(t & Hm & _) | (e & ? & He & Hrun)];
      [by apply getError_inv in Hm as (? & _ & ? & _) |].
    apply getError_inv in He as (? & _ & _ & ->). by eapply IH.
Qed.

(** The marker [capture] makes when the context slot holds [current] and
    the counter stands at [id], the trace count of the current marker
    being [count - 1]. *)
Definition newMarker (id : nat) (current : option Ref)
  (frames : list CallSite) (count : nat) : ErrorObject :=
  {| __id__ := id; __parent__ := current; __stack__ := frames;
     __trace_count__ := count; __cached_trace__ := None;
     stack := StackFrames |}.

(** What [capture] leaves: the store with the new marker at the next
    address, and with the [__parent__] of at most one object, [severed],
    deleted; nothing is severed when the limit is 0. *)
Lemma capture_inv frames st outcome st' :
  capture frames st = Some (outcome, st') ->
  outcome = Returned (length (errors st))
  /\ ERROR_ID st' = ERROR_ID st + 1
  /\ arrays st' = arrays st
  /\ currentTraceError st' = currentTraceError st
  /\ options st' = options st
  /\ exists count severed,
       match currentTraceError st with
       | Some c => exists ce, errors st !! c = Some ce
                              /\ count = __trace_count__ ce + 1
       | None => count = 1
       end
       /\ errors st'
          = match severed with
            | Some p => alter (set_parent None) p
            | None => fun es => es
            end (errors st
                 ++ [newMarker (ERROR_ID st) (currentTraceError st) frames count])
       /\ ((Options.asyncTraceLimit (options st) <= 0)%Z -> severed = None).
Proof.
  unfold capture. intros Hrun.
  apply bind_inv in Hrun as [(? & ? & _) | (id & ? & [= <- <-] & Hrun)];
    [done |].
  apply bind_inv in Hrun as [(? & ? & _) | ([] & ? & [= <-] & Hrun)];
    [done |].
  apply bind_inv in Hrun as [(? & ? & _) | (current & ? & [= <- <-] & Hrun)];
    [done |].
  cbn [currentTraceError with_ERROR_ID] in Hrun.
  apply bind_inv in Hrun as [(t & Hm & _) | (count & st0 & Hcount & Hrun)].
  { destruct (currentTraceError st); [| done].
    apply bind_inv in Hm as [(? & Hm & _) | (? & ? & _ & ?)]; [| done].
    by apply getError_inv in Hm as (? & _ & ? & _). }
  assert (st0 = with_ERROR_ID (ERROR_ID st + 1) st
          /\ match currentTraceError st with
             | Some c => exists ce, errors st !! c = Some ce
                                    /\ count = __trace_count__ ce + 1
             | None => count = 1
             end) as [-> Hcount'].
  { destruct (currentTraceError st) as [c |].
    - apply bind_inv in Hcount as [(? & Hm & _) | (ce & ? & Hce & Hcount)];
        [by apply getError_inv in Hm as (? & _ & ? & _) |].
      apply getError_inv in Hce as (? & Hce & [= <-] & ->).
      injection Hcount as <-. split; [done |]. by exists ce.
    - by injection Hcount as <- <-. }
  clear Hcount.
  apply bind_inv in Hrun as [(? & ? & _) | (traceError & ? & [= <- <-] & Hrun)];
    [done |].
  apply bind_inv in Hrun as [(? & ? & _) | (limit & ? & [= <- <-] & Hrun)];
    [done |].
  cbn [options with_errors with_ERROR_ID errors] in Hrun.
  fold (newMarker (ERROR_ID st) (currentTraceError st) frames count) in Hrun.
  set (st1 := with_errors
                (fun es => es ++ [newMarker (ERROR_ID st) (currentTraceError st)
                                    frames count])
                (with_ERROR_ID (ERROR_ID st + 1) st)) in *.
  apply bind_inv in Hrun as [(t & Hm & _) | ([] & st2 & Hcut & Hrun)].
  { destruct (0 <? Options.asyncTraceLimit (options st))%Z; [| done].
    apply bind_inv in Hm as [(? & Hm & _) | (r & ? & Hwalk & Hm)].
    - by apply limitWalk_inv in Hm as (_ & ? & ?).
    - apply limitWalk_inv in Hwalk as (-> & _).
      destruct r; [| done]. by apply updateError_inv in Hm as [? _]. }
  injection Hrun as <- <-.
  destruct (0 <? Options.asyncTraceLimit (options st))%Z eqn:Hlimit.
  - apply bind_inv in Hcut as [(? & Hm & _) | (r & ? & Hwalk & Hcut)];
      [by apply limitWalk_inv in Hm as (_ & ? & ?) |].
    apply limitWalk_inv in Hwalk as (-> & _).
    destruct r as [p |].
    + apply updateError_inv in Hcut as [_ ->]. repeat split; try done.
      exists count, (Some p). repeat split; [done |]. lia.
    + injection Hcut as <-. repeat split; try done.
      exists count, None. repeat split; done.
  - injection Hcut as <-. repeat split; try done.
    exists count, None. repeat split; done.
Qed.

(** X12.  On a store whose addresses all have objects behind them, the
    head of a wrapped function returns the address of a new marker, the
    next free one, and: the marker carries the counter's value as its
    [__id__], the captured call sites as its [__stack__], no cache, and
    as its [__trace_count__] one more than the current marker's (1
    outside any callback), whatever the limit; the counter is one
    higher; no array, and neither the context slot nor the options, is
    touched; and of the Error objects that existed, every one keeps
    every property, except that the [__parent__] of at most one of them
    has been deleted. *)
Theorem capture_touches_one_link (st : State) (frames : list CallSite) :
  wf st ->
  exists st' marker,
    capture frames st = Some (Returned (length (errors st)), st')
    /\ wf st'
    /\ length (errors st') = S (length (errors st))
    /\ errors st' !! length (errors st) = Some marker
    /\ __id__ marker = ERROR_ID st
    /\ __stack__ marker = frames
    /\ __cached_trace__ marker = None
    /\ stack marker = StackFrames
    /\ __trace_count__ marker
       = match currentTraceError st with
         | Some c => from_option (fun ce => __trace_count__ ce + 1) 1
                       (errors st !! c)
         | None => 1
         end
    /\ (__parent__ marker = currentTraceError st \/ __parent__ marker = None)
    /\ ERROR_ID st' = ERROR_ID st + 1
    /\ arrays st' = arrays st
    /\ currentTraceError st' = currentTraceError st
    /\ options st' = options st
    /\ exists severed : option Ref,
         forall i e, errors st !! i = Some e ->
           errors st' !! i
           = Some (if bool_decide (severed = Some i) then set_parent None e
                   else e).
Proof.
  intros Hwf.
  destruct (capture_total st frames Hwf) as (st' & Hrun & Hwf' & _ & _ & Hlen).
  destruct (capture_inv _ _ _ _ Hrun)
    as (_ & Hid & Harrays & Hcur & Hopt & count & severed & Hcount & Herrors & _).
  set (new := newMarker (ERROR_ID st) (currentTraceError st) frames count) in *.
  assert (exists marker,
    errors st' !! length (errors st) = Some marker
    /\ (marker = new \/ marker = set_parent None new)) as (marker & Hm & Hshape).
  { rewrite Herrors. destruct severed as [p |].
    - destruct (decide (p = length (errors st))) as [-> | Hne].
      + exists (set_parent None new). split; [| by right].
        by rewrite list_lookup_alter_eq, list_lookup_middle.
      + exists new. split; [| by left].
        by rewrite list_lookup_alter_ne, list_lookup_middle.
    - exists new. split; [| by left]. by apply list_lookup_middle. }
  exists st', marker. repeat (split; [done |]).
  split; [by destruct Hshape as [-> | ->] |].
  split; [by destruct Hshape as [-> | ->] |].
  split; [by destruct Hshape as [-> | ->] |].
  split; [by destruct Hshape as [-> | ->] |].
  split.
  { assert (__trace_count__ marker = count) as ->
      by (by destruct Hshape as [-> | ->]).
    destruct (currentTraceError st) as [c |]; [| done].
    destruct Hcount as (ce & -> & ->). done. }
  split; [destruct Hshape as [-> | ->]; cbn; auto |].
  repeat (split; [done |]).
  exists severed. intros i e He. rewrite Herrors.
  destruct severed as [p |].
  - destruct (decide (p = i)) as [-> | Hne].
    + rewrite bool_decide_eq_true_2 by done.
      rewrite list_lookup_alter_eq, lookup_app_l by (by eapply lookup_lt_Some).
      by rewrite He.
    + rewrite bool_decide_eq_false_2 by congruence.
      rewrite list_lookup_alter_ne by done.
      by rewrite lookup_app_l by (by eapply lookup_lt_Some).
  - rewrite bool_decide_eq_false_2 by done.
    by rewrite lookup_app_l by (by eapply lookup_lt_Some).
Qed.

(** The markers are the Error objects whose [stack] was read under
    [wrap]'s identity hook.  Every marker's [__id__] is below the
    counter, and no two markers share one. *)
Definition idsBelow (st : State) : Prop :=
  forall i e, errors st !! i = Some e -> stack e = StackFrames ->
    __id__ e < ERROR_ID st.

Definition idsDistinct (st : State) : Prop :=
  forall i j e e',
    errors st !! i = Some e -> errors st !! j = Some e' ->
    stack e = StackFrames -> stack e' = StackFrames ->
    __id__ e = __id__ e' -> i = j.

(** X13.  The [__id__]s identify the markers: if every marker's
    [__id__] is below [ERROR_ID] and no two markers share one, which is
    so when the module has just been loaded, then the same holds after
    the head of a wrapped function has made a new marker, and after
    [processStackTrace] has flattened any error. *)
Theorem marker_ids_stay_unique (st : State) (frames : list CallSite) :
  wf st -> idsBelow st -> idsDistinct st ->
  (exists st',
     capture frames st = Some (Returned (length (errors st)), st')
     /\ idsBelow st' /\ idsDistinct st')
  /\ (forall error recursing, error < length (errors st) ->
      exists cache st',
        processStackTrace error frames recursing st
        = Some (Returned cache, st')
        /\ idsBelow st' /\ idsDistinct st')
  /\ (forall o, idsBelow (initial o) /\ idsDistinct (initial o)).
Proof.
  intros Hwf Hbelow Hdistinct. split; [| split].
  - destruct (capture_total st frames Hwf) as (st' & Hrun & _).
    destruct (capture_inv _ _ _ _ Hrun)
      as (_ & Hid & _ & _ & _ & count & severed & _ & Herrors & _).
    set (new := newMarker (ERROR_ID st) (currentTraceError st) frames count)
      in *.
    assert (forall i e', errors st' !! i = Some e' ->
              stack e' = StackFrames ->
              (i < length (errors st)
               /\ exists e, errors st !! i = Some e /\ stack e = StackFrames
                            /\ __id__ e = __id__ e')
              \/ (i = length (errors st) /\ __id__ e' = ERROR_ID st))
      as Hshape.
    { intros i e' He' Hmarker. rewrite Herrors in He'.
      assert (exists e0, (errors st ++ [new]) !! i = Some e0
                         /\ __id__ e0 = __id__ e' /\ stack e0 = stack e')
        as (e0 & He0 & Hid0 & Hstack0).
      { destruct severed as [p |]; [| by exists e'].
        destruct (decide (p = i)) as [-> | Hne].
        - rewrite list_lookup_alter_eq in He'.
          destruct ((errors st ++ [new]) !! i) as [e0 |]; [| done].
          injection He' as <-. by exists e0.
        - rewrite list_lookup_alter_ne in He' by done. by exists e'. }
      apply lookup_app_Some in He0 as [He0 | [Hge He0]].
      - left. split; [by eapply lookup_lt_Some |].
        exists e0. by rewrite Hstack0.
      - right. apply list_lookup_singleton_Some in He0 as [Hi <-].
        split; [lia | by rewrite <- Hid0]. }
    exists st'. split; [done |]. split.
    + intros i e' He' Hmarker. rewrite Hid.
      destruct (Hshape i e' He' Hmarker)
        as [(_ & e & He & Hm & <-) | [_ ->]]; [| lia].
      specialize (Hbelow i e He Hm). lia.
    + intros i j e1 e2 He1 He2 Hm1 Hm2 Heq.
      destruct (Hshape i e1 He1 Hm1) as [(Hi & a & Ha & Hma & Hida) | [-> Hida]];
        destruct (Hshape j e2 He2 Hm2) as [(Hj & b & Hb & Hmb & Hidb) | [-> Hidb]].
      * eapply Hdistinct; [exact Ha | exact Hb | done | done | congruence].
      * specialize (Hbelow i a Ha Hma). lia.
      * specialize (Hbelow j b Hb Hmb). lia.
      * done.
  - intros error recursing Herror.
    destruct (processStackTrace_total st error frames recursing Hwf Herror)
      as (cache & st' & Hrun & _).
    exists cache, st'. split; [done |].
    apply processStackTrace_fuel_retouched in Hrun
      as (_ & [Hlen Hkept] & Hid & _).
    assert (forall i e', errors st' !! i = Some e' ->
              exists e, errors st !! i = Some e /\ __id__ e = __id__ e'
                        /\ stack e = stack e') as Hback.
    { intros i e' He'.
      destruct (lookup_lt_is_Some_2 (errors st) i) as [e He].
      { rewrite <- Hlen. by eapply lookup_lt_Some. }
      destruct (Hkept i e He) as (e'' & He'' & Hid' & _ & _ & Hstack' & _).
      rewrite He' in He''. injection He'' as <-. by exists e. }
    split.
    + intros i e' He' Hmarker. rewrite Hid.
      destruct (Hback i e' He') as (e & He & <- & Hstack).
      apply (Hbelow i e He). congruence.
    + intros i j e1 e2 He1 He2 Hm1 Hm2 Heq.
      destruct (Hback i e1 He1) as (a & Ha & Hida & Hsa).
      destruct (Hback j e2 He2) as (b & Hb & Hidb & Hsb).
      eapply Hdistinct; [exact Ha | exact Hb | | |]; congruence.
  - intros o. split; [by intros i e He | by intros i j e e' He].
Qed.

(** X14.  Under a limit of 1 or of 2 no chain is ever built: whatever
    the current context, the marker the head of a wrapped function makes
    has lost its [__parent__] when the function goes on, and every
    Error object that existed is as it was. *)
Theorem capture_under_small_limit (st : State) (frames : list CallSite) :
  wf st ->
  (0 < Options.asyncTraceLimit (options st) <= 2)%Z ->
  exists st' marker,
    capture frames st = Some (Returned (length (errors st)), st')
    /\ errors st' = errors st ++ [marker]
    /\ __parent__ marker = None
    /\ __stack__ marker = frames.
Proof.
  intros Hwf Hlimit.
  destruct (capture_total st frames Hwf) as (st' & Hrun & _).
  exists st'. pose proof Hrun as Hshape. unfold capture in Hshape.
  rewrite (bind_run _ _ st (ERROR_ID st) st) in Hshape by done.
  rewrite (bind_run _ _ st tt (with_ERROR_ID (ERROR_ID st + 1) st)) in Hshape
    by done.
  rewrite (bind_run _ _ _ (currentTraceError st)
             (with_ERROR_ID (ERROR_ID st + 1) st)) in Hshape by done.
  apply bind_inv in Hshape as [(t & _ & [=]) | (count & st0 & Hcount & Hshape)].
  assert (st0 = with_ERROR_ID (ERROR_ID st + 1) st) as ->.
  { destruct (currentTraceError st) as [c |]; [| by injection Hcount as <- <-].
    apply bind_inv in Hcount as [(? & _ & [=]) | (ce & ? & Hce & Hcount)].
    apply getError_inv in Hce as (? & _ & _ & ->). by injection Hcount as <-. }
  set (new := {| __id__ := ERROR_ID st; __parent__ := currentTraceError st;
                 __stack__ := frames; __trace_count__ := count;
                 __cached_trace__ := None; stack := StackFrames |}) in *.
  set (st1 := with_errors (fun es => es ++ [new])
                (with_ERROR_ID (ERROR_ID st + 1) st)) in *.
  rewrite (bind_run _ _ _ (length (errors st)) st1) in Hshape by done.
  rewrite (bind_run _ _ _ (Options.asyncTraceLimit (options st)) st1)
    in Hshape by done.
  destruct (0 <? Options.asyncTraceLimit (options st))%Z eqn:E; [| lia].
  assert (limitWalk (Z.to_nat (Options.asyncTraceLimit (options st) - 1))
            (Some (length (errors st))) st1
          = Some (Returned (Some (length (errors st))), st1)) as Hwalk.
  { destruct (Z.to_nat (Options.asyncTraceLimit (options st) - 1))
      as [| [| n]] eqn:Hn; [done | done | lia]. }
  erewrite bind_run in Hshape; cycle 1.
  { erewrite bind_run; [| exact Hwalk].
    apply updateError_run with (e := new). by apply list_lookup_middle. }
  injection Hshape as <-.
  exists (set_parent None new). split; [done |]. split; [| done].
  unfold st1. cbn [errors with_errors with_ERROR_ID].
  rewrite alter_app_r_alt by lia. by rewrite Nat.sub_diag.
Qed.

(** An element of a flattened chain that is not a call site of the
    module's own file. *)
Definition externalItem (item : option CallSite) : Prop :=
  match item with
  | Some site => internal site = false
  | None => True
  end.

Lemma flatChain_external stacks : Forall externalItem (flatChain stacks).
Proof.
  induction stacks as [| frames rest IH]; cbn [flatChain]; [constructor |].
  apply Forall_app. split.
  - apply Forall_fmap. eapply Forall_impl; [apply ownFrames_external |]. done.
  - destruct (bool_decide (flatChain rest = [])); [constructor |].
    by constructor.
Qed.

Lemma flatChain_last stacks : last (flatChain stacks) <> Some None.
Proof.
  induction stacks as [| frames rest IH]; cbn [flatChain]; [done |].
  destruct (bool_decide (flatChain rest = [])) eqn:Hrest.
  - rewrite app_nil_r, fmap_last. by destruct (last (ownFrames frames)).
  - apply bool_decide_eq_false in Hrest.
    rewrite last_app, last_cons.
    destruct (last (flatChain rest)) as [item |] eqn:Hlast; [done |].
    by apply last_None in Hlast.
Qed.

Lemma flatChain_markers_le stacks :
  markers (flatChain stacks) <= length stacks - 1.
Proof.
  induction stacks as [| frames rest IH]; cbn [flatChain]; [done |].
  rewrite markers_app, markers_frames.
  destruct (bool_decide (flatChain rest = [])) eqn:Hrest; [cbn; lia |].
  rewrite markers_cons_marker. cbn [length].
  destruct rest as [| frames' rest]; [done |]. cbn [length] in *. lia.
Qed.

(** X8.  Flattening an error that has neither cache nor parent, while
    the markers of [chain] (none of them flattened yet) hang off the
    current context: the error gets the current context as its
    [__parent__], and its new cache holds the kept call sites of the
    error followed, for each marker of the chain starting with the
    current one, by a separator marker and the kept call sites of that
    marker, a marker after which nothing is left to show contributing
    nothing.  The cache holds no call site of the module's own file,
    does not end in a separator marker, and has at most one separator
    per marker of the chain: exactly one when every marker has a call
    site to show. *)
Theorem flattened_chain_shape
  (st : State) (error : Ref) (e : ErrorObject) (frames : list CallSite)
  (chain : list (Ref * list CallSite)) :
  errors st !! error = Some e ->
  __cached_trace__ e = None -> __parent__ e = None ->
  linked (errors st) (currentTraceError st) chain ->
  NoDup chain.*1 -> error ∉ chain.*1 ->
  exists st',
    processStackTrace error frames false st
    = Some (Returned (length (arrays st)), st')
    /\ arrays st' !! length (arrays st)
       = Some (flatChain (frames :: chain.*2))
    /\ (exists e', errors st' !! error = Some e'
                   /\ __parent__ e' = currentTraceError st)
    /\ Forall externalItem (flatChain (frames :: chain.*2))
    /\ last (flatChain (frames :: chain.*2)) <> Some None
    /\ markers (flatChain (frames :: chain.*2)) <= length chain
    /\ (Forall (fun frames => ownFrames frames <> []) chain.*2 ->
        markers (flatChain (frames :: chain.*2)) = length chain).
Proof.
  intros He Hc Hp Hl Hnd Hnotin.
  destruct (processStackTrace_fresh st error e frames chain)
    as (st' & Hrun & Hcontent & (e' & He' & Hparent & _) & _); try done.
  exists st'. split; [done |]. split; [done |].
  split; [by exists e' |].
  split; [apply flatChain_external |].
  split; [apply flatChain_last |].
  split.
  - pose proof (flatChain_markers_le (frames :: chain.*2)) as Hle.
    cbn [length] in Hle. rewrite length_fmap in Hle. lia.
  - intros Hown. rewrite flatChain_markers by done. by rewrite length_fmap.
Qed.

(** X9.  Outside every deferred callback the module is transparent: for
    an error that has neither cache nor parent, rendered while the
    context slot is empty, [prepareStackTrace] returns exactly what the
    previous hook returns for the error and the call sites kept of its
    stack, with no separator; for a stack that does not pass through
    the module, that is the previous hook's text for the stack itself. *)
Theorem untraced_error_renders_as_before
  (st : State) (error : Ref) (e : ErrorObject) (frames : list CallSite) :
  errors st !! error = Some e ->
  __cached_trace__ e = None -> __parent__ e = None ->
  currentTraceError st = None ->
  exists st',
    prepareStackTrace error frames st
    = Some (Returned (origPrepareStackTrace error (ownFrames frames)), st')
    /\ (Forall (fun site => internal site = false) frames ->
        prepareStackTrace error frames st
        = Some (Returned (origPrepareStackTrace error frames), st'))
    /\ arrays st' !! length (arrays st) = Some (Some <$> ownFrames frames)
    /\ currentTraceError st' = None.
Proof.
  intros He Hc Hp Hcurrent.
  destruct (prepareStackTrace_fresh_text st error e frames [] He Hc Hp
              Hcurrent (NoDup_nil_2 : NoDup ([] : list (Ref * list CallSite)).*1))
    as (st' & Hrun & _ & Hcache & _ & Hcur & _);
    [apply not_elem_of_nil |].
  cbn [fmap list_fmap flatChain] in Hrun, Hcache.
  rewrite bool_decide_eq_true_2, app_nil_r in Hrun, Hcache by done.
  rewrite omap_id_fmap_Some in Hrun, Hcache.
  unfold spliced in Hrun. rewrite separatorIndices_frames in Hrun.
  cbn [foldl] in Hrun. rewrite join_split in Hrun.
  exists st'. split; [done |]. split; [| split; [done | congruence]].
  intros Hexternal. by rewrite <- (ownFrames_no_internal frames) at 2.
Qed.

(** X10.  Where the separators go.  Let the previous hook render an
    error as one line for the error and one line per call site.  Then
    the text [prepareStackTrace] returns for a new error raised under
    the markers of [chain] is that first line followed, for each element
    of the flattened chain in order, by the line of the call site or,
    for a separator marker, by [options.emptyFrame]. *)
Theorem trace_layout
  (st : State) (error : Ref) (e : ErrorObject) (frames : list CallSite)
  (chain : list (Ref * list CallSite))
  (header : string) (line : CallSite -> string) :
  errors st !! error = Some e ->
  __cached_trace__ e = None -> __parent__ e = None ->
  linked (errors st) (currentTraceError st) chain ->
  NoDup chain.*1 -> error ∉ chain.*1 ->
  (forall sites,
     origPrepareStackTrace error sites = join_lines (header :: (line <$> sites))) ->
  has_newline header = false ->
  (forall site, has_newline (line site) = false) ->
  exists st',
    prepareStackTrace error frames st
    = Some (Returned
              (join_lines
                 (header
                  :: (renderItem line (Options.emptyFrame (options st))
                        <$> flatChain (frames :: chain.*2)))), st').
Proof.
  intros He Hc Hp Hl Hnd Hnotin Hhook Hheader Hline.
  destruct (prepareStackTrace_fresh_text st error e frames chain)
    as (st' & Hrun & _); try done.
  exists st'. by rewrite Hrun, Hhook, spliced_lines.
Qed.

(** Reading the [stack] of such an error for the first time. *)
Lemma readStack_fresh_text st error e chain :
  errors st !! error = Some e ->
  stack e = StackPending ->
  __cached_trace__ e = None -> __parent__ e = None ->
  linked (errors st) (currentTraceError st) chain ->
  NoDup chain.*1 -> error ∉ chain.*1 ->
  exists st' e',
    readStack error st
    = Some (Returned
              (StackText
                 (spliced (Options.emptyFrame (options st))
                    (origPrepareStackTrace error
                       (omap id (flatChain (__stack__ e :: chain.*2))))
                    (flatChain (__stack__ e :: chain.*2)))), st')
    /\ errors st' !! error = Some e'
    /\ stack e'
       = StackText
           (spliced (Options.emptyFrame (options st))
              (origPrepareStackTrace error
                 (omap id (flatChain (__stack__ e :: chain.*2))))
              (flatChain (__stack__ e :: chain.*2)))
    /\ __parent__ e' = currentTraceError st
    /\ length (errors st') = length (errors st)
    /\ currentTraceError st' = currentTraceError st
    /\ options st' = options st.
Proof.
  intros He Hpending Hc Hp Hl Hnd Hnotin.
  destruct (prepareStackTrace_fresh_text st error e (__stack__ e) chain)
    as (st1 & Hrun & (e1 & He1 & Hparent & _) & _ & Hlen & Hcur & Hopt);
    try done.
  eexists _, _. split.
  { unfold readStack.
    rewrite (bind_run _ _ _ _ _ (getError_run _ _ _ He)), Hpending.
    rewrite (bind_run _ _ _ _ _ Hrun).
    erewrite bind_run; [| by eapply updateError_run]. reflexivity. }
  cbn [errors with_errors currentTraceError options].
  rewrite list_lookup_alter_eq, He1, length_alter. cbn.
  repeat split; done.
Qed.

(** X15.  Why the shim reads [e.stack].  When the callback of a shim
    throws an error (an extensible object) whose [stack] has not been
    read, the shim's handler reads it before the [finally] clears the
    context slot.  The error is thrown on with, as its [__parent__],
    what the slot holds at that moment, and with its trace already
    stored: the text for the error's call sites followed by those of the
    markers that hang off the slot.  That is the shim's own marker and
    its ancestors if the slot still holds the marker, which is so unless
    another shim has run to its end inside the callback; it is nothing,
    and the trace has no ancestor, if the slot has been cleared.  Reading
    [stack] afterwards gives that same text and changes nothing. *)
Theorem thrown_error_is_linked {A : Type}
  (traceError : Ref) (callback : M A) (st st1 : State)
  (error : Ref) (e : ErrorObject) (chain : list (Ref * list CallSite)) :
  callback (with_currentTraceError (Some traceError) st)
  = Some (Threw (ThrownError error), st1) ->
  errors st1 !! error = Some e ->
  stack e = StackPending ->
  __cached_trace__ e = None -> __parent__ e = None ->
  linked (errors st1) (currentTraceError st1) chain ->
  NoDup chain.*1 -> error ∉ chain.*1 ->
  exists st' e' text,
    shim traceError callback st = Some (Threw (ThrownError error), st')
    /\ currentTraceError st' = None
    /\ errors st' !! error = Some e'
    /\ __parent__ e' = currentTraceError st1
    /\ stack e' = StackText text
    /\ text = spliced (Options.emptyFrame (options st1))
                (origPrepareStackTrace error
                   (omap id (flatChain (__stack__ e :: chain.*2))))
                (flatChain (__stack__ e :: chain.*2))
    /\ (currentTraceError st1 = None ->
        text = origPrepareStackTrace error (ownFrames (__stack__ e)))
    /\ readStack error st' = Some (Returned (StackText text), st').
Proof.
  intros Hrun He Hpending Hc Hp Hl Hnd Hnotin.
  destruct (readStack_fresh_text st1 error e chain)
    as (st2 & e' & Hread & He' & Htext & Hparent & _); try done.
  exists (with_currentTraceError None st2), e'. eexists.
  split.
  { eapply (shim_threw _ _ _ (ThrownError error) st1 (Returned tt));
      [exact Hrun |].
    cbn [forceStack]. by rewrite (bind_run _ _ _ _ _ Hread). }
  split; [done |]. split; [exact He' |].
  split; [exact Hparent |].
  split; [exact Htext |]. split; [reflexivity |].
  split; [| by apply readStack_text with (e := e')].
  intros Hcleared. rewrite Hcleared in Hl.
  destruct chain as [| [x frames] rest]; [| by destruct Hl as [[=] _]].
  cbn [fmap list_fmap flatChain].
  rewrite bool_decide_eq_true_2, app_nil_r by done.
  rewrite omap_id_fmap_Some. unfold spliced.
  rewrite separatorIndices_frames. cbn [foldl]. apply join_split.
Qed.

(** *** The whole trace of a nested chain *)

(** The stacks of the markers that stay reachable from a new marker
    under [limit], nearest first. *)
Definition limitedStacks (limit : Z) (stacks : list (list CallSite))
  : list (list CallSite) :=
  if (0 <? limit)%Z then take (S (Z.to_nat (limit - 1) - 1)) stacks
  else stacks.

(** The stacks reachable from the marker of the last of the scheduling
    calls [stacks], made one inside the callback of the other while
    the stacks [seen] were reachable from the first one's context. *)
Definition reach (limit : Z) (stacks seen : list (list CallSite))
  : list (list CallSite) :=
  foldl (fun seen frames => limitedStacks limit (frames :: seen)) seen stacks.

Lemma limited_stacks limit (chain : list (Ref * list CallSite)) :
  (limited limit chain).*2 = limitedStacks limit chain.*2.
Proof.
  unfold limited, limitedStacks. destruct (0 <? limit)%Z; [| done].
  by rewrite fmap_take.
Qed.

Lemma limitedStacks_app limit (stacks seen : list (list CallSite)) :
  limitedStacks limit (stacks ++ limitedStacks limit seen)
  = limitedStacks limit (stacks ++ seen).
Proof.
  unfold limitedStacks. destruct (0 <? limit)%Z; [| done].
  rewrite !take_app, take_take. f_equal. f_equal. lia.
Qed.

Lemma reach_reverse limit stacks : forall seen,
  reach limit stacks (limitedStacks limit seen)
  = limitedStacks limit (reverse stacks ++ seen).
Proof.
  induction stacks as [| frames stacks IH]; intros seen.
  - done.
  - cbn [reach foldl].
    change (frames :: limitedStacks limit seen)
      with ([frames] ++ limitedStacks limit seen).
    rewrite limitedStacks_app. cbn [app].
    fold (reach limit stacks (limitedStacks limit (frames :: seen))).
    rewrite IH, reverse_cons, <- app_assoc. done.
Qed.

Lemma reach_top limit stacks :
  reach limit stacks [] = limitedStacks limit (reverse stacks).
Proof.
  pose proof (reach_reverse limit stacks []) as H.
  rewrite app_nil_r in H. rewrite <- H. f_equal.
  unfold limitedStacks. by destruct (0 <? limit)%Z.
Qed.

Section NestedText.
Variable errorFrames : list CallSite.

(** The text stored on the error a chain ends in, given the address of
    the error and the stacks reachable from the context it is raised
    under. *)
Definition nestedText (st : State) (error : Ref)
  (reached : list (list CallSite)) : string :=
  spliced (Options.emptyFrame (options st))
    (origPrepareStackTrace error
       (omap id (flatChain (errorFrames :: reached))))
    (flatChain (errorFrames :: reached)).

Lemma fire_nested_text stacks : forall st traceError chain,
  linked (errors st) (Some traceError) chain ->
  NoDup chain.*1 ->
  exists e' st',
    fire (nested stacks errorFrames) traceError st
    = Some (Threw (ThrownError (length (errors st) + length stacks)), st')
    /\ errors st' !! (length (errors st) + length stacks) = Some e'
    /\ stack e'
       = StackText
           (nestedText st (length (errors st) + length stacks)
              (reach (Options.asyncTraceLimit (options st)) stacks chain.*2)).
Proof.
  induction stacks as [| frames stacks IH]; intros st traceError chain Hl Hnd.
  - set (error := length (errors st)).
    set (new := {| __id__ := 0; __parent__ := None; __stack__ := errorFrames;
                   __trace_count__ := 0; __cached_trace__ := None;
                   stack := StackPending |}).
    set (st1 := with_errors (fun es => es ++ [new])
                  (with_currentTraceError (Some traceError) st)).
    destruct (readStack_fresh_text st1 error new chain)
      as (st2 & e' & Hread & He' & Htext & _); try done.
    { by apply list_lookup_middle. }
    { cbn. by apply linked_alloc. }
    { intros Hin. apply linked_valid in Hl. rewrite Forall_forall in Hl.
      specialize (Hl _ Hin). unfold error in Hl. lia. }
    cbn [length]. rewrite Nat.add_0_r. fold error.
    exists e'. eexists. split.
    { cbn [nested foldr fire].
      eapply (shim_threw _ _ _ (ThrownError error) st1 (Returned tt)).
      - reflexivity.
      - cbn [forceStack]. by rewrite (bind_run _ _ _ _ _ Hread). }
    done.
  - destruct (capture_linked (with_currentTraceError (Some traceError) st)
                chain frames Hl Hnd)
      as (st1 & Hcapture & Hl1 & Hnd1 & Hcur & Hopt & _).
    pose proof (capture_inv _ _ _ _ Hcapture)
      as (_ & _ & _ & _ & _ & count & severed & _ & Herrors & _).
    assert (length (errors st1) = S (length (errors st))) as Hlen.
    { rewrite Herrors.
      destruct severed; rewrite ?length_alter, length_app; cbn; lia. }
    cbn [errors with_currentTraceError options] in *.
    set (chain' := limited (Options.asyncTraceLimit (options st))
                     ((length (errors st), frames) :: chain)) in *.
    destruct (IH (with_currentTraceError None st1) (length (errors st)) chain')
      as (e' & st' & Hfire & He' & Htext); try done.
    cbn [errors with_currentTraceError options] in Hfire, He', Htext.
    rewrite Hlen in Hfire, He', Htext.
    replace (length (errors st) + length (frames :: stacks))
      with (S (length (errors st)) + length stacks) by (cbn; lia).
    exists e', st'. split; [| split; [done |]].
    + change (nested (frames :: stacks) errorFrames)
        with (Schedule frames (nested stacks errorFrames)).
      cbn [fire].
      by rewrite (bind_run _ _ _ _ _ (shim_returned _ _ _ _ _ Hcapture)).
    + rewrite Htext. unfold nestedText. cbn [options with_currentTraceError].
      rewrite Hopt. unfold chain'. rewrite limited_stacks. done.
Qed.

Lemma renderedTrace_nested_text stacks st :
  currentTraceError st = None ->
  renderedTrace (nested stacks errorFrames) st
  = Some (nestedText st (length (errors st) + length stacks)
            (limitedStacks (Options.asyncTraceLimit (options st))
               (reverse stacks))).
Proof.
  intros Hcurrent. rewrite <- reach_top.
  destruct stacks as [| frames stacks].
  - set (error := length (errors st)).
    set (new := {| __id__ := 0; __parent__ := None; __stack__ := errorFrames;
                   __trace_count__ := 0; __cached_trace__ := None;
                   stack := StackPending |}).
    set (st1 := with_errors (fun es => es ++ [new]) st).
    destruct (readStack_fresh_text st1 error new [])
      as (st2 & e' & Hread & _); try done.
    { by apply list_lookup_middle. }
    { constructor. }
    { by apply not_elem_of_nil. }
    cbn [length]. rewrite Nat.add_0_r. fold error.
    unfold renderedTrace, uncaughtStack, try_catch. cbn [nested foldr run].
    unfold bind at 1 2. cbn [newError allocError throw].
    fold error new st1. by rewrite Hread.
  - destruct (capture_linked st [] frames) as
      (st1 & Hcapture & Hl1 & Hnd1 & Hcur & Hopt & _);
      [by rewrite Hcurrent | constructor |].
    pose proof (capture_inv _ _ _ _ Hcapture)
      as (_ & _ & _ & _ & _ & count & severed & _ & Herrors & _).
    assert (length (errors st1) = S (length (errors st))) as Hlen.
    { rewrite Herrors.
      destruct severed; rewrite ?length_alter, length_app; cbn; lia. }
    set (chain' := limited (Options.asyncTraceLimit (options st))
                     [(length (errors st), frames)]) in *.
    destruct (fire_nested_text stacks st1 (length (errors st)) chain')
      as (e' & st' & Hfire & He' & Htext); try done.
    rewrite Hlen in Hfire, He', Htext.
    replace (length (errors st) + length (frames :: stacks))
      with (S (length (errors st)) + length stacks) by (cbn; lia).
    unfold renderedTrace, uncaughtStack, try_catch.
    change (nested (frames :: stacks) errorFrames)
      with (Schedule frames (nested stacks errorFrames)).
    cbn [run].
    unfold bind at 1. rewrite (bind_run _ _ _ _ _ Hcapture), Hfire.
    rewrite (readStack_text _ _ _ _ He' Htext).
    unfold nestedText. rewrite Hopt. unfold chain'.
    rewrite limited_stacks. done.
Qed.

End NestedText.

(** X11.  The whole trace of a plain nested chain.  Let the previous
    hook render an error as one line for the error and one line per call
    site.  For scheduling calls [stacks] made one inside the callback of
    the other, the first from outside any callback, by callbacks that do
    nothing but make the next scheduling call (none reads a stack, none
    runs another shim), the trace of the error raised in the innermost
    callback is: the error's line; the lines of the call sites kept of
    the error's own stack; then, for the scheduling calls from the
    innermost outwards, [options.emptyFrame] and the lines of the call
    sites kept of that call's stack: for all of the calls when the limit
    is 0, for the innermost max(limit - 1, 1) of them otherwise. *)
Theorem nested_trace_text
  (stacks : list (list CallSite)) (errorFrames : list CallSite) (st : State)
  (header : Ref -> string) (line : CallSite -> string) :
  currentTraceError st = None ->
  (forall error sites,
     origPrepareStackTrace error sites
     = join_lines (header error :: (line <$> sites))) ->
  (forall error, has_newline (header error) = false) ->
  (forall site, has_newline (line site) = false) ->
  renderedTrace (nested stacks errorFrames) st
  = Some (join_lines
            (header (length (errors st) + length stacks)
             :: (renderItem line (Options.emptyFrame (options st))
                   <$> flatChain
                         (errorFrames
                          :: limitedStacks
                               (Options.asyncTraceLimit (options st))
                               (reverse stacks))))).
Proof.
  intros Hcurrent Hhook Hheader Hline.
  rewrite renderedTrace_nested_text by done.
  unfold nestedText. by rewrite Hhook, spliced_lines.
Qed.

(** *** Laws of the listener patches *)

Section ListenerLaws.
Context {This Arg Res : Type}.
Implicit Types (listener : @Function This Arg Res).
Implicit Types (emitter : @EventEmitter This Arg Res).
Implicit Types (array : list (@Function This Arg Res)).

(** The test the loop of [removeListener] makes on a stored function:
<<
    callback === listener || wrappedListener === listener
>> *)
Definition matches listener (wrappedListener : @Function This Arg Res) : bool :=
  identical (unwrapped wrappedListener) listener
  || identical wrappedListener listener.

(** An array without the first of its elements that passes a test. *)
Fixpoint withoutFirst (p : @Function This Arg Res -> bool) array
  : list (@Function This Arg Res) :=
  match array with
  | [] => []
  | f :: rest => if p f then rest else f :: withoutFirst p rest
  end.

Lemma first_match (p : @Function This Arg Res -> bool) array :
  Forall (fun f => p f = false) array
  \/ exists before w after,
       array = before ++ w :: after
       /\ Forall (fun f => p f = false) before /\ p w = true.
Proof.
  induction array as [| f rest IH]; [by left |].
  destruct (p f) eqn:Hf.
  - right. exists [], f, rest. by repeat split.
  - destruct IH as [Hnone | (before & w & after & -> & Hbefore & Hw)].
    + left. by constructor.
    + right. exists (f :: before), w, after. repeat split; [| done].
      by constructor.
Qed.

Lemma withoutFirst_none (p : @Function This Arg Res -> bool) array :
  Forall (fun f => p f = false) array -> withoutFirst p array = array.
Proof.
  induction 1 as [| f rest Hf Hrest IH]; cbn; [done |]. by rewrite Hf, IH.
Qed.

Lemma withoutFirst_split (p : @Function This Arg Res -> bool) before w after :
  Forall (fun f => p f = false) before -> p w = true ->
  withoutFirst p (before ++ w :: after) = before ++ after.
Proof.
  intros Hbefore Hw. induction Hbefore as [| f rest Hf Hrest IH]; cbn.
  - by rewrite Hw.
  - by rewrite Hf, IH.
Qed.

Lemma matches_false listener f :
  matches listener f = false ->
  identical (unwrapped f) listener = false /\ identical f listener = false.
Proof. by intros ?%orb_false_iff. Qed.

Lemma removeFirst_unwrapped listener array :
  Forall (fun f => identical f listener = false) array ->
  unwrapped <$> withoutFirst (matches listener) array
  = removeFirst listener (unwrapped <$> array).
Proof.
  induction 1 as [| f rest Hf Hrest IH]; cbn; [done |].
  unfold matches at 1. rewrite Hf, orb_false_r.
  destruct (identical (unwrapped f) listener); [done |].
  cbn. by rewrite IH.
Qed.

Lemma removeFirst_length listener array :
  length array <= S (length (removeFirst listener array))
  /\ length (removeFirst listener array) <= length array.
Proof.
  induction array as [| f rest IH]; cbn; [lia |].
  destruct (identical f listener); cbn; lia.
Qed.

(** X16.  Removal, read on the listener array.  When no function object
    is stored twice for the event (which is so for listeners added
    through the wrapped [addListener]), [removeListener] leaves the array
    without the first stored function that has the given function as
    its original callback or is the given function itself, and as it was
    when there is none: of several registrations of one callback the
    earliest goes.  Read through [listeners], for a function that is not
    itself stored: the enumeration afterwards is the enumeration before
    without its first element identical to the function. *)
Theorem removeListener_removes_first_match emitter (type : string) listener :
  NoDup (identity <$> _listeners emitter type) ->
  _listeners (removeListener emitter type listener) type
  = withoutFirst (matches listener) (_listeners emitter type)
  /\ (Forall (fun f => identical f listener = false) (_listeners emitter type) ->
      listeners (removeListener emitter type listener) type
      = removeFirst listener (listeners emitter type)).
Proof.
  intros Hnd.
  assert (_listeners (removeListener emitter type listener) type
          = withoutFirst (matches listener) (_listeners emitter type)) as Hlaw.
  { destruct (first_match (matches listener) (_listeners emitter type))
      as [Hnone | (before & w & after & Harray & Hbefore & Hw)].
    - rewrite withoutFirst_none by done.
      unfold removeListener. rewrite removeListenerLoop_none; [done |].
      eapply Forall_impl; [exact Hnone |]. apply matches_false.
    - rewrite Harray, withoutFirst_split by done.
      unfold removeListener. rewrite Harray.
      rewrite removeListenerLoop_first.
      + rewrite _listeners_removeListener, Harray.
        apply removeLast_unique. by rewrite <- Harray.
      + eapply Forall_impl; [exact Hbefore |]. apply matches_false.
      + exact Hw. }
  split; [done |].
  intros Hstored. unfold listeners. rewrite Hlaw.
  change (map unwrapped) with (fmap (M := list) (@unwrapped This Arg Res)).
  by apply removeFirst_unwrapped.
Qed.

Lemma removeListenerLoop_shape emitter type listener array :
  removeListenerLoop emitter type listener array = emitter
  \/ exists w, removeListenerLoop emitter type listener array
               = _removeListener emitter type w.
Proof.
  induction array as [| f rest IH]; cbn; [by left |].
  destruct (identical (unwrapped f) listener || identical f listener);
    [right; by exists f | done].
Qed.

(** X17.  What the patches leave alone.  [removeListener] for one event
    never changes the listeners of another event, and removes at most
    one listener of its own; registering a listener through the wrapped
    [addListener] appends one function to the array of its event and
    leaves every other event as it was. *)
Theorem listener_patches_touch_one_event
  emitter (type type' : string) listener (stack : list CallSite) (st : State) :
  type <> type' -> wf st ->
  _listeners (removeListener emitter type listener) type'
  = _listeners emitter type'
  /\ length (_listeners emitter type)
     <= S (length (_listeners (removeListener emitter type listener) type))
  /\ length (_listeners (removeListener emitter type listener) type)
     <= length (_listeners emitter type)
  /\ exists emitter' st',
       addListener stack emitter type listener st
       = Some (Returned emitter', st')
       /\ _listeners emitter' type' = _listeners emitter type'
       /\ length (_listeners emitter' type)
          = S (length (_listeners emitter type))
       /\ listeners emitter' type = listeners emitter type ++ [listener].
Proof.
  intros Hne Hwf. unfold removeListener.
  destruct (removeListenerLoop_shape emitter type listener
              (_listeners emitter type)) as [-> | [w ->]].
  - split; [done |]. split; [lia |]. split; [lia |].
    destruct (addListener_run stack emitter type listener st Hwf)
      as (st' & Hrun & _).
    eexists _, st'. split; [exact Hrun |].
    rewrite _listeners_addListener_other by done. split; [done |].
    unfold listeners. rewrite _listeners_addListener, length_app, map_app.
    split; [cbn; lia | done].
  - split.
    { unfold _removeListener, _listeners at 1. cbn.
      by rewrite lookup_insert_ne. }
    rewrite _listeners_removeListener. unfold removeLast.
    rewrite length_reverse.
    pose proof (removeFirst_length w (reverse (_listeners emitter type)))
      as [Hlow Hhigh].
    rewrite length_reverse in Hlow, Hhigh.
    split; [done |]. split; [done |].
    destruct (addListener_run stack emitter type listener st Hwf)
      as (st' & Hrun & _).
    eexists _, st'. split; [exact Hrun |].
    rewrite _listeners_addListener_other by done. split; [done |].
    unfold listeners. rewrite _listeners_addListener, length_app, map_app.
    split; [cbn; lia | done].
Qed.

End ListenerLaws.

(** X18.  What the shim throws on when the callback throws something
    that is not an error.  The handler reads [e.stack] before it throws
    [e] again: for [null] and [undefined] that read itself throws, so
    the shim raises a type error in place of the value; any other value
    is thrown on as it is.  Either way the store is as the callback left
    it, with the context slot cleared. *)
Theorem shim_rethrows_values {A : Type}
  (traceError : Ref) (callback : M A) (st st1 : State) (v : JsValue) :
  callback (with_currentTraceError (Some traceError) st)
  = Some (Threw (ThrownValue v), st1) ->
  (v = VNull \/ v = VUndefined ->
   exists message,
     shim traceError callback st
     = Some (Threw (TypeError message), with_currentTraceError None st1))
  /\ (v <> VNull -> v <> VUndefined ->
      shim traceError callback st
      = Some (Threw (ThrownValue v), with_currentTraceError None st1)).
Proof.
  intros Hrun. split.
  - intros [-> | ->]; eexists;
      by apply (shim_threw _ _ _ _ st1 (Threw (TypeError _)) st1 Hrun).
  - intros Hnull Hundefined.
    apply (shim_threw _ _ _ _ st1 (Returned tt) st1 Hrun).
    by destruct v.
Qed.

(** X21.  The limit, call by call.  When the markers of [chain] (none
    flattened yet) hang off the current context, the marker the head of
    a wrapped function makes is followed by that chain, cut so that,
    the new marker included, max(limit - 1, 1) markers stay linked when
    the limit is positive, and not cut at all when the limit is 0: the
    chain behind a new marker is never longer than that, however long
    the chain behind the current context was. *)
Theorem capture_limits_chain
  (st : State) (chain : list (Ref * list CallSite)) (frames : list CallSite) :
  linked (errors st) (currentTraceError st) chain -> NoDup chain.*1 ->
  exists st' chain',
    capture frames st = Some (Returned (length (errors st)), st')
    /\ linked (errors st') (Some (length (errors st))) chain'
    /\ chain'
       = (if (0 <? Options.asyncTraceLimit (options st))%Z
          then take (Nat.max (Z.to_nat (Options.asyncTraceLimit (options st) - 1)) 1)
                 ((length (errors st), frames) :: chain)
          else (length (errors st), frames) :: chain)
    /\ ((0 < Options.asyncTraceLimit (options st))%Z ->
        length chain'
        <= Nat.max (Z.to_nat (Options.asyncTraceLimit (options st) - 1)) 1)
    /\ currentTraceError st' = currentTraceError st
    /\ arrays st' = arrays st.
Proof.
  intros Hl Hnd.
  destruct (capture_linked st chain frames Hl Hnd)
    as (st' & Hrun & Hlinked & _ & Hcur & _ & Harrays).
  exists st'. eexists. split; [exact Hrun |]. split; [exact Hlinked |].
  unfold limited.
  replace (S (Z.to_nat (Options.asyncTraceLimit (options st) - 1) - 1))
    with (Nat.max (Z.to_nat (Options.asyncTraceLimit (options st) - 1)) 1)
    by lia.
  split; [done |]. split; [| done].
  intros Hpos. destruct (0 <? Options.asyncTraceLimit (options st))%Z eqn:E;
    [| lia].
  rewrite length_take. lia.
Qed.

End Engine.

(** *** A concrete platform to evaluate on *)

(** A call site's description on one line. *)
Fixpoint oneLine (s : string) : string :=
  match s with
  | EmptyString => EmptyString
  | String c rest =>
      if Ascii.eqb c newline then oneLine rest else String c (oneLine rest)
  end.

Definition frameLine (site : CallSite) : string :=
  String " " (String " " (String " " (String " "
    (String "a" (String "t" (String " " (oneLine (describe site)))))))).

(** source-map-support's hook: the error's description, then one line
    per frame. *)
Definition sourceMapPrepareStackTrace (error : Ref) (frames : list CallSite)
  : string :=
  join_lines ("Error"%string :: map frameLine frames).

Definition moduleFile : string := "/double-stack/dist/double-stack.js".

Definition siteAt (file : string) (line : nat) : CallSite :=
  {| getFileName := Some file; getMethodName := None;
     getFunctionName := None; getLineNumber := line;
     getColumnNumber := 1; describe := file |}.

(** The stack at a scheduling call: the wrapped function's own frame,
    then the caller's. *)
Definition schedulingStack (k : nat) : list CallSite :=
  [siteAt moduleFile 147; siteAt "/app/main.js" k].

Definition optionsWithLimit (limit : Z) : Options.Options :=
  Options.with_asyncTraceLimit limit Options.sample_options.

Lemma oneLine_no_newline s : has_newline (oneLine s) = false.
Proof.
  induction s as [| c rest IH]; cbn; [done |].
  destruct (Ascii.eqb c newline) eqn:Hc; [done |]. cbn. by rewrite Hc.
Qed.

Lemma sourceMapPrepareStackTrace_lines error frames :
  split_lines (sourceMapPrepareStackTrace error frames)
  = "Error"%string :: map frameLine frames.
Proof.
  unfold sourceMapPrepareStackTrace. apply split_join; [done |].
  constructor; [done |]. apply Forall_forall. intros line Hin.
  apply list_elem_of_fmap in Hin as (site & -> & _).
  cbn. apply oneLine_no_newline.
Qed.

Lemma sourceMapPrepareStackTrace_fresh error frames :
  Options.dashes ∉ split_lines (sourceMapPrepareStackTrace error frames).
Proof.
  rewrite sourceMapPrepareStackTrace_lines.
  apply not_elem_of_cons. split; [done |].
  intros Hin. apply list_elem_of_fmap in Hin as (site & Heq & _).
  discriminate Heq.
Qed.

Lemma schedulingStacks_external ks :
  Forall (Exists (fun site => internal moduleFile site = false))
    (map schedulingStack ks).
Proof.
  apply Forall_forall. intros frames Hin.
  apply list_elem_of_fmap in Hin as (k & -> & _).
  apply Exists_cons_tl, Exists_cons_hd. reflexivity.
Qed.

(** Three nested timers under a limit of 2, as in the test
    [should not exceed trace limit]: one separator. *)
Lemma nested_chain_separators_witness :
  exists text,
    renderedTrace moduleFile sourceMapPrepareStackTrace
      (nested (map schedulingStack [1; 2; 3]) [siteAt "/app/main.js" 9])
      (initial (optionsWithLimit 2))
    = Some text
    /\ separatorTokens Options.dashes text = 1.
Proof.
  destruct (nested_chain_separators moduleFile sourceMapPrepareStackTrace
              (map schedulingStack [1; 2; 3]) [siteAt "/app/main.js" 9]
              (initial (optionsWithLimit 2)) 2)
    as (text & Htrace & Hcount & _).
  - lia.
  - reflexivity.
  - reflexivity.
  - apply schedulingStacks_external.
  - reflexivity.
  - intros error sites. apply sourceMapPrepareStackTrace_fresh.
  - exists text. split; [exact Htrace | exact Hcount].
Defined.

(** C1, as stated, fails for N = L = 2: the claim promises two separator
    tokens, the trace has one. *)
Lemma nested_chain_at_limit_has_fewer_separators :
  let st := initial (optionsWithLimit 2) in
  let program :=
    nested (map schedulingStack [1; 2]) [siteAt "/app/main.js" 9] in
  ~ (2 <= 2 ->
     exists text,
       renderedTrace moduleFile sourceMapPrepareStackTrace program st
       = Some text
       /\ separatorTokens Options.dashes text = 2).
Proof.
  cbv zeta. intros Hclaim.
  destruct (Hclaim (le_n 2)) as (text & Htrace & Hcount).
  vm_compute in Htrace. injection Htrace as <-.
  vm_compute in Hcount. discriminate Hcount.
Qed.

(** The same chain under the limits 1 and 3. *)
Example nested_chain_other_limits :
  let program :=
    nested (map schedulingStack [1; 2]) [siteAt "/app/main.js" 9] in
  (separatorTokens Options.dashes <$>
     renderedTrace moduleFile sourceMapPrepareStackTrace program
       (initial (optionsWithLimit 1))) = Some 1
  /\ (separatorTokens Options.dashes <$>
      renderedTrace moduleFile sourceMapPrepareStackTrace program
        (initial (optionsWithLimit 3))) = Some 2.
Proof. split; vm_compute; reflexivity. Qed.

(** Outside the plain chains the count of C1 does not hold.  Three
    nested timers under a limit of 3: two separators; but when each
    callback first reads [new Error().stack], the markers are flattened
    one by one while they are still linked, the cut removes a
    [__parent__] but no [__cached_trace__], and the trace of the last
    error has three. *)
Example stack_reading_callbacks_keep_ancestors :
  let shim' := @shim moduleFile sourceMapPrepareStackTrace in
  let readStack' := readStack moduleFile sourceMapPrepareStackTrace in
  let reading (reads : bool) (line : nat) : M unit :=
    if reads
    then e <- newError [siteAt "/app/main.js" line] ;; readStack' e ;; ret tt
    else ret tt in
  let program (reads : bool) : M StackProperty :=
    try_catch
      (t1 <- capture (schedulingStack 1) ;;
       t2 <- shim' _ t1 (reading reads 11 ;; capture (schedulingStack 2)) ;;
       t3 <- shim' _ t2 (reading reads 12 ;; capture (schedulingStack 3)) ;;
       shim' unit t3
         (reading reads 13 ;;
          e <- newError [siteAt "/app/main.js" 9] ;; throw (ThrownError e)) ;;
       ret StackPending)
      (fun e => match e with
                | ThrownError error => readStack' error
                | _ => ret StackPending
                end) in
  let separators (reads : bool) : option nat :=
    match program reads (initial (optionsWithLimit 3)) with
    | Some (Returned (StackText text), _) =>
        Some (separatorTokens Options.dashes text)
    | _ => None
    end in
  separators false = Some 2 /\ separators true = Some 3.
Proof. split; vm_compute; reflexivity. Qed.

(** Nor does that of C2.  Two nested timers, where the callback of the
    first runs a listener through its shim before it schedules the
    second: the [finally] of that shim has cleared the context slot, the
    second marker gets no parent, and the trace has one separator, not
    two, under the limit 0 as under the limit 10. *)
Example finished_shim_cuts_the_chain :
  let shim' := @shim moduleFile sourceMapPrepareStackTrace in
  let readStack' := readStack moduleFile sourceMapPrepareStackTrace in
  let program : M StackProperty :=
    try_catch
      (t1 <- capture (schedulingStack 1) ;;
       t2 <- shim' _ t1
               (listener <- capture (schedulingStack 5) ;;
                shim' unit listener (ret tt) ;;
                capture (schedulingStack 2)) ;;
       shim' unit t2
         (e <- newError [siteAt "/app/main.js" 9] ;; throw (ThrownError e)) ;;
       ret StackPending)
      (fun e => match e with
                | ThrownError error => readStack' error
                | _ => ret StackPending
                end) in
  let separators (limit : Z) : option nat :=
    match program (initial (optionsWithLimit limit)) with
    | Some (Returned (StackText text), _) =>
        Some (separatorTokens Options.dashes text)
    | _ => None
    end in
  separators 0%Z = Some 1 /\ separators 10%Z = Some 1.
Proof. split; vm_compute; reflexivity. Qed.



(** The store a computation leaves. *)
Definition stateAfter {A} (m : M A) (st : State) : State :=
  match m st with
  | Some (_, st') => st'
  | None => st
  end.

(** One timer has been scheduled from the top level; its marker is at
    address 0. *)
Definition oneTimer : State :=
  stateAfter (capture (schedulingStack 1)) (initial (optionsWithLimit 10)).

(** The timer has fired and its callback has made an error, at address
    1, whose stack has not been read. *)
Definition errorInsideTimer : State :=
  stateAfter (newError [siteAt "/app/main.js" 9])
    (with_currentTraceError (Some 0) oneTimer).

(** A callback that throws a new error, inside the shim of the timer. *)
Lemma shim_clears_context_witness :
  exists outcome st',
    shim moduleFile sourceMapPrepareStackTrace 0
      (e <- newError [siteAt "/app/main.js" 9] ;; throw (A := unit) (ThrownError e))
      oneTimer
    = Some (outcome, st')
    /\ currentTraceError st' = None.
Proof.
  edestruct (shim_clears_context moduleFile sourceMapPrepareStackTrace 0
               (e <- newError [siteAt "/app/main.js" 9] ;;
                throw (A := unit) (ThrownError e)) oneTimer)
    as [(outcome & st' & Hrun & Hcurrent & _) _].
  - vm_compute. reflexivity.
  - apply wfb_wf. vm_compute. reflexivity.
  - intros e [= <-]. vm_compute. lia.
  - exists outcome, st'. split; [exact Hrun | exact Hcurrent].
Defined.

(** C3, as stated, fails when a shim runs inside another: a timer
    callback registers a listener and emits the event, so the listener's
    shim runs while the timer's marker is current; once it completes the
    slot is empty, not back at the timer's marker. *)
Lemma shim_does_not_restore_outer_context :
  let shim' := @shim moduleFile sourceMapPrepareStackTrace in
  let program : M (option Ref * option Ref) :=
    timer <- capture (schedulingStack 1) ;;
    shim' _ timer
      (before <- gets currentTraceError ;;
       listener <- capture (schedulingStack 2) ;;
       shim' unit listener (ret tt) ;;
       after <- gets currentTraceError ;;
       ret (before, after)) in
  ~ (exists before after st',
       program (initial (optionsWithLimit 10))
       = Some (Returned (before, after), st')
       /\ before = Some 0
       /\ after = before).
Proof.
  cbv zeta. intros (before & after & st' & Hrun & Hbefore & Hafter).
  vm_compute in Hrun. injection Hrun as <- <- _.
  discriminate Hafter.
Qed.

(** C4.  The second rendering of an error differs from the first: the
    first loop of [prepareStackTrace] splices the separator markers out of
    [combined], which is the memoized cache itself, so the second call
    finds the cache without markers and renders no separator token.
    Here the error is raised in the callback of one timer. *)
Theorem second_rendering_has_no_separators :
  exists cache text text' st1 st2,
    processStackTrace moduleFile 1 [siteAt "/app/main.js" 9] false
      errorInsideTimer
    = Some (Returned cache, stateAfter
              (processStackTrace moduleFile 1 [siteAt "/app/main.js" 9] false)
              errorInsideTimer)
    /\ prepareStackTrace moduleFile sourceMapPrepareStackTrace 1
         [siteAt "/app/main.js" 9] errorInsideTimer
       = Some (Returned text, st1)
    /\ processStackTrace moduleFile 1 [siteAt "/app/main.js" 9] false st1
       = Some (Returned cache, st1)
    /\ prepareStackTrace moduleFile sourceMapPrepareStackTrace 1
         [siteAt "/app/main.js" 9] st1
       = Some (Returned text', st2)
    /\ separatorTokens Options.dashes text = 1
    /\ separatorTokens Options.dashes text' = 0
    /\ arrays st1 !! cache
       = Some [Some (siteAt "/app/main.js" 9); Some (siteAt "/app/main.js" 1)]
    /\ arrays (stateAfter
                 (processStackTrace moduleFile 1 [siteAt "/app/main.js" 9] false)
                 errorInsideTimer) !! cache
       = Some [Some (siteAt "/app/main.js" 9); None;
               Some (siteAt "/app/main.js" 1)].
Proof.
  eexists _, _, _, _, _.
  split; [vm_compute; reflexivity |].
  split; [vm_compute; reflexivity |].
  split; [vm_compute; reflexivity |].
  split; [vm_compute; reflexivity |].
  split; [vm_compute; reflexivity |].
  split; [vm_compute; reflexivity |].
  split; vm_compute; reflexivity.
Qed.

(** Functions of a program, and an emitter with no listener. *)
Definition userFunction (n : nat) (label : string)
  : @Function unit JsValue unit :=
  {| identity := UserFunction n; name := label;
     __original_callback__ := None; call := fun _ _ => ret tt |}.

Definition newEmitter : @EventEmitter unit JsValue unit := {| _events := ∅ |}.

Definition sampleShim (traceError : Ref) (callback : @Function unit JsValue unit)
  : @Function unit JsValue unit :=
  makeShim moduleFile sourceMapPrepareStackTrace traceError 1 callback.

(** [setTimeout(foo, 0)] through a wrapper with the callback at position
    0: the delay is passed on as it is. *)
Lemma wrap_passes_through_witness :
  let arguments := [ArgFunction (userFunction 1 "foo");
                    ArgValue (VNumber (of_int 0))] in
  let args := wrapCallbacks moduleFile sourceMapPrepareStackTrace 0
                (positionList (inl 0)) arguments in
  length args = 2
  /\ args !! 0
     = Some (ArgFunction
               (makeShim moduleFile sourceMapPrepareStackTrace 0 0
                  (userFunction 1 "foo")))
  /\ args !! 1 = Some (ArgValue (VNumber (of_int 0))).
Proof.
  cbv zeta.
  destruct (wrap_passes_through moduleFile sourceMapPrepareStackTrace
              (fun (_ : unit) args => ret (length args))
              (fun args => ret (length args))
              (fun site => site) (fun _ => true) (fun _ handle => handle)
              (inl 0) true false (schedulingStack 1) tt
              [ArgFunction (userFunction 1 "foo");
               ArgValue (VNumber (of_int 0))]
              (initial (optionsWithLimit 10)) 0 oneTimer)
    as (_ & Hlength & Hshims & Hothers & _).
  - vm_compute. reflexivity.
  - split; [exact Hlength |]. split.
    + apply Hshims; [apply list_elem_of_here | reflexivity].
    + apply (Hothers 1). left. apply not_elem_of_cons.
      split; [discriminate | apply not_elem_of_nil].
Defined.

(** The scenario of the specification: three listeners registered for
    one event are enumerated as the three callbacks, in that order. *)
Lemma listeners_by_original_witness :
  exists emitter' st',
    addListeners moduleFile sourceMapPrepareStackTrace
      [(schedulingStack 1, userFunction 1 "foo1");
       (schedulingStack 2, userFunction 2 "foo2");
       (schedulingStack 3, userFunction 3 "foo3")]
      newEmitter "foo" (initial (optionsWithLimit 10))
    = Some (Returned emitter', st')
    /\ listeners emitter' "foo"
       = [userFunction 1 "foo1"; userFunction 2 "foo2"; userFunction 3 "foo3"]
    /\ NoDup (identity <$> _listeners emitter' "foo").
Proof.
  exact (proj1 (listeners_by_original moduleFile sourceMapPrepareStackTrace)
           [(schedulingStack 1, userFunction 1 "foo1");
            (schedulingStack 2, userFunction 2 "foo2");
            (schedulingStack 3, userFunction 3 "foo3")]
           newEmitter "foo" (initial (optionsWithLimit 10))
           (wfb_wf (initial (optionsWithLimit 10)) eq_refl) eq_refl).
Defined.

(** Removing the second of two registered callbacks by its original. *)
Example removeListener_by_original :
  let emitter :=
    _addListener
      (_addListener newEmitter "foo" (sampleShim 0 (userFunction 1 "foo1")))
      "foo" (sampleShim 1 (userFunction 2 "foo2")) in
  listeners (removeListener emitter "foo" (userFunction 2 "foo2")) "foo"
  = [userFunction 1 "foo1"].
Proof. reflexivity. Qed.

(** Removing a function that was never registered. *)
Lemma removeListener_without_match_witness :
  let emitter :=
    _addListener newEmitter "foo" (sampleShim 0 (userFunction 1 "foo1")) in
  removeListener emitter "foo" (userFunction 2 "foo2") = emitter.
Proof.
  cbv zeta. apply removeListener_without_match.
  repeat constructor.
Defined.

(** *** The further properties, on the sample store *)

(** The error made inside the timer's callback, as it lies in
    [errorInsideTimer] at address 1. *)
Definition pendingError : ErrorObject :=
  {| __id__ := 0; __parent__ := None;
     __stack__ := [siteAt "/app/main.js" 9];
     __trace_count__ := 0; __cached_trace__ := None;
     stack := StackPending |}.

(** The chain that hangs off the context in [errorInsideTimer]: the
    timer's marker. *)
Definition timerChain : list (Ref * list CallSite) :=
  [(0, schedulingStack 1)].

Lemma timerChain_linked :
  linked (errors errorInsideTimer) (currentTraceError errorInsideTimer)
    timerChain.
Proof.
  split; [reflexivity |]. eexists. split; [reflexivity |].
  repeat split.
Qed.

Lemma timerChain_NoDup : NoDup timerChain.*1.
Proof. apply NoDup_singleton. Qed.

Lemma timerChain_fresh : 1 ∉ timerChain.*1.
Proof. intros Hin. apply list_elem_of_singleton in Hin. discriminate Hin. Qed.

Lemma flattening_touches_only_links_witness :
  exists cache st',
    processStackTrace moduleFile 1 [siteAt "/app/main.js" 9] false
      errorInsideTimer
    = Some (Returned cache, st')
    /\ retouched 1 false (currentTraceError errorInsideTimer)
         (errors errorInsideTimer) (errors st')
    /\ (forall i e, errors errorInsideTimer !! i = Some e ->
        is_Some (__cached_trace__ e) -> errors st' !! i = Some e)
    /\ (forall i, i < length (arrays errorInsideTimer) ->
        arrays st' !! i = arrays errorInsideTimer !! i)
    /\ ERROR_ID st' = ERROR_ID errorInsideTimer
    /\ currentTraceError st' = currentTraceError errorInsideTimer
    /\ options st' = options errorInsideTimer.
Proof.
  apply (flattening_touches_only_links moduleFile).
  - apply wfb_wf. vm_compute. reflexivity.
  - vm_compute. lia.
Defined.

Lemma flattening_is_memoized_witness :
  exists cache st',
    processStackTrace moduleFile 1 [siteAt "/app/main.js" 9] false
      errorInsideTimer
    = Some (Returned cache, st')
    /\ (exists e', errors st' !! 1 = Some e'
                   /\ __cached_trace__ e' = Some cache)
    /\ forall frames' recursing',
         processStackTrace moduleFile 1 frames' recursing' st'
         = Some (Returned cache, st').
Proof.
  apply (flattening_is_memoized moduleFile).
  - apply wfb_wf. vm_compute. reflexivity.
  - vm_compute. lia.
Defined.

Lemma flattened_chain_shape_witness :
  exists st',
    processStackTrace moduleFile 1 [siteAt "/app/main.js" 9] false
      errorInsideTimer
    = Some (Returned 0, st')
    /\ arrays st' !! 0
       = Some [Some (siteAt "/app/main.js" 9); None;
               Some (siteAt "/app/main.js" 1)].
Proof.
  destruct (flattened_chain_shape moduleFile errorInsideTimer 1 pendingError
              [siteAt "/app/main.js" 9] timerChain)
    as (st' & Hrun & Hcontent & _).
  - reflexivity.
  - reflexivity.
  - reflexivity.
  - exact timerChain_linked.
  - exact timerChain_NoDup.
  - exact timerChain_fresh.
  - exists st'. split; [exact Hrun | exact Hcontent].
Defined.

(** An error made at the top level, before any timer. *)
Definition errorAtTopLevel : State :=
  stateAfter (newError [siteAt "/app/main.js" 3])
    (initial (optionsWithLimit 10)).

Lemma untraced_error_renders_as_before_witness :
  exists st',
    prepareStackTrace moduleFile sourceMapPrepareStackTrace 0
      [siteAt "/app/main.js" 3] errorAtTopLevel
    = Some (Returned
              (sourceMapPrepareStackTrace 0 [siteAt "/app/main.js" 3]), st').
Proof.
  destruct (untraced_error_renders_as_before moduleFile
              sourceMapPrepareStackTrace errorAtTopLevel 0
              {| __id__ := 0; __parent__ := None;
                 __stack__ := [siteAt "/app/main.js" 3];
                 __trace_count__ := 0; __cached_trace__ := None;
                 stack := StackPending |}
              [siteAt "/app/main.js" 3])
    as (st' & _ & Hrun & _).
  - reflexivity.
  - reflexivity.
  - reflexivity.
  - reflexivity.
  - exists st'. apply Hrun. repeat constructor.
Defined.

Lemma frameLine_no_newline site : has_newline (frameLine site) = false.
Proof. cbn. apply oneLine_no_newline. Qed.

Lemma trace_layout_witness :
  exists st',
    prepareStackTrace moduleFile sourceMapPrepareStackTrace 1
      [siteAt "/app/main.js" 9] errorInsideTimer
    = Some (Returned
              (join_lines
                 ["Error"%string; frameLine (siteAt "/app/main.js" 9);
                  Options.dashes; frameLine (siteAt "/app/main.js" 1)]), st').
Proof.
  apply (trace_layout moduleFile sourceMapPrepareStackTrace errorInsideTimer 1
           pendingError [siteAt "/app/main.js" 9] timerChain
           "Error"%string frameLine).
  - reflexivity.
  - reflexivity.
  - reflexivity.
  - exact timerChain_linked.
  - exact timerChain_NoDup.
  - exact timerChain_fresh.
  - reflexivity.
  - reflexivity.
  - exact frameLine_no_newline.
Defined.

(** Three nested timers under a limit of 3: the trace shows the error
    and the two innermost scheduling calls. *)
Lemma nested_trace_text_witness :
  renderedTrace moduleFile sourceMapPrepareStackTrace
    (nested (map schedulingStack [1; 2; 3]) [siteAt "/app/main.js" 9])
    (initial (optionsWithLimit 3))
  = Some (join_lines
            ["Error"%string; frameLine (siteAt "/app/main.js" 9);
             Options.dashes; frameLine (siteAt "/app/main.js" 3);
             Options.dashes; frameLine (siteAt "/app/main.js" 2)]).
Proof.
  apply (nested_trace_text moduleFile sourceMapPrepareStackTrace
           (map schedulingStack [1; 2; 3]) [siteAt "/app/main.js" 9]
           (initial (optionsWithLimit 3))
           (fun _ => "Error"%string) frameLine).
  - reflexivity.
  - reflexivity.
  - reflexivity.
  - exact frameLine_no_newline.
Defined.

Lemma capture_touches_one_link_witness :
  exists st' marker,
    capture (schedulingStack 2) (with_currentTraceError (Some 0) oneTimer)
    = Some (Returned 1, st')
    /\ errors st' !! 1 = Some marker
    /\ __id__ marker = 2
    /\ __trace_count__ marker = 2
    /\ ERROR_ID st' = 3.
Proof.
  destruct (capture_touches_one_link
              (with_currentTraceError (Some 0) oneTimer) (schedulingStack 2))
    as (st' & marker & Hrun & _ & _ & Hmarker & Hid & _ & _ & _ & Hcount & _
        & Hcounter & _).
  - apply wfb_wf. vm_compute. reflexivity.
  - exists st', marker. split; [exact Hrun |]. split; [exact Hmarker |].
    split; [exact Hid |]. split; [exact Hcount | exact Hcounter].
Defined.

Lemma oneTimer_idsBelow : idsBelow oneTimer.
Proof.
  intros [| i] e He _; [| discriminate He].
  injection He as <-. vm_compute. lia.
Qed.

Lemma oneTimer_idsDistinct : idsDistinct oneTimer.
Proof.
  intros [| i] [| j] e e' He He' _ _ _; try discriminate He;
    try discriminate He'. reflexivity.
Qed.

Lemma marker_ids_stay_unique_witness :
  exists st',
    capture (schedulingStack 2) oneTimer = Some (Returned 1, st')
    /\ idsBelow st' /\ idsDistinct st'.
Proof.
  apply (proj1 (marker_ids_stay_unique moduleFile oneTimer (schedulingStack 2)
                  (wfb_wf oneTimer eq_refl)
                  oneTimer_idsBelow oneTimer_idsDistinct)).
Defined.

(** A timer scheduled under a limit of 2, and the store while its
    callback runs. *)
Definition insideTimerUnderLimitTwo : State :=
  with_currentTraceError (Some 0)
    (stateAfter (capture (schedulingStack 1)) (initial (optionsWithLimit 2))).

Lemma capture_under_small_limit_witness :
  exists st' marker,
    capture (schedulingStack 2) insideTimerUnderLimitTwo
    = Some (Returned 1, st')
    /\ errors st' = errors insideTimerUnderLimitTwo ++ [marker]
    /\ __parent__ marker = None
    /\ __stack__ marker = schedulingStack 2.
Proof.
  apply (capture_under_small_limit insideTimerUnderLimitTwo
           (schedulingStack 2)).
  - apply wfb_wf. vm_compute. reflexivity.
  - vm_compute. split; [reflexivity | discriminate].
Defined.

Lemma thrown_error_is_linked_witness :
  exists st' e' text,
    shim moduleFile sourceMapPrepareStackTrace 0
      (e <- newError [siteAt "/app/main.js" 9] ;;
       throw (A := unit) (ThrownError e)) oneTimer
    = Some (Threw (ThrownError 1), st')
    /\ currentTraceError st' = None
    /\ errors st' !! 1 = Some e'
    /\ __parent__ e' = Some 0
    /\ stack e' = StackText text
    /\ readStack moduleFile sourceMapPrepareStackTrace 1 st'
       = Some (Returned (StackText text), st').
Proof.
  destruct (thrown_error_is_linked moduleFile sourceMapPrepareStackTrace 0
              (e <- newError [siteAt "/app/main.js" 9] ;;
               throw (A := unit) (ThrownError e))
              oneTimer errorInsideTimer 1 pendingError timerChain)
    as (st' & e' & text & Hrun & Hcur & He' & Hparent & Hstack & _ & _ & Hread).
  - reflexivity.
  - reflexivity.
  - reflexivity.
  - reflexivity.
  - reflexivity.
  - exact timerChain_linked.
  - exact timerChain_NoDup.
  - exact timerChain_fresh.
  - exists st', e', text. repeat (split; [assumption |]). assumption.
Defined.

(** The other case: the callback of the timer first runs a listener
    through its shim, which clears the context slot, and then throws.
    The error is thrown on without a parent, and its trace has no
    separator. *)
Example thrown_error_after_inner_shim :
  let shim' := @shim moduleFile sourceMapPrepareStackTrace in
  let program : M unit :=
    timer <- capture (schedulingStack 1) ;;
    shim' unit timer
      (listener <- capture (schedulingStack 2) ;;
       shim' unit listener (ret tt) ;;
       e <- newError [siteAt "/app/main.js" 9] ;;
       throw (ThrownError e)) in
  exists st' e' text,
    program (initial (optionsWithLimit 10))
    = Some (Threw (ThrownError 2), st')
    /\ errors st' !! 2 = Some e'
    /\ __parent__ e' = None
    /\ stack e' = StackText text
    /\ separatorTokens Options.dashes text = 0.
Proof.
  cbv zeta. eexists _, _, _. split; [vm_compute; reflexivity |].
  split; [reflexivity |]. split; [reflexivity |].
  split; [reflexivity |]. vm_compute. reflexivity.
Qed.

(** One callback registered twice: removing it once leaves the later
    registration. *)
Lemma removeListener_removes_first_match_witness :
  let foo := userFunction 1 "foo" in
  let emitter :=
    _addListener (_addListener newEmitter "foo" (sampleShim 0 foo))
      "foo" (sampleShim 1 foo) in
  _listeners (removeListener emitter "foo" foo) "foo" = [sampleShim 1 foo].
Proof.
  cbv zeta.
  apply (proj1 (removeListener_removes_first_match
                  (_addListener
                     (_addListener newEmitter "foo"
                        (sampleShim 0 (userFunction 1 "foo")))
                     "foo" (sampleShim 1 (userFunction 1 "foo")))
                  "foo" (userFunction 1 "foo")
                  ltac:(cbn; apply NoDup_cons; split;
                        [intros Hin; apply list_elem_of_singleton in Hin;
                         discriminate Hin | apply NoDup_singleton]))).
Defined.

Lemma listener_patches_touch_one_event_witness :
  let emitter :=
    _addListener newEmitter "foo" (sampleShim 0 (userFunction 1 "foo1")) in
  _listeners (removeListener emitter "foo" (userFunction 1 "foo1")) "bar"
  = _listeners emitter "bar".
Proof.
  cbv zeta.
  apply (proj1 (listener_patches_touch_one_event moduleFile
                  sourceMapPrepareStackTrace
                  (_addListener newEmitter "foo"
                     (sampleShim 0 (userFunction 1 "foo1")))
                  "foo" "bar" (userFunction 1 "foo1") (schedulingStack 2)
                  oneTimer ltac:(discriminate)
                  (wfb_wf oneTimer eq_refl))).
Defined.

(** [throw null] inside the callback of the timer. *)
Lemma shim_rethrows_values_witness :
  exists message,
    shim moduleFile sourceMapPrepareStackTrace 0
      (throw (A := unit) (ThrownValue VNull)) oneTimer
    = Some (Threw (TypeError message), with_currentTraceError None oneTimer).
Proof.
  apply (proj1 (shim_rethrows_values moduleFile sourceMapPrepareStackTrace 0
                  (throw (A := unit) (ThrownValue VNull))
                  oneTimer (with_currentTraceError (Some 0) oneTimer) VNull
                  eq_refl)).
  by left.
Defined.

(** A second timer scheduled from the callback of the first, under a
    limit of 10: both markers stay linked. *)
Lemma capture_limits_chain_witness :
  exists st',
    capture (schedulingStack 2) (with_currentTraceError (Some 0) oneTimer)
    = Some (Returned 1, st')
    /\ linked (errors st') (Some 1)
         [(1, schedulingStack 2); (0, schedulingStack 1)].
Proof.
  destruct (capture_limits_chain (with_currentTraceError (Some 0) oneTimer)
              timerChain (schedulingStack 2))
    as (st' & chain' & Hrun & Hlinked & -> & _).
  - split; [reflexivity |]. eexists. split; [reflexivity |]. repeat split.
  - exact timerChain_NoDup.
  - exists st'. split; [exact Hrun | exact Hlinked].
Defined.

End DoubleStack.

(* ================================================================== *)
(** ** double-stack.js: the report of active handles *)
(* ================================================================== *)

Module ActiveHandles.
Import Js.

(** What [getActiveHandles] reads of an object: the outcome of the
    [instanceof] and [typeof] tests it makes, and the two properties the
    walk over a timer list follows.  [_list] is [None] when the property
    is falsy, [_idleNext] when it is [undefined], as it is on an object
    that has no such property; a link that is [null] is not described. *)
Record Object := {
  instanceofTimer : bool;
  instanceofSocket : bool;
  instanceofServer : bool;
  instanceofChildProcess : bool;
  instanceofEventEmitter : bool;
  startIsFunction : bool;
  closeIsFunction : bool;
  _handleInstanceofFSEvent : bool;
  _list : option Ref;
  _idleNext : option Ref
}.

(** The objects by address. *)
Definition Heap : Type := list Object.

(** The object the function returns. *)
Record Handles := {
  sockets : list Ref;
  servers : list Ref;
  timers : list Ref;
  childProcesses : list Ref;
  fsWatchers : list Ref;
  other : list Ref
}.

Definition noHandles : Handles :=
  {| sockets := []; servers := []; timers := []; childProcesses := [];
     fsWatchers := []; other := [] |}.

Definition with_sockets (l : list Ref) (handles : Handles) : Handles :=
  {| sockets := l; servers := servers handles; timers := timers handles;
     childProcesses := childProcesses handles;
     fsWatchers := fsWatchers handles; other := other handles |}.

Definition with_servers (l : list Ref) (handles : Handles) : Handles :=
  {| sockets := sockets handles; servers := l; timers := timers handles;
     childProcesses := childProcesses handles;
     fsWatchers := fsWatchers handles; other := other handles |}.

Definition with_timers (l : list Ref) (handles : Handles) : Handles :=
  {| sockets := sockets handles; servers := servers handles; timers := l;
     childProcesses := childProcesses handles;
     fsWatchers := fsWatchers handles; other := other handles |}.

Definition with_childProcesses (l : list Ref) (handles : Handles) : Handles :=
  {| sockets := sockets handles; servers := servers handles;
     timers := timers handles; childProcesses := l;
     fsWatchers := fsWatchers handles; other := other handles |}.

Definition with_fsWatchers (l : list Ref) (handles : Handles) : Handles :=
  {| sockets := sockets handles; servers := servers handles;
     timers := timers handles; childProcesses := childProcesses handles;
     fsWatchers := l; other := other handles |}.

Definition with_other (l : list Ref) (handles : Handles) : Handles :=
  {| sockets := sockets handles; servers := servers handles;
     timers := timers handles; childProcesses := childProcesses handles;
     fsWatchers := fsWatchers handles; other := l |}.

Definition undefined_message : string :=
  "Cannot read property '_idleNext' of undefined".

(** The walk over a timer list:
<<
    let t = timerList._idleNext;
    while (t !== timerList) {
        handles.timers.push(t);
        t = t._idleNext;
    }
>>
    [None] is a walk that never comes back to [timerList], or an address
    with no object behind it.  The loop pushes an [undefined] link like
    any other and then reads [_idleNext] of it, which throws. *)
Fixpoint timerWalk (fuel : nat) (heap : Heap) (timerList : Ref)
  (t : option Ref) (timers : list Ref) : option (Outcome (list Ref)) :=
  match fuel with
  | 0 => None
  | S fuel' =>
      match t with
      | None => Some (Threw (TypeError undefined_message))
      | Some r =>
          if bool_decide (r = timerList) then Some (Returned timers)
          else match heap !! r with
               | Some o =>
                   timerWalk fuel' heap timerList (_idleNext o) (timers ++ [r])
               | None => None
               end
      end
  end.

(** The last test of the chain:
<<
    handle instanceof EventEmitter && typeof handle.start === 'function'
      && typeof handle.close === 'function'
      && handle._handle instanceof FSEvent
>> *)
Definition isFSWatcher (o : Object) : bool :=
  instanceofEventEmitter o && startIsFunction o && closeIsFunction o
  && _handleInstanceofFSEvent o.

(** The body of the loop over [process._getActiveHandles()].  A walk
    that has not come back to its list after one step per object of the
    heap, and one more, is on a cycle that does not hold the list. *)
Definition visit (heap : Heap) (handles : Handles) (handle : Ref)
  : option (Outcome Handles) :=
  match heap !! handle with
  | None => None
  | Some o =>
      if instanceofTimer o then
        let timerList := default handle (_list o) in
        match heap !! timerList with
        | None => None
        | Some l =>
            match timerWalk (S (length heap)) heap timerList (_idleNext l)
                    (timers handles) with
            | Some (Returned ts) => Some (Returned (with_timers ts handles))
            | Some (Threw t) => Some (Threw t)
            | None => None
            end
        end
      else if instanceofSocket o then
        Some (Returned (with_sockets (sockets handles ++ [handle]) handles))
      else if instanceofServer o then
        Some (Returned (with_servers (servers handles ++ [handle]) handles))
      else if instanceofChildProcess o then
        Some (Returned
                (with_childProcesses (childProcesses handles ++ [handle]) handles))
      else if isFSWatcher o then
        Some (Returned (with_fsWatchers (fsWatchers handles ++ [handle]) handles))
      else
        Some (Returned (with_other (other handles ++ [handle]) handles))
  end.

Fixpoint visitAll (heap : Heap) (handles : Handles) (active : list Ref)
  : option (Outcome Handles) :=
  match active with
  | [] => Some (Returned handles)
  | handle :: rest =>
      match visit heap handles handle with
      | Some (Returned handles') => visitAll heap handles' rest
      | result => result
      end
  end.

(** [getActiveHandles()], on the heap and on what
    [process._getActiveHandles()] returns. *)
Definition getActiveHandles (heap : Heap) (active : list Ref)
  : option (Outcome Handles) :=
  visitAll heap noHandles active.

(** *** Timer lists *)

(** The timers of a list, in the order of the [_idleNext] links: from
    [t], the links lead through [nodes] and then to [timerList]. *)
Fixpoint ring (heap : Heap) (timerList : Ref) (t : option Ref)
  (nodes : list Ref) : Prop :=
  match nodes with
  | [] => t = Some timerList
  | r :: rest =>
      t = Some r /\ r ≠ timerList
      /\ exists o, heap !! r = Some o
                   /\ ring heap timerList (_idleNext o) rest
  end.

(** A list that is not closed: from [t], the links lead through [nodes]
    and then to [undefined]. *)
Fixpoint strand (heap : Heap) (timerList : Ref) (t : option Ref)
  (nodes : list Ref) : Prop :=
  match nodes with
  | [] => t = None
  | r :: rest =>
      t = Some r /\ r ≠ timerList
      /\ exists o, heap !! r = Some o
                   /\ strand heap timerList (_idleNext o) rest
  end.

(** Whether the object at an address passes a test. *)
Definition holds (heap : Heap) (p : Object -> bool) (handle : Ref) : bool :=
  match heap !! handle with
  | Some o => p o
  | None => false
  end.

(** The tests in the order the chain of [if]s makes them: a bucket takes
    the handles that pass its test and failed every earlier one. *)
Definition toSockets (o : Object) : bool :=
  negb (instanceofTimer o) && instanceofSocket o.

Definition toServers (o : Object) : bool :=
  negb (instanceofTimer o) && negb (instanceofSocket o) && instanceofServer o.

Definition toChildProcesses (o : Object) : bool :=
  negb (instanceofTimer o) && negb (instanceofSocket o)
  && negb (instanceofServer o) && instanceofChildProcess o.

Definition toFsWatchers (o : Object) : bool :=
  negb (instanceofTimer o) && negb (instanceofSocket o)
  && negb (instanceofServer o) && negb (instanceofChildProcess o)
  && isFSWatcher o.

Definition toOther (o : Object) : bool :=
  negb (instanceofTimer o) && negb (instanceofSocket o)
  && negb (instanceofServer o) && negb (instanceofChildProcess o)
  && negb (isFSWatcher o).

(** The handles of [active] that pass a test, in order. *)
Definition passing (heap : Heap) (p : Object -> bool) (active : list Ref)
  : list Ref :=
  filter (fun handle => holds heap p handle = true) active.

(** A handle the function can classify: it has an object, and if that is
    a timer, its list has one whose links close into the ring
    [timersOf handle]. *)
Definition classifiable (heap : Heap) (timersOf : Ref -> list Ref)
  (handle : Ref) : Prop :=
  exists o, heap !! handle = Some o
    /\ (instanceofTimer o = true ->
        exists l, heap !! default handle (_list o) = Some l
          /\ ring heap (default handle (_list o)) (_idleNext l)
               (timersOf handle)).

Lemma ring_valid heap timerList t nodes :
  ring heap timerList t nodes -> Forall (fun r => r < length heap) nodes.
Proof.
  revert t. induction nodes as [| r rest IH]; intros t; cbn; [done |].
  intros (_ & _ & o & Ho & Hrest). constructor.
  - by eapply lookup_lt_Some.
  - by eapply IH.
Qed.

(** The links from an object are a function of the object, so a ring is
    determined by where it starts. *)
Lemma ring_functional heap timerList t nodes : forall nodes',
  ring heap timerList t nodes -> ring heap timerList t nodes' ->
  nodes = nodes'.
Proof.
  revert t. induction nodes as [| r rest IH]; intros t [| r' rest']; cbn.
  - done.
  - intros -> ([= <-] & Hne & _). done.
  - intros (-> & Hne & _) [= ->]. done.
  - intros (-> & _ & o & Ho & Hrest) ([= <-] & _ & o' & Ho' & Hrest').
    rewrite Ho in Ho'. injection Ho' as <-.
    f_equal. by eapply IH.
Qed.

Lemma ring_suffix heap timerList before : forall t r after,
  ring heap timerList t (before ++ r :: after) ->
  ring heap timerList (Some r) (r :: after).
Proof.
  induction before as [| x before IH]; intros t r after; cbn.
  - intros (-> & Hne & o & Ho & Hrest). eauto.
  - intros (-> & _ & o & Ho & Hrest). by eapply IH.
Qed.

(** No timer occurs twice in a ring. *)
Lemma ring_NoDup heap timerList nodes : forall t,
  ring heap timerList t nodes -> NoDup nodes.
Proof.
  induction nodes as [| r rest IH]; intros t Hring; [constructor |].
  pose proof Hring as (-> & Hne & o & Ho & Hrest). constructor.
  - intros (before & after & ->)%list_elem_of_split.
    pose proof (ring_suffix _ _ (r :: before) _ r after Hring) as Hagain.
    pose proof (ring_functional _ _ _ _ _ Hring Hagain) as Heq.
    apply (f_equal length) in Heq. cbn in Heq.
    rewrite length_app in Heq. cbn in Heq. lia.
  - by eapply IH.
Qed.

Lemma timerWalk_ring heap timerList nodes : forall fuel t acc,
  ring heap timerList t nodes -> length nodes < fuel ->
  timerWalk fuel heap timerList t acc = Some (Returned (acc ++ nodes)).
Proof.
  induction nodes as [| r rest IH]; intros [| fuel] t acc Hring Hfuel;
    cbn in Hfuel; try lia.
  - cbn in Hring. subst t. cbn. rewrite bool_decide_eq_true_2 by done.
    by rewrite app_nil_r.
  - destruct Hring as (-> & Hne & o & Ho & Hrest). cbn.
    rewrite bool_decide_eq_false_2 by done. rewrite Ho.
    rewrite (IH fuel _ _ Hrest) by lia. by rewrite <- app_assoc.
Qed.

Lemma strand_valid heap timerList t nodes :
  strand heap timerList t nodes -> Forall (fun r => r < length heap) nodes.
Proof.
  revert t. induction nodes as [| r rest IH]; intros t; cbn; [done |].
  intros (_ & _ & o & Ho & Hrest). constructor.
  - by eapply lookup_lt_Some.
  - by eapply IH.
Qed.

Lemma strand_functional heap timerList t nodes : forall nodes',
  strand heap timerList t nodes -> strand heap timerList t nodes' ->
  nodes = nodes'.
Proof.
  revert t. induction nodes as [| r rest IH]; intros t [| r' rest']; cbn.
  - done.
  - by intros -> ([=] & _).
  - by intros (-> & _) [=].
  - intros (-> & _ & o & Ho & Hrest) ([= <-] & _ & o' & Ho' & Hrest').
    rewrite Ho in Ho'. injection Ho' as <-.
    f_equal. by eapply IH.
Qed.

Lemma strand_suffix heap timerList before : forall t r after,
  strand heap timerList t (before ++ r :: after) ->
  strand heap timerList (Some r) (r :: after).
Proof.
  induction before as [| x before IH]; intros t r after; cbn.
  - intros (-> & Hne & o & Ho & Hrest). eauto.
  - intros (-> & _ & o & Ho & Hrest). by eapply IH.
Qed.

Lemma strand_NoDup heap timerList nodes : forall t,
  strand heap timerList t nodes -> NoDup nodes.
Proof.
  induction nodes as [| r rest IH]; intros t Hstrand; [constructor |].
  pose proof Hstrand as (-> & Hne & o & Ho & Hrest). constructor.
  - intros (before & after & ->)%list_elem_of_split.
    pose proof (strand_suffix _ _ (r :: before) _ r after Hstrand) as Hagain.
    pose proof (strand_functional _ _ _ _ _ Hstrand Hagain) as Heq.
    apply (f_equal length) in Heq. cbn in Heq.
    rewrite length_app in Heq. cbn in Heq. lia.
  - by eapply IH.
Qed.

Lemma timerWalk_strand heap timerList nodes : forall fuel t acc,
  strand heap timerList t nodes -> length nodes < fuel ->
  timerWalk fuel heap timerList t acc
  = Some (Threw (TypeError undefined_message)).
Proof.
  induction nodes as [| r rest IH]; intros [| fuel] t acc Hstrand Hfuel;
    cbn in Hfuel; try lia.
  - cbn in Hstrand. by subst t.
  - destruct Hstrand as (-> & Hne & o & Ho & Hrest). cbn.
    rewrite bool_decide_eq_false_2 by done. rewrite Ho.
    by rewrite (IH fuel _ _ Hrest) by lia.
Qed.

Lemma passing_cons heap p handle rest o :
  heap !! handle = Some o ->
  passing heap p (handle :: rest)
  = if p o then handle :: passing heap p rest else passing heap p rest.
Proof.
  intros Ho. unfold passing.
  destruct (p o) eqn:Hp.
  - rewrite filter_cons_True; [done |]. unfold holds. by rewrite Ho.
  - rewrite filter_cons_False; [done |]. unfold holds. rewrite Ho, Hp. done.
Qed.

(** What the loop leaves in each array. *)
Definition report (heap : Heap) (timersOf : Ref -> list Ref)
  (handles : Handles) (active : list Ref) : Handles :=
  {| sockets := sockets handles ++ passing heap toSockets active;
     servers := servers handles ++ passing heap toServers active;
     timers := timers handles
               ++ concat (timersOf <$> passing heap instanceofTimer active);
     childProcesses :=
       childProcesses handles ++ passing heap toChildProcesses active;
     fsWatchers := fsWatchers handles ++ passing heap toFsWatchers active;
     other := other handles ++ passing heap toOther active |}.

Lemma distinct_below (l : list nat) n :
  NoDup l -> Forall (fun x => x < n) l -> length l <= n.
Proof.
  intros Hnd Hall.
  assert (length l <= length (seq 0 n)) as Hle.
  { apply submseteq_length, NoDup_submseteq; [done |].
    intros x Hx. rewrite Forall_forall in Hall. apply elem_of_seq.
    specialize (Hall x Hx). lia. }
  by rewrite length_seq in Hle.
Qed.

Lemma visitAll_report heap timersOf active : forall handles,
  Forall (classifiable heap timersOf) active ->
  visitAll heap handles active
  = Some (Returned (report heap timersOf handles active)).
Proof.
  induction active as [| handle rest IH]; intros handles Hall.
  - cbn. unfold report, passing. cbn. rewrite !app_nil_r.
    by destruct handles.
  - apply Forall_cons in Hall as [(o & Ho & Htimer) Hall].
    cbn [visitAll]. unfold visit. rewrite Ho.
    unfold report.
    rewrite !(passing_cons heap _ handle rest o Ho).
    unfold toSockets, toServers, toChildProcesses, toFsWatchers, toOther.
    destruct (instanceofTimer o) eqn:Ht.
    + destruct (Htimer eq_refl) as (l & Hl & Hring). cbn zeta. rewrite Hl.
      rewrite (timerWalk_ring _ _ _ _ _ _ Hring).
      * rewrite IH by done. unfold report. cbn. by rewrite app_assoc.
      * pose proof (distinct_below _ _ (ring_NoDup _ _ _ _ Hring)
                      (ring_valid _ _ _ _ Hring)). lia.
    + cbn [negb andb].
      destruct (instanceofSocket o); cbn [negb andb];
        [rewrite IH by done; unfold report; cbn; by rewrite <- !app_assoc |].
      destruct (instanceofServer o); cbn [negb andb];
        [rewrite IH by done; unfold report; cbn; by rewrite <- !app_assoc |].
      destruct (instanceofChildProcess o); cbn [negb andb];
        [rewrite IH by done; unfold report; cbn; by rewrite <- !app_assoc |].
      destruct (isFSWatcher o); cbn [negb andb];
        rewrite IH by done; unfold report; cbn; by rewrite <- !app_assoc.
Qed.

Lemma visitAll_app heap before : forall handles after,
  visitAll heap handles (before ++ after)
  = match visitAll heap handles before with
    | Some (Returned handles') => visitAll heap handles' after
    | result => result
    end.
Proof.
  induction before as [| handle before IH]; intros handles after; [done |].
  cbn [app visitAll].
  destruct (visit heap handles handle) as [[handles' | t] |]; [| done | done].
  apply IH.
Qed.

Lemma passing_timers_split heap active :
  Forall (fun handle => is_Some (heap !! handle)) active ->
  passing heap toSockets active ++ passing heap toServers active
  ++ passing heap toChildProcesses active ++ passing heap toFsWatchers active
  ++ passing heap toOther active
  ≡ₚ passing heap (fun o => negb (instanceofTimer o)) active.
Proof.
  induction active as [| handle rest IH]; intros Hall; [done |].
  apply Forall_cons in Hall as [[o Ho] Hall].
  rewrite !(passing_cons heap _ handle rest o Ho).
  unfold toSockets, toServers, toChildProcesses, toFsWatchers, toOther.
  destruct (instanceofTimer o); cbn [negb andb]; [by apply IH |].
  destruct (instanceofSocket o); cbn [negb andb].
  { rewrite <- ?app_comm_cons. constructor. by apply IH. }
  destruct (instanceofServer o); cbn [negb andb].
  { rewrite <- ?app_comm_cons, <- ?Permutation_middle.
    constructor. by apply IH. }
  destruct (instanceofChildProcess o); cbn [negb andb].
  { rewrite <- ?app_comm_cons, <- ?Permutation_middle.
    constructor. by apply IH. }
  destruct (isFSWatcher o); cbn [negb andb].
  { rewrite <- ?app_comm_cons, <- ?Permutation_middle.
    constructor. by apply IH. }
  rewrite <- ?Permutation_middle. constructor. by apply IH.
Qed.

(** X3.  When every active handle has an object and every timer among
    them has a list whose [_idleNext] links close into a ring,
    [getActiveHandles] returns, and: [timers] holds, for each timer
    handle in order, the timers of its list in the order of the links,
    the list itself left out; every other handle is put, in order, into
    the array of the first test it passes ([Socket], [Server],
    [ChildProcess], file-system watcher) or into [other] when it passes
    none; so the five arrays together hold every handle that is not a
    timer exactly once. *)
Theorem getActiveHandles_classifies
  (heap : Heap) (timersOf : Ref -> list Ref) (active : list Ref) :
  Forall (classifiable heap timersOf) active ->
  exists handles,
    getActiveHandles heap active = Some (Returned handles)
    /\ timers handles
       = concat (timersOf <$> passing heap instanceofTimer active)
    /\ sockets handles = passing heap toSockets active
    /\ servers handles = passing heap toServers active
    /\ childProcesses handles = passing heap toChildProcesses active
    /\ fsWatchers handles = passing heap toFsWatchers active
    /\ other handles = passing heap toOther active
    /\ sockets handles ++ servers handles ++ childProcesses handles
       ++ fsWatchers handles ++ other handles
       ≡ₚ passing heap (fun o => negb (instanceofTimer o)) active.
Proof.
  intros Hall. eexists. split.
  { unfold getActiveHandles. by apply visitAll_report. }
  cbn. repeat (split; [reflexivity |]).
  apply passing_timers_split.
  eapply Forall_impl; [exact Hall |]. intros handle (o & Ho & _). by exists o.
Qed.

(** X4.  A timer whose list is not closed makes the function throw: when
    the handles before it can be classified and the [_idleNext] links of
    its list end in [undefined], [getActiveHandles] raises the type error
    of reading a property of [undefined] and returns no report. *)
Theorem getActiveHandles_open_list_throws
  (heap : Heap) (timersOf : Ref -> list Ref)
  (before after : list Ref) (handle : Ref) (o l : Object) (nodes : list Ref) :
  Forall (classifiable heap timersOf) before ->
  heap !! handle = Some o ->
  instanceofTimer o = true ->
  heap !! default handle (_list o) = Some l ->
  strand heap (default handle (_list o)) (_idleNext l) nodes ->
  getActiveHandles heap (before ++ handle :: after)
  = Some (Threw (TypeError undefined_message)).
Proof.
  intros Hbefore Ho Htimer Hl Hstrand. unfold getActiveHandles.
  rewrite visitAll_app, (visitAll_report _ _ _ _ Hbefore).
  cbn [visitAll]. unfold visit. rewrite Ho, Htimer. cbn zeta. rewrite Hl.
  rewrite (timerWalk_strand _ _ _ _ _ _ Hstrand); [done |].
  pose proof (distinct_below _ _ (strand_NoDup _ _ _ _ Hstrand)
                (strand_valid _ _ _ _ Hstrand)). lia.
Qed.

(** A heap to run the function on: a timer list with two timers, a
    socket, a server and a plain handle; and one whose timer list has
    lost its last link. *)
Definition plain : Object :=
  {| instanceofTimer := false; instanceofSocket := false;
     instanceofServer := false; instanceofChildProcess := false;
     instanceofEventEmitter := false; startIsFunction := false;
     closeIsFunction := false; _handleInstanceofFSEvent := false;
     _list := None; _idleNext := None |}.

Definition timerObject (next : option Ref) : Object :=
  {| instanceofTimer := true; instanceofSocket := false;
     instanceofServer := false; instanceofChildProcess := false;
     instanceofEventEmitter := false; startIsFunction := false;
     closeIsFunction := false; _handleInstanceofFSEvent := false;
     _list := None; _idleNext := next |}.

Definition timeout (next : option Ref) : Object :=
  {| instanceofTimer := false; instanceofSocket := false;
     instanceofServer := false; instanceofChildProcess := false;
     instanceofEventEmitter := false; startIsFunction := false;
     closeIsFunction := false; _handleInstanceofFSEvent := false;
     _list := None; _idleNext := next |}.

Definition socket : Object :=
  {| instanceofTimer := false; instanceofSocket := true;
     instanceofServer := false; instanceofChildProcess := false;
     instanceofEventEmitter := true; startIsFunction := false;
     closeIsFunction := false; _handleInstanceofFSEvent := false;
     _list := None; _idleNext := None |}.

Definition server : Object :=
  {| instanceofTimer := false; instanceofSocket := false;
     instanceofServer := true; instanceofChildProcess := false;
     instanceofEventEmitter := true; startIsFunction := false;
     closeIsFunction := true; _handleInstanceofFSEvent := false;
     _list := None; _idleNext := None |}.

Definition sampleHeap : Heap :=
  [timerObject (Some 1); timeout (Some 2); timeout (Some 0);
   socket; server; plain].

Definition sampleTimers (handle : Ref) : list Ref :=
  match handle with 0 => [1; 2] | _ => [] end.

Definition brokenHeap : Heap :=
  [timerObject (Some 1); timeout (Some 2); timeout None; socket].

Lemma getActiveHandles_classifies_witness :
  exists handles,
    getActiveHandles sampleHeap [3; 0; 5; 4] = Some (Returned handles)
    /\ timers handles = [1; 2]
    /\ sockets handles = [3]
    /\ servers handles = [4]
    /\ childProcesses handles = []
    /\ fsWatchers handles = []
    /\ other handles = [5]
    /\ sockets handles ++ servers handles ++ childProcesses handles
       ++ fsWatchers handles ++ other handles
       ≡ₚ [3; 5; 4].
Proof.
  apply (getActiveHandles_classifies sampleHeap sampleTimers [3; 0; 5; 4]).
  repeat apply Forall_cons_2; try apply Forall_nil_2.
  - exists socket. split; [reflexivity | discriminate].
  - exists (timerObject (Some 1)). split; [reflexivity |]. intros _.
    exists (timerObject (Some 1)). split; [reflexivity |].
    cbn. split; [done |]. split; [done |].
    eexists. split; [reflexivity |]. split; [done |]. split; [done |].
    eexists. split; [reflexivity |]. done.
  - exists plain. split; [reflexivity | discriminate].
  - exists server. split; [reflexivity | discriminate].
Defined.

Lemma getActiveHandles_open_list_throws_witness :
  getActiveHandles brokenHeap [3; 0]
  = Some (Threw (TypeError undefined_message)).
Proof.
  apply (getActiveHandles_open_list_throws brokenHeap (fun _ => [])
           [3] [] 0 (timerObject (Some 1)) (timerObject (Some 1)) [1; 2]).
  - apply Forall_cons_2; [| apply Forall_nil_2].
    exists socket. split; [reflexivity | discriminate].
  - reflexivity.
  - reflexivity.
  - reflexivity.
  - cbn. split; [done |]. split; [done |].
    eexists. split; [reflexivity |]. split; [done |]. split; [done |].
    eexists. split; [reflexivity |]. done.
Defined.

End ActiveHandles.

(* ================================================================== *)
(** ** index.js: the renderer hook *)
(* ================================================================== *)

Module Index.
Import Js DoubleStack.

Section Renderer.
Variable __filename : string.

(** [prepareStackTrace(error, stack, recursing)] of [index.js].  Its body
    down to the [return] is, line for line, the body of
    [processStackTrace] in [double-stack.js]; the nested calls pass
    [recursing = true] and so return the cache.  The last line is
<<
    return recursing ? cache : options.formatStack(error, cache, sourceMap) || '';
>> *)
Definition prepareStackTrace (error : Ref) (stack : list CallSite)
  (recursing : bool) : M (Ref + JsValue) :=
  cache <- processStackTrace __filename error stack recursing ;;
  if recursing then ret (inl cache)
  else
    content <- readArray cache ;;
    o <- gets options ;;
    let formatted :=
      Options.formatStack o (Options.emptyFrame o) error content in
    ret (inr (if ToBoolean formatted then formatted else VString "")).

(** C8.  When the configured renderer returns a falsy value, the hook
    returns the empty string for every error, and returns normally. *)
Theorem falsy_renderer_gives_empty_stack
  (st : State) (error : Ref) (frames : list CallSite) :
  wf st -> error < length (errors st) ->
  (forall content,
     ToBoolean (Options.formatStack (options st)
                  (Options.emptyFrame (options st)) error content) = false) ->
  exists st',
    prepareStackTrace error frames false st
    = Some (Returned (inr (VString "")), st').
Proof.
  intros Hwf Herror Hfalsy.
  destruct (processStackTrace_total __filename st error frames false Hwf Herror)
    as (cache & st1 & Hflat & _ & Hcache & _ & _ & _ & _ & _ & Hopt & _).
  destruct (lookup_lt_is_Some_2 _ _ Hcache) as [content Hcontent].
  exists st1. unfold prepareStackTrace.
  rewrite (bind_run _ _ _ _ _ Hflat).
  rewrite (bind_run _ _ _ _ _ (readArray_run _ _ _ Hcontent)).
  rewrite (bind_run _ _ st1 (options st1) st1) by done.
  by rewrite Hopt, Hfalsy.
Qed.

Lemma truthy_or_empty s :
  (if ToBoolean (VString s) then VString s else VString "") = VString s.
Proof.
  cbn. destruct (String.eqb_spec s "") as [-> |]; done.
Qed.

(** X19.  Rendering through the hook of [index.js] is repeatable: on a
    store whose addresses all have objects behind them the hook
    returns, and calling it again for the same error, with whatever
    stack, returns the same value and changes nothing; the renderer is
    handed the cache and the cache is left as it is. *)
Theorem rendering_is_repeatable
  (st : State) (error : Ref) (frames : list CallSite) :
  wf st -> error < length (errors st) ->
  exists value st',
    prepareStackTrace error frames false st = Some (Returned (inr value), st')
    /\ forall frames',
         prepareStackTrace error frames' false st'
         = Some (Returned (inr value), st').
Proof.
  intros Hwf Herror.
  destruct (processStackTrace_total __filename st error frames false Hwf Herror)
    as (cache & st1 & Hflat & _ & Hcache & (e' & He' & Hcached) & _).
  destruct (lookup_lt_is_Some_2 _ _ Hcache) as [content Hcontent].
  eexists _, st1. split.
  - unfold prepareStackTrace.
    rewrite (bind_run _ _ _ _ _ Hflat).
    rewrite (bind_run _ _ _ _ _ (readArray_run _ _ _ Hcontent)).
    by rewrite (bind_run _ _ st1 (options st1) st1).
  - intros frames'. unfold prepareStackTrace.
    assert (processStackTrace __filename error frames' false st1
            = Some (Returned cache, st1)) as Hagain.
    { unfold processStackTrace. rewrite processStackTrace_fuel_step.
      by rewrite (bind_run _ _ _ _ _ (getError_run _ _ _ He')), Hcached. }
    rewrite (bind_run _ _ _ _ _ Hagain).
    rewrite (bind_run _ _ _ _ _ (readArray_run _ _ _ Hcontent)).
    by rewrite (bind_run _ _ st1 (options st1) st1).
Qed.

(** X20.  The trace the renderer of the constructor makes.  With
    [formatStack] as the constructor of [Options] sets it, the hook of
    [index.js] returns, for a new error raised under the markers of
    [chain]: the error's [toString()], then for each element of the
    flattened chain in order either the four spaces, [at] and the
    source-mapped call site or, for a separator marker,
    [options.emptyFrame]; the lines joined by newlines. *)
Theorem default_renderer_layout
  (st : State) (error : Ref) (e : ErrorObject) (frames : list CallSite)
  (chain : list (Ref * list CallSite))
  (errorToString : Ref -> string) (wrapCallSite : CallSite -> CallSite) :
  errors st !! error = Some e ->
  __cached_trace__ e = None -> __parent__ e = None ->
  linked (errors st) (currentTraceError st) chain ->
  NoDup chain.*1 -> error ∉ chain.*1 ->
  Options.formatStack (options st)
  = Options.defaultFormatStack errorToString wrapCallSite ->
  exists st',
    prepareStackTrace error frames false st
    = Some (Returned
              (inr (VString
                      (join_lines
                         (errorToString error
                          :: (renderItem
                                (fun site =>
                                   ("    at " ++ describe (wrapCallSite site))%string)
                                (Options.emptyFrame (options st))
                              <$> flatChain __filename (frames :: chain.*2)))))),
            st').
Proof.
  intros He Hc Hp Hl Hnd Hnotin Hrenderer.
  destruct (processStackTrace_fresh __filename st error e frames chain)
    as (st1 & Hflat & Hcontent & _ & _ & _ & Hopt); try done.
  exists st1. unfold prepareStackTrace.
  rewrite (bind_run _ _ _ _ _ Hflat).
  rewrite (bind_run _ _ _ _ _ (readArray_run _ _ _ Hcontent)).
  rewrite (bind_run _ _ st1 (options st1) st1) by done.
  rewrite Hopt, Hrenderer. unfold Options.defaultFormatStack.
  by rewrite truthy_or_empty.
Qed.

End Renderer.

(** The test [should handle a format stack function that returns
    something falsey]: the renderer is [function () {}]. *)
Definition silentOptions : Options.Options :=
  {| Options._asyncTraceLimit := 10;
     Options._emptyFrame := Options.dashes;
     Options._formatStack := fun _ _ _ => VUndefined |}.

Lemma falsy_renderer_gives_empty_stack_witness :
  exists st',
    prepareStackTrace moduleFile 1 [siteAt "/app/main.js" 9] false
      (with_options silentOptions errorInsideTimer)
    = Some (Returned (inr (VString "")), st').
Proof.
  apply (falsy_renderer_gives_empty_stack moduleFile).
  - apply wfb_wf. vm_compute. reflexivity.
  - vm_compute. lia.
  - intros content. reflexivity.
Defined.

Lemma rendering_is_repeatable_witness :
  exists value st',
    prepareStackTrace moduleFile 1 [siteAt "/app/main.js" 9] false
      errorInsideTimer
    = Some (Returned (inr value), st')
    /\ forall frames',
         prepareStackTrace moduleFile 1 frames' false st'
         = Some (Returned (inr value), st').
Proof.
  apply (rendering_is_repeatable moduleFile).
  - apply wfb_wf. vm_compute. reflexivity.
  - vm_compute. lia.
Defined.

(** The error raised in the callback of one timer, rendered by the
    constructor's renderer: the separator stands between the error's
    call site and the scheduling call's. *)
Lemma default_renderer_layout_witness :
  exists st',
    prepareStackTrace moduleFile 1 [siteAt "/app/main.js" 9] false
      errorInsideTimer
    = Some (Returned
              (inr (VString
                      (join_lines
                         [EmptyString; "    at /app/main.js"%string;
                          Options.dashes; "    at /app/main.js"%string]))),
            st').
Proof.
  apply (default_renderer_layout moduleFile errorInsideTimer 1 pendingError
           [siteAt "/app/main.js" 9] timerChain
           (fun _ => EmptyString) (fun site => site)).
  - reflexivity.
  - reflexivity.
  - reflexivity.
  - exact timerChain_linked.
  - exact timerChain_NoDup.
  - exact timerChain_fresh.
  - reflexivity.
Defined.

End Index.
